(** * BackupEntriesCollector: a shallow embedding and its verified properties

    The development follows [src/Backups/BackupEntriesCollector.cpp].  The
    collector object is a record of its member variables, a member function
    is a state transformer that may also throw, and every collaborator that
    lives outside that file (catalog, storages, coordination service, clock,
    renaming and escaping helpers) is a field of an environment record. *)

From Stdlib Require Import ZArith List String Ascii Lia Bool.
From Stdlib Require OrderedTypeEx Sorted.
From stdpp Require Import base gmap strings list pretty.

Local Open Scope string_scope.
Local Open Scope list_scope.

(** ** Data model *)

(** [QualifiedTableName]: a database name and a table name. *)
Record QualifiedTableName := mkQualifiedTableName {
  qtn_database : string;
  qtn_table : string
}.

(** [BackupEntriesCollector::TableKey]. *)
Record TableKey := mkTableKey {
  key_name : QualifiedTableName;
  key_is_temporary : bool
}.

#[global] Instance QualifiedTableName_eq_dec : EqDecision QualifiedTableName.
Proof. solve_decision. Defined.

#[global] Instance TableKey_eq_dec : EqDecision TableKey.
Proof. solve_decision. Defined.

#[global] Instance TableKey_countable : Countable TableKey.
Proof.
  apply (inj_countable'
           (fun k => (qtn_database (key_name k), qtn_table (key_name k), key_is_temporary k))
           (fun t => mkTableKey (mkQualifiedTableName t.1.1 t.1.2) t.2)).
  by intros [[] ?].
Defined.

(** [QualifiedTableName::operator==] and [operator<] come from the header of
    that struct: member-wise equality, and the order of the pair (database,
    table). *)
Definition QualifiedTableName_eqb (l r : QualifiedTableName) : bool :=
  String.eqb (qtn_database l) (qtn_database r) && String.eqb (qtn_table l) (qtn_table r).

Definition QualifiedTableName_ltb (l r : QualifiedTableName) : bool :=
  String.ltb (qtn_database l) (qtn_database r)
  || (String.eqb (qtn_database l) (qtn_database r) && String.ltb (qtn_table l) (qtn_table r)).

(** [is_temporary < right.is_temporary] on [bool]. *)
Definition bool_ltb (l r : bool) : bool := negb l && r.

(** [TableKey::operator ==]. *)
Definition TableKey_eqb (l r : TableKey) : bool :=
  QualifiedTableName_eqb (key_name l) (key_name r)
  && Bool.eqb (key_is_temporary l) (key_is_temporary r).

(** [TableKey::operator <]. *)
Definition TableKey_ltb (l r : TableKey) : bool :=
  QualifiedTableName_ltb (key_name l) (key_name r)
  || (QualifiedTableName_eqb (key_name l) (key_name r)
      && bool_ltb (key_is_temporary l) (key_is_temporary r)).

(** [BackupEntriesCollector::Stage]. *)
Inductive Stage :=
  | kPreparing
  | kFindingTables
  | kExtractingDataFromTables
  | kRunningPostTasks
  | kWritingBackup
  | kError.

#[global] Instance Stage_eq_dec : EqDecision Stage.
Proof. solve_decision. Defined.

(** [BackupEntriesCollector::toString(Stage)]. *)
Definition toString (stage : Stage) : string :=
  match stage with
  | kPreparing => "Preparing"
  | kFindingTables => "Finding tables"
  | kExtractingDataFromTables => "Extracting data from tables"
  | kRunningPostTasks => "Running post tasks"
  | kWritingBackup => "Writing backup"
  | kError => "Error"
  end.

(** The error codes the file declares; [OTHER_CODE] stands for the codes of
    exceptions thrown by collaborators. *)
Inductive ErrorCode :=
  | CANNOT_COLLECT_OBJECTS_FOR_BACKUP
  | CANNOT_BACKUP_TABLE
  | TABLE_IS_DROPPED
  | LOGICAL_ERROR
  | OTHER_CODE (n : Z).

#[global] Instance ErrorCode_eq_dec : EqDecision ErrorCode.
Proof. solve_decision. Defined.

(** What can be thrown: a [DB::Exception] with its code and message, or any
    other C++ exception.  [catch (Exception & e)] catches the former only,
    [catch (...)] both. *)
Inductive Exception :=
  | DBException (code : ErrorCode) (message : string)
  | ForeignException (what : string).

#[global] Instance Exception_eq_dec : EqDecision Exception.
Proof. solve_decision. Defined.

(** Object identities.  [DatabasePtr] and [StoragePtr] are shared pointers:
    [None] is the null pointer, [Some a] the object at address [a]; the
    source compares them by address. *)
Definition DatabasePtr := option nat.
Definition StoragePtr := option nat.
Definition TableLockHolder := option nat.

(** A partition selector, an opaque syntax tree. *)
Definition AST := string.

(** The fields of [ASTCreateQuery] the collector reads, and the rest of the
    definition as opaque text. *)
Record ASTCreateQuery := mkCreate {
  getDatabase_of : string;
  getTable_of : string;
  temporary : bool;
  definition_text : string
}.

Record StorageID := mkStorageID {
  sid_database : string;
  sid_table : string
}.

(** A backup entry: the content provider paired with a file name. *)
Inductive BackupEntry :=
  | BackupEntryFromMemory (data : string)
  | BackupEntryOfStorage (id : nat).

Definition BackupEntries := list (string * BackupEntry).

(** [ASTBackupQuery::Element]. *)
Inductive ElementType := TABLE | TEMPORARY_TABLE | DATABASE | ALL.

Record Element := mkElement {
  type : ElementType;
  database_name : string;
  table_name : string;
  partitions : option (list AST);
  except_tables : gset (string * string);
  except_databases : gset string
}.

(** The part of [BackupSettings] the collector reads. *)
Record BackupSettings := mkSettings {
  host_id : string;
  cluster_host_ids : list (list string);
  shard_num : N;
  replica_num : N;
  structure_only : bool
}.

(** The renaming map built from the query, seen through its three lookups. *)
Record DDLRenamingMap := mkRenamingMap {
  getNewDatabaseName : string -> string;
  getNewTableName : QualifiedTableName -> QualifiedTableName;
  getNewTemporaryTableName : string -> string
}.

(** ** [std::filesystem::path] on a POSIX host

    [p / q]: an absolute [q] replaces [p]; otherwise a separator is added
    when [p] has a file name (it is not empty and does not end in a
    separator) and [q] is appended. *)
Definition is_absolute (p : string) : bool :=
  match p with
  | String c _ => Ascii.eqb c "/"
  | EmptyString => false
  end.

Fixpoint has_filename (p : string) : bool :=
  match p with
  | EmptyString => false
  | String c EmptyString => negb (Ascii.eqb c "/")
  | String _ rest => has_filename rest
  end.

Definition path_append (p q : string) : string :=
  if is_absolute q then q
  else if has_filename p then p +:+ "/" +:+ q
  else p +:+ q.

Infix "//" := path_append (at level 40, left associativity).

(** A signed 64-bit integer: the value an integer has after wrap-around. *)
Definition wrap_int64 (x : Z) : Z := ((x + 2 ^ 63) mod 2 ^ 64 - 2 ^ 63)%Z.

(** [std::to_string] on a [size_t]. *)
Definition to_string (n : N) : string := pretty n.

(** ** Collaborators

    The catalog as one pass observes it.  Each field is one call of the
    source: the throwing lookups return an exception or a value, the
    [try...] lookups return an empty identifier or null pointers.  The fields
    are independent of each other, so a table that is listed by a database
    and cannot be resolved any more, or whose definition carries a name other
    than the one it was looked up by, is a catalog like any other: this is
    how a drop or a rename that happens while a pass runs shows up. *)
Inductive StorageNamespace := ResolveGlobal | ResolveExternal.

Record Catalog := mkCatalog {
  (* context->resolveStorageID(StorageID{database, table}, where) *)
  resolveStorageID : StorageID -> StorageNamespace -> Exception + StorageID;
  (* context->tryResolveStorageID(...): None is the empty StorageID *)
  tryResolveStorageID : StorageID -> StorageNamespace -> option StorageID;
  (* DatabaseCatalog::instance().getDatabaseAndTable(resolved_id, context) *)
  getDatabaseAndTable : StorageID -> Exception + (DatabasePtr * StoragePtr);
  (* DatabaseCatalog::instance().tryGetDatabaseAndTable(resolved_id, context) *)
  tryGetDatabaseAndTable : StorageID -> DatabasePtr * StoragePtr;
  (* storage->lockForShare(query_id, lock_acquire_timeout) *)
  lockForShare : StoragePtr -> Exception + TableLockHolder;
  (* storage->getCreateQueryForBackup(collector): a definition, never null *)
  getCreateQueryForBackup : StoragePtr -> Exception + ASTCreateQuery;
  (* DatabaseCatalog::instance().getDatabase(database_name) *)
  getDatabase : string -> Exception + DatabasePtr;
  (* DatabaseCatalog::instance().tryGetDatabase(database_name) *)
  tryGetDatabase : string -> DatabasePtr;
  (* database->getCreateDatabaseQueryForBackup() *)
  getCreateDatabaseQueryForBackup : DatabasePtr -> Exception + ASTCreateQuery;
  (* the names database->getTablesIteratorForBackup(collector) runs through *)
  getTablesIteratorForBackup : DatabasePtr -> Exception + list string;
  (* DatabaseCatalog::instance().getDatabases() *)
  getDatabases : list (string * DatabasePtr)
}.

(** A post-collecting task is a [std::function<void()>]; a task is named by
    a number and the environment gives its body. *)
Definition Task := nat.

(** What a collaborator holding the collector can do to the collector: the public
    member functions, and throwing. *)
Inductive Action :=
  | ActAddBackupEntry (file_name : string) (backup_entry : BackupEntry)
  | ActAddBackupEntries (backup_entries_ : BackupEntries)
  | ActAddPostCollectingTask (task : Task)
  | ActThrow (e : Exception).

(** Everything the collector observes of the outside, in order. *)
Inductive Event :=
  | LogStageFailed (stage : Stage) (error_message : string)
  | LogStage (new_stage : Stage)
  | LogRootPath (path : string)
  | LogCouldntCollect (pass : nat) (elapsed : Z)
  | LogWillBackup (databases tables : nat)
  | LogAddingDatabase (database_name : string)
  | LogAddingTable (key : TableKey)
  | LogAddingData (key : TableKey)
  | SyncStage (host : string) (stage : Stage) (all_hosts : list string) (timeout : Z)
  | SyncStageError (host : string) (error_message : string)
  | TaskEnqueued (task : Task)
  | TaskRun (task : Task).

(** What the collector keeps of a database it found (declared here for
    the environment, which says how a hash table of them is run through). *)
Record DatabaseInfo := mkDatabaseInfo {
  di_database : DatabasePtr;
  di_create_database_query : ASTCreateQuery
}.

(** The environment of one collector. *)
Record Environment := mkEnvironment {
  (* BackupSettings::Util *)
  findShardNumAndReplicaNum : list (list string) -> string -> Exception + (N * N);
  filterHostIDs : list (list string) -> N -> N -> list string;
  (* renaming and printing helpers *)
  makeRenamingMapFromBackupQuery : list Element -> Exception + DDLRenamingMap;
  renameDatabaseAndTableNameInCreateQuery : DDLRenamingMap -> ASTCreateQuery -> ASTCreateQuery;
  serializeAST : ASTCreateQuery -> string;
  escapeForFileName : string -> string;
  getCurrentExceptionMessage : Exception -> string;
  (* to_string of a duration, from base/chrono_io.h *)
  elapsed_to_string : Z -> string;
  (* the coordination service: given what was exchanged so far, a call
     returns (None) or throws *)
  coordination : list Event -> Event -> option Exception;
  (* steady_clock::now() - start_time at the end of pass number i, in ns *)
  elapsed_at : nat -> Z;
  (* the catalog as pass number i finds it *)
  catalog_at : nat -> Catalog;
  (* storage->backupData(collector, data_path_in_backup, partitions) *)
  backupData : StoragePtr -> string -> option (list AST) -> list Action;
  (* the body of a post-collecting task *)
  task_body : Task -> list Action;
  (* the order in which a range-for runs through [database_infos], a
     std::unordered_map: it is the hash table's, not the names' *)
  unordered_iteration : gmap string DatabaseInfo -> list (string * DatabaseInfo)
}.

(** The arguments of the constructor. *)
Record Config := mkConfig {
  backup_query_elements : list Element;
  backup_settings : BackupSettings;
  timeout : Z  (* std::chrono::seconds *)
}.

(** ** The collector object *)

Record TableInfo := mkTableInfo {
  ti_database : DatabasePtr;
  ti_storage : StoragePtr;
  ti_table_lock : TableLockHolder;
  ti_create_table_query : ASTCreateQuery;
  ti_data_path_in_backup : string;
  ti_partitions : option (list AST)
}.

(** The member variables, as the member functions use them (the two
    containers are maps, from database names and from table keys), and
    [trace]: what the collector has logged, sent to the coordination
    service, and which tasks it queued and ran. *)
Record Collector := mkCollector {
  current_stage : Stage;
  root_path_in_backup : string;
  renaming_map : DDLRenamingMap;
  database_infos : gmap string DatabaseInfo;
  table_infos : gmap TableKey TableInfo;
  previous_database_names : option (gset string);
  previous_table_names : option (gset TableKey);
  consistent : bool;
  backup_entries : BackupEntries;
  post_collecting_tasks : list Task;
  trace : list Event
}.

Definition set_current_stage (v : Stage) (s : Collector) : Collector :=
  mkCollector v (root_path_in_backup s) (renaming_map s) (database_infos s) (table_infos s)
    (previous_database_names s) (previous_table_names s) (consistent s) (backup_entries s)
    (post_collecting_tasks s) (trace s).

Definition set_root_path_in_backup (v : string) (s : Collector) : Collector :=
  mkCollector (current_stage s) v (renaming_map s) (database_infos s) (table_infos s)
    (previous_database_names s) (previous_table_names s) (consistent s) (backup_entries s)
    (post_collecting_tasks s) (trace s).

Definition set_renaming_map (v : DDLRenamingMap) (s : Collector) : Collector :=
  mkCollector (current_stage s) (root_path_in_backup s) v (database_infos s) (table_infos s)
    (previous_database_names s) (previous_table_names s) (consistent s) (backup_entries s)
    (post_collecting_tasks s) (trace s).

Definition set_database_infos (v : gmap string DatabaseInfo) (s : Collector) : Collector :=
  mkCollector (current_stage s) (root_path_in_backup s) (renaming_map s) v (table_infos s)
    (previous_database_names s) (previous_table_names s) (consistent s) (backup_entries s)
    (post_collecting_tasks s) (trace s).

Definition set_table_infos (v : gmap TableKey TableInfo) (s : Collector) : Collector :=
  mkCollector (current_stage s) (root_path_in_backup s) (renaming_map s) (database_infos s) v
    (previous_database_names s) (previous_table_names s) (consistent s) (backup_entries s)
    (post_collecting_tasks s) (trace s).

Definition set_previous_names (d : option (gset string)) (t : option (gset TableKey))
    (s : Collector) : Collector :=
  mkCollector (current_stage s) (root_path_in_backup s) (renaming_map s) (database_infos s)
    (table_infos s) d t (consistent s) (backup_entries s) (post_collecting_tasks s) (trace s).

Definition set_consistent (v : bool) (s : Collector) : Collector :=
  mkCollector (current_stage s) (root_path_in_backup s) (renaming_map s) (database_infos s)
    (table_infos s) (previous_database_names s) (previous_table_names s) v (backup_entries s)
    (post_collecting_tasks s) (trace s).

Definition set_backup_entries (v : BackupEntries) (s : Collector) : Collector :=
  mkCollector (current_stage s) (root_path_in_backup s) (renaming_map s) (database_infos s)
    (table_infos s) (previous_database_names s) (previous_table_names s) (consistent s) v
    (post_collecting_tasks s) (trace s).

Definition set_post_collecting_tasks (v : list Task) (s : Collector) : Collector :=
  mkCollector (current_stage s) (root_path_in_backup s) (renaming_map s) (database_infos s)
    (table_infos s) (previous_database_names s) (previous_table_names s) (consistent s)
    (backup_entries s) v (trace s).

(** Appends one event to the trace. *)
Definition emit (ev : Event) (s : Collector) : Collector :=
  mkCollector (current_stage s) (root_path_in_backup s) (renaming_map s) (database_infos s)
    (table_infos s) (previous_database_names s) (previous_table_names s) (consistent s)
    (backup_entries s) (post_collecting_tasks s) (trace s ++ [ev]).

(** A collector as the constructor leaves it: the stage is [kPreparing], the
    containers are empty and there is no previous pass. *)
Definition identity_renaming : DDLRenamingMap := mkRenamingMap id id id.

Definition new_collector : Collector :=
  mkCollector kPreparing "" identity_renaming ∅ ∅ None None true [] [] [].

(** ** Outcomes

    A member function returns a value, throws, or (for the two loops that
    need not terminate) is still running when the fuel is spent.  In each
    case the collector it leaves behind is part of the outcome. *)
Inductive Outcome (A : Type) :=
  | Ok (a : A) (s : Collector)
  | Throw (e : Exception) (s : Collector)
  | OutOfFuel (s : Collector).

Arguments Ok {A} a s.
Arguments Throw {A} e s.
Arguments OutOfFuel {A} s.

Definition M (A : Type) := Collector -> Outcome A.

Definition ret {A} (a : A) : M A := fun s => Ok a s.

Definition bind {A B} (m : M A) (k : A -> M B) : M B := fun s =>
  match m s with
  | Ok a s' => k a s'
  | Throw e s' => Throw e s'
  | OutOfFuel s' => OutOfFuel s'
  end.

Definition throw {A} (e : Exception) : M A := fun s => Throw e s.

Definition modify (f : Collector -> Collector) : M unit := fun s => Ok tt (f s).

(** A call into a collaborator that returns a value or throws. *)
Definition call {A} (r : Exception + A) : M A := fun s =>
  match r with
  | inl e => Throw e s
  | inr a => Ok a s
  end.

Notation "x <-- m ; k" := (bind m (fun x => k))
  (at level 20, m at level 100, k at level 200, only parsing).
Notation "m ;;; k" := (bind m (fun _ => k))
  (at level 20, k at level 200, only parsing).

(** The final collector of an outcome. *)
Definition final {A} (o : Outcome A) : Collector :=
  match o with
  | Ok _ s => s
  | Throw _ s => s
  | OutOfFuel s => s
  end.

(** ** The member functions *)

(** [std::map::contains] and [std::unordered_map::contains]. *)
Definition contains `{Countable K} {V} (m : gmap K V) (k : K) : bool :=
  bool_decide (is_Some (m !! k)).

(** The elements of [table_infos] in the order a [std::map] runs through
    them: increasing for [TableKey::operator<]. *)
Fixpoint insert_by_key (x : TableKey * TableInfo) (l : list (TableKey * TableInfo))
  : list (TableKey * TableInfo) :=
  match l with
  | [] => [x]
  | y :: l' => if TableKey_ltb x.1 y.1 then x :: l else y :: insert_by_key x l'
  end.

Definition in_key_order (m : gmap TableKey TableInfo) : list (TableKey * TableInfo) :=
  foldr insert_by_key [] (map_to_list m).

(** The identifier [collectTableInfo] asks the context to resolve, and the
    pointers and the definition it gathers before it looks at its own
    containers: the first half of the function, one branch for each value
    of [throw_if_not_found]. *)
Definition asked_storage (table_name : QualifiedTableName) (is_temporary_table : bool)
  : StorageID * StorageNamespace :=
  if is_temporary_table then (mkStorageID "" (qtn_table table_name), ResolveExternal)
  else (mkStorageID (qtn_database table_name) (qtn_table table_name), ResolveGlobal).

Definition gather_table (c : Catalog) (table_name : QualifiedTableName)
    (is_temporary_table throw_if_not_found : bool)
  : Exception + (DatabasePtr * StoragePtr * TableLockHolder * option ASTCreateQuery) :=
  let asked := asked_storage table_name is_temporary_table in
  if throw_if_not_found then
    match resolveStorageID c asked.1 asked.2 with
    | inl e => inl e
    | inr resolved_id =>
      match getDatabaseAndTable c resolved_id with
      | inl e => inl e
      | inr (database, storage) =>
        match lockForShare c storage with
        | inl e => inl e
        | inr table_lock =>
          match getCreateQueryForBackup c storage with
          | inl e => inl e
          | inr create => inr (database, storage, table_lock, Some create)
          end
        end
      end
    end
  else
    let '(database, storage) :=
      match tryResolveStorageID c asked.1 asked.2 with
      | Some resolved_id => tryGetDatabaseAndTable c resolved_id
      | None => (None, None)
      end in
    match storage with
    | None => inr (database, storage, None, None)
    | Some _ =>
      match lockForShare c storage with
      | inl (DBException TABLE_IS_DROPPED _) => inr (database, storage, None, None)
      | inl e => inl e
      | inr table_lock =>
        match getCreateQueryForBackup c storage with
        | inl (DBException TABLE_IS_DROPPED _) => inr (database, storage, table_lock, None)
        | inl e => inl e
        | inr create => inr (database, storage, table_lock, Some create)
        end
      end
    end.

(** [insertAtEnd] on the partitions of [res_table_info], after the
    [emplace] of an absent list. *)
Definition add_partitions (old : option (list AST)) (partitions : option (list AST))
  : option (list AST) :=
  match partitions with
  | Some ps => Some (default [] old ++ ps)%list
  | None => old
  end.

Section MemberFunctions.

Context (env : Environment) (cfg : Config).

(** [BackupEntriesCollector::collectTableInfo]. *)
Definition collectTableInfo (c : Catalog) (table_name : QualifiedTableName)
    (is_temporary_table : bool) (partitions : option (list AST))
    (throw_if_not_found : bool) : M unit := fun s =>
  let table_key := mkTableKey table_name is_temporary_table in
  match gather_table c table_name is_temporary_table throw_if_not_found with
  | inl e => Throw e s
  | inr (database, storage, table_lock, None) =>
      (* consistent &= !table_infos.contains(table_key); return; *)
      Ok tt (set_consistent (consistent s && negb (contains (table_infos s) table_key)) s)
  | inr (database, storage, table_lock, Some create) =>
      let data_path_in_backup :=
        if is_temporary_table then
          root_path_in_backup s // "temporary_tables" // "data"
            // escapeForFileName env (getNewTemporaryTableName (renaming_map s) (qtn_table table_name))
        else
          let table_name_in_backup := getNewTableName (renaming_map s) table_name in
          root_path_in_backup s // "data"
            // escapeForFileName env (qtn_database table_name_in_backup)
            // escapeForFileName env (qtn_table table_name_in_backup) in
      if negb (String.eqb (getTable_of create) (qtn_table table_name))
         || negb (Bool.eqb is_temporary_table (temporary create))
         || negb (String.eqb (getDatabase_of create) (qtn_database table_name))
      then Ok tt (set_consistent false s)
      else
        let found := table_infos s !! table_key in
        if match found with
           | Some table_info =>
               negb (bool_decide (ti_database table_info = database))
               || negb (bool_decide (ti_storage table_info = storage))
           | None => false
           end
        then Ok tt (set_consistent false s)
        else
          let res_table_info :=
            mkTableInfo database storage table_lock create data_path_in_backup
              (add_partitions (found ≫= ti_partitions) partitions) in
          Ok tt (set_table_infos (<[table_key := res_table_info]> (table_infos s)) s)
  end.

(** The loop over [database->getTablesIteratorForBackup(collector)] at the
    end of [collectDatabaseInfo]. *)
Fixpoint collectTablesOf (c : Catalog) (database_name : string)
    (except_table_names : gset (string * string)) (names : list string) : M unit := fun s =>
  match names with
  | [] => Ok tt s
  | table :: rest =>
      if bool_decide ((database_name, table) ∈ except_table_names)
      then collectTablesOf c database_name except_table_names rest s
      else
        match collectTableInfo c (mkQualifiedTableName database_name table) false None false s with
        | Ok _ s' =>
            if consistent s' then collectTablesOf c database_name except_table_names rest s'
            else Ok tt s'
        | other => other
        end
  end.

(** The database and its definition that [collectDatabaseInfo] gathers first;
    [None] is the early return of a lookup that found nothing. *)
Definition gather_database (c : Catalog) (database_name : string) (throw_if_not_found : bool)
  : Exception + option (DatabasePtr * ASTCreateQuery) :=
  if throw_if_not_found then
    match getDatabase c database_name with
    | inl e => inl e
    | inr database =>
      match getCreateDatabaseQueryForBackup c database with
      | inl e => inl e
      | inr create => inr (Some (database, create))
      end
    end
  else
    match tryGetDatabase c database_name with
    | None => inr None
    | Some a =>
      match getCreateDatabaseQueryForBackup c (Some a) with
      | inl _ => inr None  (* catch (...): the database has been dropped recently *)
      | inr create => inr (Some (Some a, create))
      end
    end.

(** [BackupEntriesCollector::collectDatabaseInfo]. *)
Definition collectDatabaseInfo (c : Catalog) (database_name : string)
    (except_table_names : gset (string * string)) (throw_if_not_found : bool) : M unit := fun s =>
  match gather_database c database_name throw_if_not_found with
  | inl e => Throw e s
  | inr None =>
      (* consistent &= !database_infos.contains(database_name); return; *)
      Ok tt (set_consistent (consistent s && negb (contains (database_infos s) database_name)) s)
  | inr (Some (database, create)) =>
      if negb (String.eqb (getDatabase_of create) database_name)
      then Ok tt (set_consistent false s)
      else if match database_infos s !! database_name with
              | Some database_info => negb (bool_decide (di_database database_info = database))
              | None => false
              end
      then Ok tt (set_consistent false s)
      else
        let s1 :=
          set_database_infos
            (<[database_name := mkDatabaseInfo database create]> (database_infos s)) s in
        match getTablesIteratorForBackup c database with
        | inl e => Throw e s1
        | inr names => collectTablesOf c database_name except_table_names names s1
        end
  end.

(** [BackupEntriesCollector::collectAllDatabasesInfo], as a loop over what
    [getDatabases()] returned. *)
Fixpoint collectAllDatabasesInfo_loop (c : Catalog) (except_database_names : gset string)
    (except_table_names : gset (string * string)) (dbs : list (string * DatabasePtr))
  : M unit := fun s =>
  match dbs with
  | [] => Ok tt s
  | (database_name, _) :: rest =>
      if bool_decide (database_name ∈ except_database_names)
      then collectAllDatabasesInfo_loop c except_database_names except_table_names rest s
      else
        match collectDatabaseInfo c database_name except_table_names false s with
        | Ok _ s' =>
            if consistent s'
            then collectAllDatabasesInfo_loop c except_database_names except_table_names rest s'
            else Ok tt s'
        | other => other
        end
  end.

Definition collectAllDatabasesInfo (c : Catalog) (except_database_names : gset string)
    (except_table_names : gset (string * string)) : M unit :=
  collectAllDatabasesInfo_loop c except_database_names except_table_names (getDatabases c).

(** The body of the [switch] in [collectDatabasesAndTablesInfo]. *)
Definition collectElement (c : Catalog) (element : Element) : M unit :=
  match type element with
  | TABLE =>
      collectTableInfo c (mkQualifiedTableName (database_name element) (table_name element))
        false (partitions element) true
  | TEMPORARY_TABLE =>
      collectTableInfo c (mkQualifiedTableName "" (table_name element))
        true (partitions element) true
  | DATABASE => collectDatabaseInfo c (database_name element) (except_tables element) true
  | ALL => collectAllDatabasesInfo c (except_databases element) (except_tables element)
  end.

(** [for (const auto & element : backup_query_elements)]. *)
Fixpoint collectElements (c : Catalog) (elements : list Element) : M unit :=
  match elements with
  | [] => ret tt
  | element :: rest => collectElement c element ;;; collectElements c rest
  end.

(** The first loop of [checkConsistency]: no collected table lies in a
    collected database other than the one it was found in. *)
Definition databases_agree (s : Collector) : bool :=
  forallb
    (fun kv : TableKey * TableInfo =>
       match database_infos s !! qtn_database (key_name kv.1) with
       | Some database_info => bool_decide (di_database database_info = ti_database kv.2)
       | None => true
       end)
    (in_key_order (table_infos s)).

(** [BackupEntriesCollector::checkConsistency]. *)
Definition checkConsistency (s : Collector) : Collector :=
  if negb (consistent s) then s
  else if negb (databases_agree s) then set_consistent false s
  else
    let database_names : gset string := dom (database_infos s) in
    let table_names : gset TableKey := dom (table_infos s) in
    if bool_decide (previous_database_names s = Some database_names)
       && bool_decide (previous_table_names s = Some table_names)
    then s
    else set_consistent false (set_previous_names (Some database_names) (Some table_names) s).

(** The head of the [do] loop: both containers are cleared and the flag is
    raised. *)
Definition begin_pass (s : Collector) : Collector :=
  set_consistent true (set_table_infos ∅ (set_database_infos ∅ s)).

(** One pass: the body of the [do] loop down to [checkConsistency]. *)
Definition scan_pass (pass : nat) : M unit := fun s =>
  match collectElements (catalog_at env pass) (backup_query_elements cfg) (begin_pass s) with
  | Ok _ s' => Ok tt (checkConsistency s')
  | other => other
  end.

(** [elapsed > timeout]: a duration in nanoseconds against one in seconds.
    The comparison is made in nanoseconds, in the 64 bits of the clock's
    duration: the seconds are multiplied by 10^9 there, and the product
    wraps around when it does not fit. *)
Definition exceeds_timeout (elapsed : Z) : bool :=
  (wrap_int64 (timeout cfg * 1000000000) <? elapsed)%Z.

(** The exception of a scan that ran out of time. *)
Definition convergence_error (pass : nat) (elapsed : Z) : Exception :=
  DBException CANNOT_COLLECT_OBJECTS_FOR_BACKUP
    ("Couldn't collect tables and databases to make a backup (pass #"
       +:+ pretty pass +:+ ", elapsed " +:+ elapsed_to_string env elapsed +:+ ")").

(** The [do ... while (!consistent)] loop of [collectDatabasesAndTablesInfo],
    entered at pass number [pass] (the counter starts at 0); the value
    returned is [pass] as the loop leaves it, the number of passes made. *)
Fixpoint scan_loop (fuel : nat) (pass : nat) : M nat := fun s =>
  match fuel with
  | O => OutOfFuel s
  | S fuel' =>
      let use_timeout := (0 <=? timeout cfg)%Z in
      match scan_pass pass s with
      | Ok _ s1 =>
          let elapsed := elapsed_at env pass in
          if negb (consistent s1) && (2 <=? pass)%nat && use_timeout && exceeds_timeout elapsed
          then Throw (convergence_error pass elapsed) s1
          else
            let s2 := if (2 <=? pass)%nat then emit (LogCouldntCollect pass elapsed) s1 else s1 in
            if consistent s2 then Ok (S pass) s2 else scan_loop fuel' (S pass) s2
      | Throw e s1 => Throw e s1
      | OutOfFuel s1 => OutOfFuel s1
      end
  end.

(** [BackupEntriesCollector::collectDatabasesAndTablesInfo]. *)
Definition collectDatabasesAndTablesInfo (fuel : nat) : M nat :=
  passes <-- scan_loop fuel 0;
  (fun s => Ok passes
     (emit (LogWillBackup (size (database_infos s)) (size (table_infos s))) s)).

(** [BackupEntriesCollector::setStage].  The stage is stored before the
    coordination service is called, so it stays stored when the call
    throws. *)
Definition setStage (new_stage : Stage) (error_message : string) : M unit := fun s =>
  let settings := backup_settings cfg in
  let s1 :=
    emit (if decide (new_stage = kError)
          then LogStageFailed (current_stage s) error_message
          else LogStage new_stage) s in
  let s2 := set_current_stage new_stage s1 in
  let request :=
    if decide (new_stage = kError)
    then SyncStageError (host_id settings) error_message
    else
      let all_hosts :=
        filterHostIDs env (cluster_host_ids settings) (shard_num settings)
          (replica_num settings) in
      SyncStage (host_id settings) new_stage all_hosts (timeout cfg) in
  match coordination env (trace s2) request with
  | Some e => Throw e (emit request s2)
  | None => Ok tt (emit request s2)
  end.

(** [BackupEntriesCollector::calculateRootPathInBackup]. *)
Definition calculateRootPathInBackup : M unit := fun s =>
  let settings := backup_settings cfg in
  let s1 := set_root_path_in_backup "/" s in
  if String.eqb (host_id settings) ""
  then Ok tt (emit (LogRootPath (root_path_in_backup s1)) s1)
  else
    match findShardNumAndReplicaNum env (cluster_host_ids settings) (host_id settings) with
    | inl e => Throw e s1
    | inr (shard_num, replica_num) =>
        let s2 :=
          set_root_path_in_backup
            (root_path_in_backup s1 // "shards" // to_string shard_num
               // "replicas" // to_string replica_num) s1 in
        Ok tt (emit (LogRootPath (root_path_in_backup s2)) s2)
    end.

(** [BackupEntriesCollector::addBackupEntry]. *)
Definition addBackupEntry (file_name : string) (backup_entry : BackupEntry) : M unit := fun s =>
  if decide (current_stage s = kWritingBackup)
  then Throw (DBException LOGICAL_ERROR "Adding backup entries is not allowed") s
  else Ok tt (set_backup_entries (backup_entries s ++ [(file_name, backup_entry)]) s).

(** [BackupEntriesCollector::addBackupEntries], the same for its two
    overloads. *)
Definition addBackupEntries (backup_entries_ : BackupEntries) : M unit := fun s =>
  if decide (current_stage s = kWritingBackup)
  then Throw (DBException LOGICAL_ERROR "Adding backup entries is not allowed") s
  else Ok tt (set_backup_entries (backup_entries s ++ backup_entries_) s).

(** [BackupEntriesCollector::addPostCollectingTask]. *)
Definition addPostCollectingTask (task : Task) : M unit := fun s =>
  if decide (current_stage s = kWritingBackup)
  then Throw (DBException LOGICAL_ERROR "Adding post tasks is not allowed") s
  else Ok tt (emit (TaskEnqueued task)
                (set_post_collecting_tasks (post_collecting_tasks s ++ [task]) s)).

(** [BackupEntriesCollector::throwPartitionsNotSupported]. *)
Definition throwPartitionsNotSupported (full_table_name table_engine : string) : Exception :=
  DBException CANNOT_BACKUP_TABLE
    ("Table engine " +:+ table_engine
       +:+ " doesn't support partitions, cannot backup table " +:+ full_table_name).

(** A collaborator at work on the collector. *)
Definition run_action (a : Action) : M unit :=
  match a with
  | ActAddBackupEntry file_name backup_entry => addBackupEntry file_name backup_entry
  | ActAddBackupEntries backup_entries_ => addBackupEntries backup_entries_
  | ActAddPostCollectingTask task => addPostCollectingTask task
  | ActThrow e => throw e
  end.

Fixpoint run_actions (acts : list Action) : M unit :=
  match acts with
  | [] => ret tt
  | a :: rest => run_action a ;;; run_actions rest
  end.

(** [BackupEntriesCollector::makeBackupEntriesForDatabasesDefs]. *)
Fixpoint makeBackupEntriesForDatabasesDefs_loop (dbs : list (string * DatabaseInfo))
    (s : Collector) : Collector :=
  match dbs with
  | [] => s
  | (database_name, database_info) :: rest =>
      let s1 := emit (LogAddingDatabase database_name) s in
      let new_create_query :=
        renameDatabaseAndTableNameInCreateQuery env (renaming_map s1)
          (di_create_database_query database_info) in
      let new_database_name := getNewDatabaseName (renaming_map s1) database_name in
      let metadata_path_in_backup :=
        root_path_in_backup s1 // "metadata"
          // (escapeForFileName env new_database_name +:+ ".sql") in
      makeBackupEntriesForDatabasesDefs_loop rest
        (set_backup_entries
           (backup_entries s1
              ++ [(metadata_path_in_backup,
                   BackupEntryFromMemory (serializeAST env new_create_query))]) s1)
  end.

Definition makeBackupEntriesForDatabasesDefs : M unit := fun s =>
  Ok tt (makeBackupEntriesForDatabasesDefs_loop (unordered_iteration env (database_infos s)) s).

(** [BackupEntriesCollector::makeBackupEntriesForTablesDefs]. *)
Fixpoint makeBackupEntriesForTablesDefs_loop (tables : list (TableKey * TableInfo))
    (s : Collector) : Collector :=
  match tables with
  | [] => s
  | (key, table_info) :: rest =>
      let s1 := emit (LogAddingTable key) s in
      let new_create_query :=
        renameDatabaseAndTableNameInCreateQuery env (renaming_map s1)
          (ti_create_table_query table_info) in
      let metadata_path_in_backup :=
        if key_is_temporary key then
          let new_name := getNewTemporaryTableName (renaming_map s1) (qtn_table (key_name key)) in
          root_path_in_backup s1 // "temporary_tables" // "metadata"
            // (escapeForFileName env new_name +:+ ".sql")
        else
          let new_name := getNewTableName (renaming_map s1) (key_name key) in
          root_path_in_backup s1 // "metadata"
            // escapeForFileName env (qtn_database new_name)
            // (escapeForFileName env (qtn_table new_name) +:+ ".sql") in
      makeBackupEntriesForTablesDefs_loop rest
        (set_backup_entries
           (backup_entries s1
              ++ [(metadata_path_in_backup,
                   BackupEntryFromMemory (serializeAST env new_create_query))]) s1)
  end.

Definition makeBackupEntriesForTablesDefs : M unit := fun s =>
  Ok tt (makeBackupEntriesForTablesDefs_loop (in_key_order (table_infos s)) s).

(** [BackupEntriesCollector::makeBackupEntriesForTablesData]. *)
Fixpoint makeBackupEntriesForTablesData_loop (tables : list (TableKey * TableInfo)) : M unit :=
  match tables with
  | [] => ret tt
  | (key, table_info) :: rest =>
      modify (emit (LogAddingData key)) ;;;
      run_actions
        (backupData env (ti_storage table_info) (ti_data_path_in_backup table_info)
           (ti_partitions table_info)) ;;;
      makeBackupEntriesForTablesData_loop rest
  end.

Definition makeBackupEntriesForTablesData : M unit := fun s =>
  if structure_only (backup_settings cfg) then Ok tt s
  else makeBackupEntriesForTablesData_loop (in_key_order (table_infos s)) s.

(** [BackupEntriesCollector::runPostCollectingTasks]: the task at the front
    is taken off the queue and then run. *)
Fixpoint runPostCollectingTasks (fuel : nat) : M unit := fun s =>
  match post_collecting_tasks s with
  | [] => Ok tt s
  | task :: rest =>
      match fuel with
      | O => OutOfFuel s
      | S fuel' =>
          let s1 := emit (TaskRun task) (set_post_collecting_tasks rest s) in
          match run_actions (task_body env task) s1 with
          | Ok _ s2 => runPostCollectingTasks fuel' s2
          | other => other
          end
      end
  end.

(** The [try] block of [getBackupEntries].  The entries are moved out of the
    collector, which is left with an empty list. *)
Definition getBackupEntries_try (scan_fuel drain_fuel : nat) : M BackupEntries :=
  (fun s =>
     if decide (current_stage s = kPreparing) then Ok tt s
     else Throw (DBException LOGICAL_ERROR "Already making backup entries") s) ;;;
  calculateRootPathInBackup ;;;
  renamings <-- call (makeRenamingMapFromBackupQuery env (backup_query_elements cfg));
  modify (set_renaming_map renamings) ;;;
  setStage kFindingTables "" ;;;
  collectDatabasesAndTablesInfo scan_fuel ;;;
  makeBackupEntriesForDatabasesDefs ;;;
  makeBackupEntriesForTablesDefs ;;;
  setStage kExtractingDataFromTables "" ;;;
  makeBackupEntriesForTablesData ;;;
  setStage kRunningPostTasks "" ;;;
  runPostCollectingTasks drain_fuel ;;;
  setStage kWritingBackup "" ;;;
  (fun s => Ok (backup_entries s) (set_backup_entries [] s)).

(** [BackupEntriesCollector::getBackupEntries]: the [catch (...)] around the
    body sets the stage [kError], lets nothing out of that, and throws the
    exception it caught again. *)
Definition getBackupEntries (scan_fuel drain_fuel : nat) : M BackupEntries := fun s =>
  match getBackupEntries_try scan_fuel drain_fuel s with
  | Throw e s1 => Throw e (final (setStage kError (getCurrentExceptionMessage env e) s1))
  | other => other
  end.

End MemberFunctions.

(** ** Reading a collector *)

(** The final collector of a run, whether it returned or threw, is [final];
    these are the other observations the properties below are stated with. *)

(** An outcome that is a return or an exception, the fuel not spent. *)
Definition finished {A} (o : Outcome A) : bool :=
  match o with
  | OutOfFuel _ => false
  | _ => true
  end.


(** The entries a run returns, and their file names. *)
Definition returned_entries (o : Outcome BackupEntries) : BackupEntries :=
  match o with
  | Ok entries _ => entries
  | _ => []
  end.

Definition entry_names (o : Outcome BackupEntries) : list string :=
  map fst (returned_entries o).

(** The tasks queued and the tasks run, in the order of the trace. *)
Definition tasks_enqueued (t : list Event) : list Task :=
  omap (fun ev => match ev with TaskEnqueued task => Some task | _ => None end) t.

Definition tasks_run (t : list Event) : list Task :=
  omap (fun ev => match ev with TaskRun task => Some task | _ => None end) t.

(** The queue and what the trace says of tasks. *)
Definition task_view (s : Collector) : list Task * list Task * list Task :=
  (tasks_enqueued (trace s), tasks_run (trace s), post_collecting_tasks s).

(** The queue holds exactly the tasks that were queued and have not run
    yet, in the order in which they were queued. *)
Definition queue_in_order (s : Collector) : Prop :=
  tasks_enqueued (trace s) = tasks_run (trace s) ++ post_collecting_tasks s.

(** The warnings of the scan: pass number and time elapsed. *)
Definition warnings (t : list Event) : list (nat * Z) :=
  omap (fun ev =>
          match ev with
          | LogCouldntCollect pass elapsed => Some (pass, elapsed)
          | _ => None
          end) t.

(** What [setStage kError] leaves behind, whether the service took the
    message or not. *)
Definition error_stage (cfg : Config) (message : string) (s : Collector) : Collector :=
  emit (SyncStageError (host_id (backup_settings cfg)) message)
    (set_current_stage kError (emit (LogStageFailed (current_stage s) message) s)).

(** Whether a key was in the result of the previous pass. *)
Definition in_previous_pass (s : Collector) (k : TableKey) : Prop :=
  exists names, previous_table_names s = Some names /\ k ∈ names.

(** What makes a table missing for a lookup that need not find it: the
    identifier does not resolve, there is no storage behind it, or the
    table is dropped while it is locked or asked for its definition. *)
Inductive table_missing (c : Catalog) (table_name : QualifiedTableName)
    (is_temporary_table : bool) : Prop :=
  | missing_unresolved :
      tryResolveStorageID c (asked_storage table_name is_temporary_table).1
        (asked_storage table_name is_temporary_table).2 = None ->
      table_missing c table_name is_temporary_table
  | missing_storage (resolved_id : StorageID) (database : DatabasePtr) :
      tryResolveStorageID c (asked_storage table_name is_temporary_table).1
        (asked_storage table_name is_temporary_table).2 = Some resolved_id ->
      tryGetDatabaseAndTable c resolved_id = (database, None) ->
      table_missing c table_name is_temporary_table
  | missing_dropped_before_lock (resolved_id : StorageID) (database : DatabasePtr)
      (address : nat) (message : string) :
      tryResolveStorageID c (asked_storage table_name is_temporary_table).1
        (asked_storage table_name is_temporary_table).2 = Some resolved_id ->
      tryGetDatabaseAndTable c resolved_id = (database, Some address) ->
      lockForShare c (Some address) = inl (DBException TABLE_IS_DROPPED message) ->
      table_missing c table_name is_temporary_table
  | missing_dropped_before_definition (resolved_id : StorageID) (database : DatabasePtr)
      (address : nat) (table_lock : TableLockHolder) (message : string) :
      tryResolveStorageID c (asked_storage table_name is_temporary_table).1
        (asked_storage table_name is_temporary_table).2 = Some resolved_id ->
      tryGetDatabaseAndTable c resolved_id = (database, Some address) ->
      lockForShare c (Some address) = inr table_lock ->
      getCreateQueryForBackup c (Some address) = inl (DBException TABLE_IS_DROPPED message) ->
      table_missing c table_name is_temporary_table.

(** The partition selectors collected for a key. *)
Definition partitions_of (s : Collector) (k : TableKey) : option (list AST) :=
  table_infos s !! k ≫= ti_partitions.

(** The key a query element names by itself, if it names one. *)
Definition named_key (element : Element) : option TableKey :=
  match type element with
  | TABLE =>
      Some (mkTableKey (mkQualifiedTableName (database_name element) (table_name element)) false)
  | TEMPORARY_TABLE => Some (mkTableKey (mkQualifiedTableName "" (table_name element)) true)
  | DATABASE | ALL => None
  end.


(** A part of a pass that asks for no partitions keeps, if it is accepted,
    every table it found collected and every list of selectors as it was. *)
Definition keeps_partitions (s s' : Collector) : Prop :=
  consistent s' = true ->
  consistent s = true
  /\ (forall k, is_Some (table_infos s !! k) -> is_Some (table_infos s' !! k))
  /\ (forall k, partitions_of s' k = partitions_of s k).

(** ** Sample catalogs, environments and queries *)

(** A catalog given by its databases: name, address, and the tables with
    their names and addresses.  Nothing in it is temporary. *)
Definition SampleDatabase : Type := string * nat * list (string * nat).

Definition sample_find_database (dbs : list SampleDatabase) (database : string)
  : option SampleDatabase :=
  List.find (fun d : SampleDatabase => String.eqb d.1.1 database) dbs.

Definition sample_find_table (dbs : list SampleDatabase) (id : StorageID) : option (nat * nat) :=
  match sample_find_database dbs (sid_database id) with
  | Some d =>
      match List.find (fun t : string * nat => String.eqb t.1 (sid_table id)) d.2 with
      | Some t => Some (d.1.2, t.2)
      | None => None
      end
  | None => None
  end.

Definition sample_table_at (dbs : list SampleDatabase) (address : nat) : option ASTCreateQuery :=
  head
    (flat_map (fun d : SampleDatabase =>
                 flat_map (fun t : string * nat =>
                             if Nat.eqb t.2 address then [mkCreate d.1.1 t.1 false "CREATE TABLE"]
                             else []) d.2) dbs).

Definition sample_database_at (dbs : list SampleDatabase) (address : nat)
  : option SampleDatabase :=
  List.find (fun d : SampleDatabase => Nat.eqb d.1.2 address) dbs.

Definition unknown_table : Exception := DBException (OTHER_CODE 60) "Table doesn't exist".
Definition unknown_database : Exception := DBException (OTHER_CODE 81) "Database doesn't exist".

Definition sample_catalog (dbs : list SampleDatabase) : Catalog := {|
  resolveStorageID id where_ :=
    match where_, sample_find_table dbs id with
    | ResolveGlobal, Some _ => inr id
    | _, _ => inl unknown_table
    end;
  tryResolveStorageID id where_ :=
    match where_, sample_find_table dbs id with
    | ResolveGlobal, Some _ => Some id
    | _, _ => None
    end;
  getDatabaseAndTable id :=
    match sample_find_table dbs id with
    | Some (d, t) => inr (Some d, Some t)
    | None => inl unknown_table
    end;
  tryGetDatabaseAndTable id :=
    match sample_find_table dbs id with
    | Some (d, t) => (Some d, Some t)
    | None => (None, None)
    end;
  lockForShare storage := inr storage;
  getCreateQueryForBackup storage :=
    match storage ≫= sample_table_at dbs with
    | Some create => inr create
    | None => inl (DBException TABLE_IS_DROPPED "Table is dropped")
    end;
  getDatabase database :=
    match sample_find_database dbs database with
    | Some d => inr (Some d.1.2)
    | None => inl unknown_database
    end;
  tryGetDatabase database :=
    match sample_find_database dbs database with
    | Some d => Some d.1.2
    | None => None
    end;
  getCreateDatabaseQueryForBackup database :=
    match database ≫= sample_database_at dbs with
    | Some d => inr (mkCreate d.1.1 "" false "CREATE DATABASE")
    | None => inl unknown_database
    end;
  getTablesIteratorForBackup database :=
    match database ≫= sample_database_at dbs with
    | Some d => inr (map fst d.2)
    | None => inl unknown_database
    end;
  getDatabases := map (fun d : SampleDatabase => (d.1.1, Some d.1.2)) dbs
|}.

(** A catalog without any database; one database [db1] with the tables
    [t1], [t2] and [t3]; and the latter with the definition of every table
    carrying the name [t1_new], which is what a lookup of [db1.t1] meets
    when the table has just been renamed. *)
Definition empty_catalog : Catalog := sample_catalog [].

Definition db1_catalog : Catalog :=
  sample_catalog [("db1", 1, [("t1", 11); ("t2", 12); ("t3", 13)])].

Definition renamed_catalog : Catalog := {|
  resolveStorageID := resolveStorageID db1_catalog;
  tryResolveStorageID := tryResolveStorageID db1_catalog;
  getDatabaseAndTable := getDatabaseAndTable db1_catalog;
  tryGetDatabaseAndTable := tryGetDatabaseAndTable db1_catalog;
  lockForShare := lockForShare db1_catalog;
  getCreateQueryForBackup _ := inr (mkCreate "db1" "t1_new" false "CREATE TABLE");
  getDatabase := getDatabase db1_catalog;
  tryGetDatabase := tryGetDatabase db1_catalog;
  getCreateDatabaseQueryForBackup := getCreateDatabaseQueryForBackup db1_catalog;
  getTablesIteratorForBackup := getTablesIteratorForBackup db1_catalog;
  getDatabases := getDatabases db1_catalog
|}.

(** Storages and tasks that use the collector: the storage of [db1.t1]
    adds a file and queues task 1; task 1 queues task 2; task 2 adds a
    file; task 3 queues task 4, which does nothing; task 7 queues itself
    again. *)
Definition sample_storages (storage : StoragePtr) (data_path_in_backup : string)
    (partitions : option (list AST)) : list Action :=
  match storage with
  | Some 11 =>
      [ActAddBackupEntry (data_path_in_backup // "data.bin") (BackupEntryOfStorage 11);
       ActAddPostCollectingTask 1]
  | _ => []
  end.

Definition sample_tasks (task : Task) : list Action :=
  match task with
  | 1 => [ActAddPostCollectingTask 2]
  | 2 => [ActAddBackupEntry "/finalized" (BackupEntryOfStorage 0)]
  | 3 => [ActAddPostCollectingTask 4]
  | 7 => [ActAddPostCollectingTask 7]
  | _ => []
  end.

Definition no_actions {A B C} : A -> B -> C -> list Action := fun _ _ _ => [].

(** An environment around given catalogs, clock, storages and tasks.  The
    helper of the settings resolves the host to shard 1, replica 0; nothing
    is renamed or escaped; the coordination service answers every call. *)
Definition sample_environment (catalogs : nat -> Catalog) (clock : nat -> Z)
    (storages : StoragePtr -> string -> option (list AST) -> list Action)
    (tasks : Task -> list Action) : Environment := {|
  findShardNumAndReplicaNum _ _ := inr (1, 0)%N;
  filterHostIDs hosts _ _ := concat hosts;
  makeRenamingMapFromBackupQuery _ := inr identity_renaming;
  renameDatabaseAndTableNameInCreateQuery _ create := create;
  serializeAST create := definition_text create;
  escapeForFileName file := file;
  getCurrentExceptionMessage e :=
    match e with
    | DBException _ message => message
    | ForeignException what => what
    end;
  elapsed_to_string elapsed := pretty elapsed +:+ "ns";
  coordination _ _ := None;
  elapsed_at := clock;
  catalog_at := catalogs;
  backupData := storages;
  task_body := tasks;
  unordered_iteration m := reverse (map_to_list m)
|}.

(** [db1_catalog] on every pass, with storages and tasks that do nothing,
    and with those above. *)
Definition shard_environment : Environment :=
  sample_environment (fun _ => db1_catalog) (fun pass => Z.of_nat pass) no_actions
    (fun _ => []).

Definition task_environment : Environment :=
  sample_environment (fun _ => db1_catalog) (fun pass => Z.of_nat pass) sample_storages
    sample_tasks.

(** [renamed_catalog] on every pass, pass number [i] ending [i] seconds
    after the scan began. *)
Definition restless_environment : Environment :=
  sample_environment (fun _ => renamed_catalog) (fun pass => Z.of_nat pass * 1000000000)%Z
    no_actions (fun _ => []).

(** An environment whose coordination service fails to take an error
    message, and is otherwise as the given one. *)
Definition with_failing_error_broadcast (env : Environment) : Environment := {|
  findShardNumAndReplicaNum := findShardNumAndReplicaNum env;
  filterHostIDs := filterHostIDs env;
  makeRenamingMapFromBackupQuery := makeRenamingMapFromBackupQuery env;
  renameDatabaseAndTableNameInCreateQuery := renameDatabaseAndTableNameInCreateQuery env;
  serializeAST := serializeAST env;
  escapeForFileName := escapeForFileName env;
  getCurrentExceptionMessage := getCurrentExceptionMessage env;
  elapsed_to_string := elapsed_to_string env;
  coordination t request :=
    match request with
    | SyncStageError _ _ => Some (ForeignException "connection lost")
    | _ => coordination env t request
    end;
  elapsed_at := elapsed_at env;
  catalog_at := catalog_at env;
  backupData := backupData env;
  task_body := task_body env;
  unordered_iteration := unordered_iteration env
|}.

Definition unreachable_environment : Environment :=
  with_failing_error_broadcast shard_environment.

(** Settings of a host that is no part of a cluster, and of the second of
    two hosts that are one shard each. *)
Definition local_settings : BackupSettings := mkSettings "" [] 0 0 false.

Definition shard_settings : BackupSettings :=
  mkSettings "host-b" [["host-a"]; ["host-b"]] 0 0 false.

Definition table_element (database table : string) (partitions : option (list AST)) : Element :=
  mkElement TABLE database table partitions ∅ ∅.

Definition database_element (database : string) (except : gset (string * string)) : Element :=
  mkElement DATABASE database "" None except ∅.

Definition db1_t1 : TableKey := mkTableKey (mkQualifiedTableName "db1" "t1") false.

(** The database [db1] except its table [t2]. *)
Definition db1_query : list Element := [database_element "db1" {[("db1", "t2")]}].

Definition shard_config : Config := mkConfig db1_query shard_settings (-1).
Definition local_config : Config := mkConfig db1_query local_settings (-1).

(** A table that [db1_catalog] does not have. *)
Definition failing_config : Config :=
  mkConfig [table_element "db1" "t9" None] local_settings (-1).

(** The table [db1.t1] with one selector, without a deadline and with one
    of three seconds. *)
Definition t1_query : list Element := [table_element "db1" "t1" (Some ["p1"])].

Definition patient_config : Config := mkConfig t1_query local_settings (-1).
Definition hurried_config : Config := mkConfig t1_query local_settings 3.


(** Collectors in the middle of a scan: one whose previous pass found
    [db1.t1], one that has collected [db1.t1] in the running pass. *)
Definition db1_t1_info : TableInfo :=
  mkTableInfo (Some 1) (Some 11) (Some 11) (mkCreate "db1" "t1" false "CREATE TABLE")
    "/data/db1/t1" None.

Definition after_pass_with_t1 : Collector :=
  set_previous_names (Some ∅) (Some {[db1_t1]}) new_collector.

Definition during_pass_with_t1 : Collector :=
  set_table_infos {[db1_t1 := db1_t1_info]}
    (set_previous_names (Some ∅) (Some ∅) new_collector).

(** A collector whose entries have been handed over. *)
Definition sealed_collector : Collector :=
  set_backup_entries [("/metadata/db1.sql", BackupEntryFromMemory "CREATE DATABASE")]
    (set_current_stage kWritingBackup new_collector).


(** ** Notions for the queue of tasks *)

(** The tasks a list of actions asks to queue, in order. *)
Definition tasks_added (acts : list Action) : list Task :=
  omap (fun a => match a with ActAddPostCollectingTask task => Some task | _ => None end) acts.

(** The weight of a queue for given weights of the tasks, and weights under
    which every task is heavier than the tasks it queues taken together:
    with such weights no task can keep the queue filled for ever. *)
Definition queue_weight (weight : Task -> nat) (queue : list Task) : nat :=
  list_sum (map weight queue).

Definition queues_lighter (env : Environment) (weight : Task -> nat) : Prop :=
  forall task, queue_weight weight (tasks_added (task_body env task)) < weight task.

(** [task_environment] without the task that queues itself, and weights
    for its tasks. *)
Definition nesting_environment : Environment :=
  sample_environment (fun _ => db1_catalog) (fun pass => Z.of_nat pass) sample_storages
    (fun task => if (task =? 7)%nat then [] else sample_tasks task).

Definition nesting_weight (task : Task) : nat :=
  match task with
  | 1 | 3 => 2
  | _ => 1
  end.

(** ** Notions for the partition selectors *)




(** ** Further notions the properties are stated with *)

(** A comparison that is a strict total order: irreflexive, transitive, and
    any two different values are ordered one way or the other. *)
Definition strict_total_order {A} (ltb : A -> A -> bool) : Prop :=
  (forall x, ltb x x = false)
  /\ (forall x y z, ltb x y = true -> ltb y z = true -> ltb x z = true)
  /\ (forall x y, ltb x y = true \/ x = y \/ ltb y x = true).

(** A string without a path separator in it. *)
Fixpoint no_separator (s : string) : bool :=
  match s with
  | EmptyString => true
  | String c rest => negb (Ascii.eqb c "/") && no_separator rest
  end.

(** A name a query element requires and the catalog does not know: the
    table of a table element does not resolve, the database of a database
    element is not there. *)
Definition names_unknown (c : Catalog) (element : Element) : Prop :=
  match type element with
  | TABLE =>
      exists e,
        resolveStorageID c
          (mkStorageID (database_name element) (table_name element)) ResolveGlobal = inl e
  | TEMPORARY_TABLE =>
      exists e, resolveStorageID c (mkStorageID "" (table_name element)) ResolveExternal = inl e
  | DATABASE => exists e, getDatabase c (database_name element) = inl e
  | ALL => False
  end.

(** What a scan leaves alone. *)
Definition outside_scan (s : Collector)
  : Stage * string * DDLRenamingMap * BackupEntries * list Task :=
  (current_stage s, root_path_in_backup s, renaming_map s, backup_entries s,
   post_collecting_tasks s).

(** The path under which the data of a table goes, as [collectTableInfo]
    computes it from the key. *)
Definition data_path_of (env : Environment) (s : Collector) (k : TableKey) : string :=
  if key_is_temporary k then
    root_path_in_backup s // "temporary_tables" // "data"
      // escapeForFileName env (getNewTemporaryTableName (renaming_map s) (qtn_table (key_name k)))
  else
    root_path_in_backup s // "data"
      // escapeForFileName env (qtn_database (getNewTableName (renaming_map s) (key_name k)))
      // escapeForFileName env (qtn_table (getNewTableName (renaming_map s) (key_name k))).

(** Every collected definition is the definition of what it is filed under,
    and every collected table has the data path of its key. *)
Definition definitions_match (env : Environment) (s : Collector) : Prop :=
  (forall k table_info,
     table_infos s !! k = Some table_info ->
     getTable_of (ti_create_table_query table_info) = qtn_table (key_name k)
     /\ getDatabase_of (ti_create_table_query table_info) = qtn_database (key_name k)
     /\ temporary (ti_create_table_query table_info) = key_is_temporary k
     /\ ti_data_path_in_backup table_info = data_path_of env s k)
  /\ (forall database_name database_info,
        database_infos s !! database_name = Some database_info ->
        getDatabase_of (di_create_database_query database_info) = database_name).

(** [db1_catalog] with a database that still lists a table [t4] which is
    gone. *)
Definition dropping_catalog : Catalog := {|
  resolveStorageID := resolveStorageID db1_catalog;
  tryResolveStorageID := tryResolveStorageID db1_catalog;
  getDatabaseAndTable := getDatabaseAndTable db1_catalog;
  tryGetDatabaseAndTable := tryGetDatabaseAndTable db1_catalog;
  lockForShare := lockForShare db1_catalog;
  getCreateQueryForBackup := getCreateQueryForBackup db1_catalog;
  getDatabase := getDatabase db1_catalog;
  tryGetDatabase := tryGetDatabase db1_catalog;
  getCreateDatabaseQueryForBackup := getCreateDatabaseQueryForBackup db1_catalog;
  getTablesIteratorForBackup database :=
    match getTablesIteratorForBackup db1_catalog database with
    | inr names => inr ("t4" :: names)
    | inl e => inl e
    end;
  getDatabases := getDatabases db1_catalog
|}.

Definition dropping_environment : Environment :=
  sample_environment (fun _ => dropping_catalog) (fun pass => Z.of_nat pass) no_actions
    (fun _ => []).

(** The lines a scan logs. *)
Definition scan_log (ev : Event) : Prop :=
  match ev with
  | LogCouldntCollect _ _ | LogWillBackup _ _ => True
  | _ => False
  end.

Definition all_element : Element := mkElement ALL "" "" None ∅ {["db1"]}.

(** A catalog in which [db1.t1] is defined under another name on the
    first pass and as itself from then on. *)
Definition settling_environment : Environment :=
  sample_environment
    (fun pass => match pass with 0 => renamed_catalog | _ => db1_catalog end)
    (fun pass => Z.of_nat pass) no_actions (fun _ => []).

(** The stages a trace shows to have been sent to the coordination
    service, in the order in which they were sent; an error message counts
    as the stage [kError]. *)
Definition stages_synced (t : list Event) : list Stage :=
  omap (fun ev =>
          match ev with
          | SyncStage _ stage _ _ => Some stage
          | SyncStageError _ _ => Some kError
          | _ => None
          end) t.

(** The stages of a run, in the order of [getBackupEntries]. *)
Definition stages_of_run : list Stage :=
  [kFindingTables; kExtractingDataFromTables; kRunningPostTasks; kWritingBackup].

(** A computation that sends the given stages in order, and stops sending
    where it stops. *)
Definition syncs {A} (m : M A) (stages : list Stage) : Prop :=
  forall s,
    exists n,
      stages_synced (trace (final (m s))) = stages_synced (trace s) ++ firstn n stages
      /\ (forall a s', m s = Ok a s' -> length stages <= n).

(** An action that queues no task. *)
Definition adds_no_task (a : Action) : bool :=
  match a with
  | ActAddPostCollectingTask _ => false
  | _ => true
  end.

(** A task that queues nothing, and a task that does nothing but queue
    itself again. *)
Definition quiet_task (env : Environment) (task : Task) : Prop :=
  forallb adds_no_task (task_body env task) = true.

Definition requeues_itself (env : Environment) (task : Task) : Prop :=
  task_body env task = [ActAddPostCollectingTask task].

(** The file of the definition of a table, as
    [makeBackupEntriesForTablesDefs] computes it from the key, and the
    entry it adds for a table. *)
Definition definition_path_of (env : Environment) (s : Collector) (k : TableKey) : string :=
  if key_is_temporary k then
    root_path_in_backup s // "temporary_tables" // "metadata"
      // (escapeForFileName env
            (getNewTemporaryTableName (renaming_map s) (qtn_table (key_name k))) +:+ ".sql")
  else
    root_path_in_backup s // "metadata"
      // escapeForFileName env (qtn_database (getNewTableName (renaming_map s) (key_name k)))
      // (escapeForFileName env (qtn_table (getNewTableName (renaming_map s) (key_name k)))
            +:+ ".sql").

Definition table_definition_entry (env : Environment) (s : Collector)
    (kv : TableKey * TableInfo) : string * BackupEntry :=
  (definition_path_of env s kv.1,
   BackupEntryFromMemory
     (serializeAST env
        (renameDatabaseAndTableNameInCreateQuery env (renaming_map s)
           (ti_create_table_query kv.2)))).

(** The same for a database and [makeBackupEntriesForDatabasesDefs]. *)
Definition database_definition_path_of (env : Environment) (s : Collector)
    (database_name : string) : string :=
  root_path_in_backup s // "metadata"
    // (escapeForFileName env (getNewDatabaseName (renaming_map s) database_name) +:+ ".sql").

Definition database_definition_entry (env : Environment) (s : Collector)
    (kv : string * DatabaseInfo) : string * BackupEntry :=
  (database_definition_path_of env s kv.1,
   BackupEntryFromMemory
     (serializeAST env
        (renameDatabaseAndTableNameInCreateQuery env (renaming_map s)
           (di_create_database_query kv.2)))).

(** What the scan has settled once it has returned, and what the rest of a
    run leaves alone. *)
Definition collected (s : Collector)
  : string * DDLRenamingMap * gmap string DatabaseInfo * gmap TableKey TableInfo :=
  (root_path_in_backup s, renaming_map s, database_infos s, table_infos s).

(** The tables whose data the trace shows to have been asked for. *)
Definition data_asked (t : list Event) : list TableKey :=
  omap (fun ev => match ev with LogAddingData key => Some key | _ => None end) t.

(** A timeout of 10^10 seconds: in nanoseconds it does not fit into 64
    bits. *)
Definition overflowing_config : Config := mkConfig t1_query local_settings 10000000000.

(** A hash table hands out every element it holds, once: the order of the
    environment is a permutation of the content. *)
Definition iterates_all (env : Environment) : Prop :=
  forall m, unordered_iteration env m ≡ₚ map_to_list m.
(** * Properties *)

(** ** Entries and tasks after the last stage *)

(** C6: once the stage is [kWritingBackup], [addBackupEntry] and
    [addBackupEntries] throw the logical error and leave the collector, and
    with it the list of entries, as it was. *)
Theorem add_entry_rejected_when_sealed (s : Collector) (file_name : string)
    (backup_entry : BackupEntry) (backup_entries_ : BackupEntries) :
  current_stage s = kWritingBackup ->
  addBackupEntry file_name backup_entry s
    = Throw (DBException LOGICAL_ERROR "Adding backup entries is not allowed") s
  /\ addBackupEntries backup_entries_ s
    = Throw (DBException LOGICAL_ERROR "Adding backup entries is not allowed") s
  /\ backup_entries (final (addBackupEntry file_name backup_entry s)) = backup_entries s
  /\ backup_entries (final (addBackupEntries backup_entries_ s)) = backup_entries s.
Proof.
  intros Hstage. unfold addBackupEntry, addBackupEntries.
  destruct (decide (current_stage s = kWritingBackup)) as [_ | Hne]; [| contradiction].
  repeat split; reflexivity.
Qed.

Lemma add_entry_rejected_when_sealed_witness :
  addBackupEntry "/metadata/db2.sql" (BackupEntryFromMemory "CREATE DATABASE") sealed_collector
    = Throw (DBException LOGICAL_ERROR "Adding backup entries is not allowed") sealed_collector
  /\ backup_entries
       (final (addBackupEntries [("/data/db1/t1/a.bin", BackupEntryOfStorage 0)] sealed_collector))
     = [("/metadata/db1.sql", BackupEntryFromMemory "CREATE DATABASE")].
Proof.
  destruct (add_entry_rejected_when_sealed sealed_collector "/metadata/db2.sql"
              (BackupEntryFromMemory "CREATE DATABASE")
              [("/data/db1/t1/a.bin", BackupEntryOfStorage 0)] eq_refl)
    as (H1 & _ & _ & H4).
  split; [exact H1 | exact H4].
Defined.

(** C10: [kWritingBackup] is the one stage in which [addBackupEntry],
    [addBackupEntries] and [addPostCollectingTask] throw.  In every other
    stage, [kError] among them, each of them returns and has appended to the
    entries or to the queue; and a collector that [getBackupEntries] left by
    an exception is in the stage [kError], where they still do. *)
Theorem add_rejected_only_when_sealed (env : Environment) (cfg : Config) (s : Collector)
    (file_name : string) (backup_entry : BackupEntry) (backup_entries_ : BackupEntries)
    (task : Task) :
  ((current_stage s = kWritingBackup
    /\ addBackupEntry file_name backup_entry s
       = Throw (DBException LOGICAL_ERROR "Adding backup entries is not allowed") s
    /\ addBackupEntries backup_entries_ s
       = Throw (DBException LOGICAL_ERROR "Adding backup entries is not allowed") s
    /\ addPostCollectingTask task s
       = Throw (DBException LOGICAL_ERROR "Adding post tasks is not allowed") s)
   \/
   (current_stage s <> kWritingBackup
    /\ addBackupEntry file_name backup_entry s
       = Ok tt (set_backup_entries (backup_entries s ++ [(file_name, backup_entry)]) s)
    /\ addBackupEntries backup_entries_ s
       = Ok tt (set_backup_entries (backup_entries s ++ backup_entries_) s)
    /\ addPostCollectingTask task s
       = Ok tt (emit (TaskEnqueued task)
                  (set_post_collecting_tasks (post_collecting_tasks s ++ [task]) s))))
  /\ (forall scan_fuel drain_fuel s0 e,
        getBackupEntries env cfg scan_fuel drain_fuel s0 = Throw e s ->
        current_stage s = kError
        /\ backup_entries (final (addBackupEntry file_name backup_entry s))
           = backup_entries s ++ [(file_name, backup_entry)]
        /\ backup_entries (final (addBackupEntries backup_entries_ s))
           = backup_entries s ++ backup_entries_
        /\ post_collecting_tasks (final (addPostCollectingTask task s))
           = post_collecting_tasks s ++ [task]).
Proof.
  split.
  - unfold addBackupEntry, addBackupEntries, addPostCollectingTask.
    destruct (decide (current_stage s = kWritingBackup)) as [Heq | Hne].
    + left. repeat split; try assumption; reflexivity.
    + right. repeat split; assumption.
  - intros scan_fuel drain_fuel s0 e Hrun.
    assert (Hstage : current_stage s = kError).
    { unfold getBackupEntries in Hrun.
      destruct (getBackupEntries_try env cfg scan_fuel drain_fuel s0) as [? ? | e1 s1 | ?];
        try discriminate.
      injection Hrun as _ <-.
      unfold setStage. simpl.
      destruct (coordination env _ _); reflexivity. }
    unfold addBackupEntry, addBackupEntries, addPostCollectingTask.
    rewrite Hstage.
    destruct (decide (kError = kWritingBackup)) as [Hbad | _]; [discriminate |].
    repeat split; reflexivity.
Qed.

Lemma add_rejected_only_when_sealed_witness :
  let s := final (getBackupEntries shard_environment failing_config 3 3 new_collector) in
  current_stage s = kError
  /\ backup_entries
       (final (addBackupEntry "/data/db1/t1/a.bin" (BackupEntryOfStorage 0) s))
     = backup_entries s ++ [("/data/db1/t1/a.bin", BackupEntryOfStorage 0)].
Proof.
  intros s.
  destruct (add_rejected_only_when_sealed shard_environment failing_config s
              "/data/db1/t1/a.bin" (BackupEntryOfStorage 0) [] 0) as [_ H].
  destruct (H 3 3 new_collector unknown_table) as (Hstage & Hadd & _).
  - vm_compute. reflexivity.
  - split; assumption.
Defined.

(** ** The root path *)

(** C3: the root path [calculateRootPathInBackup] stores.  For a host that
    is no part of a cluster it is ["/"], not the empty string; for the host
    that resolves to shard 1, replica 0 it is ["/shards/1/replicas/0"], and
    the entries of a run are named under ["/shards/1/replicas/0/"]: none of
    them begins with ["shards/1/replicas/0/"]. *)
Theorem root_path_starts_with_separator :
  root_path_in_backup (final (calculateRootPathInBackup shard_environment local_config new_collector))
    = "/"
  /\ root_path_in_backup
       (final (calculateRootPathInBackup shard_environment shard_config new_collector))
     = "/shards/1/replicas/0"
  /\ entry_names (getBackupEntries shard_environment shard_config 2 0 new_collector)
     = ["/shards/1/replicas/0/metadata/db1.sql";
        "/shards/1/replicas/0/metadata/db1/t1.sql";
        "/shards/1/replicas/0/metadata/db1/t3.sql"]
  /\ forallb (fun file_name => negb (String.prefix "shards/1/replicas/0/" file_name))
       (entry_names (getBackupEntries shard_environment shard_config 2 0 new_collector))
     = true.
Proof. repeat split; vm_compute; reflexivity. Qed.

(** The same without a sample: what the function stores for any settings. *)
Lemma calculateRootPathInBackup_local (env : Environment) (cfg : Config) (s : Collector) :
  host_id (backup_settings cfg) = "" ->
  calculateRootPathInBackup env cfg s
    = Ok tt (emit (LogRootPath "/") (set_root_path_in_backup "/" s)).
Proof. intros Hhost. unfold calculateRootPathInBackup. rewrite Hhost. reflexivity. Qed.

(** ** The pipeline and its stages *)

Lemma bind_Ok {A B} (m : M A) (k : A -> M B) (s s' : Collector) (b : B) :
  bind m k s = Ok b s' -> exists a s1, m s = Ok a s1 /\ k a s1 = Ok b s'.
Proof.
  unfold bind. destruct (m s) as [a s1 | e s1 | s1]; try discriminate. eauto.
Qed.

Lemma setStage_kError_final (env : Environment) (cfg : Config) (message : string)
    (s : Collector) :
  final (setStage env cfg kError message s) = error_stage cfg message s.
Proof.
  unfold setStage, error_stage. simpl.
  destruct (coordination env _ _); reflexivity.
Qed.

Lemma setStage_Ok_stage (env : Environment) (cfg : Config) (new_stage : Stage)
    (message : string) (s s' : Collector) :
  setStage env cfg new_stage message s = Ok tt s' -> current_stage s' = new_stage.
Proof.
  unfold setStage. destruct (coordination env _ _); [discriminate |].
  intros [= <-]. reflexivity.
Qed.

(** A run that returned its entries went through the whole [try] block and
    ended in the stage [kWritingBackup]. *)
Lemma getBackupEntries_Ok (env : Environment) (cfg : Config) (scan_fuel drain_fuel : nat)
    (s s' : Collector) (entries : BackupEntries) :
  getBackupEntries env cfg scan_fuel drain_fuel s = Ok entries s' ->
  getBackupEntries_try env cfg scan_fuel drain_fuel s = Ok entries s'
  /\ current_stage s' = kWritingBackup.
Proof.
  unfold getBackupEntries.
  destruct (getBackupEntries_try env cfg scan_fuel drain_fuel s) as [a s1 | e s1 | s1] eqn:Htry;
    try discriminate.
  intros [= -> ->]. split; [reflexivity |].
  unfold getBackupEntries_try in Htry.
  do 12 (apply bind_Ok in Htry; destruct Htry as (? & ? & _ & Htry)).
  apply bind_Ok in Htry. destruct Htry as ([] & s2 & Hseal & Hmove).
  injection Hmove as _ <-.
  apply setStage_Ok_stage in Hseal. exact Hseal.
Qed.

(** A run that ended by an exception ended in the stage [kError]. *)
Lemma getBackupEntries_Throw (env : Environment) (cfg : Config) (scan_fuel drain_fuel : nat)
    (s s' : Collector) (e : Exception) :
  getBackupEntries env cfg scan_fuel drain_fuel s = Throw e s' ->
  exists s1,
    getBackupEntries_try env cfg scan_fuel drain_fuel s = Throw e s1
    /\ s' = error_stage cfg (getCurrentExceptionMessage env e) s1.
Proof.
  unfold getBackupEntries.
  destruct (getBackupEntries_try env cfg scan_fuel drain_fuel s) as [a s1 | e1 s1 | s1];
    try discriminate.
  intros [= -> <-]. exists s1. split; [reflexivity |].
  apply setStage_kError_final.
Qed.

(** The [catch (...)] of [getBackupEntries] at work. *)
Lemma getBackupEntries_rethrows (env : Environment) (cfg : Config)
    (scan_fuel drain_fuel : nat) (s s1 : Collector) (e : Exception) :
  getBackupEntries_try env cfg scan_fuel drain_fuel s = Throw e s1 ->
  getBackupEntries env cfg scan_fuel drain_fuel s
    = Throw e (error_stage cfg (getCurrentExceptionMessage env e) s1).
Proof.
  intros Htry. unfold getBackupEntries. rewrite Htry. f_equal. apply setStage_kError_final.
Qed.

(** C5: when anything inside [getBackupEntries] throws, the collector is
    put into the stage [kError] and the message of the exception is sent
    with [syncStageError], the call that does not wait for the other hosts;
    whether that call returns or throws makes no difference; the exception
    that was caught is the one the caller gets, and no list of entries is
    returned: entries are returned only by a run in which nothing threw. *)
Theorem exception_reported_and_rethrown (env : Environment) (cfg : Config)
    (scan_fuel drain_fuel : nat) (s s1 : Collector) (e : Exception) :
  getBackupEntries_try env cfg scan_fuel drain_fuel s = Throw e s1 ->
  let message := getCurrentExceptionMessage env e in
  getBackupEntries env cfg scan_fuel drain_fuel s = Throw e (error_stage cfg message s1)
  /\ final (setStage env cfg kError message s1) = error_stage cfg message s1
  /\ current_stage (error_stage cfg message s1) = kError
  /\ trace (error_stage cfg message s1)
     = trace s1 ++ [LogStageFailed (current_stage s1) message;
                    SyncStageError (host_id (backup_settings cfg)) message]
  /\ backup_entries (error_stage cfg message s1) = backup_entries s1
  /\ (forall entries s', getBackupEntries env cfg scan_fuel drain_fuel s <> Ok entries s').
Proof.
  intros Htry message.
  assert (Hrun : getBackupEntries env cfg scan_fuel drain_fuel s
                 = Throw e (error_stage cfg message s1)).
  { apply getBackupEntries_rethrows. exact Htry. }
  split; [exact Hrun |].
  split; [apply setStage_kError_final |].
  split; [reflexivity |].
  split; [unfold error_stage; simpl; rewrite <- app_assoc; reflexivity |].
  split; [reflexivity |].
  intros entries s'. rewrite Hrun. discriminate.
Qed.

Lemma exception_reported_and_rethrown_witness :
  exists s1,
    getBackupEntries unreachable_environment failing_config 3 3 new_collector
      = Throw unknown_table (error_stage failing_config "Table doesn't exist" s1)
    /\ setStage unreachable_environment failing_config kError "Table doesn't exist" s1
       = Throw (ForeignException "connection lost")
           (error_stage failing_config "Table doesn't exist" s1).
Proof.
  exists (final (getBackupEntries_try unreachable_environment failing_config 3 3 new_collector)).
  split.
  - apply (exception_reported_and_rethrown unreachable_environment failing_config 3 3
             new_collector _ unknown_table).
    vm_compute. reflexivity.
  - vm_compute. reflexivity.
Defined.

(** C7: after one call of [getBackupEntries] has come back, with entries or
    with an exception, every further call throws the logical error
    "Already making backup entries".  It throws at the first statement: of
    the collector only the stage and the trace change, by the report of the
    error. *)
Theorem second_getBackupEntries_rejected (env : Environment) (cfg : Config)
    (scan_fuel drain_fuel scan_fuel' drain_fuel' : nat) (s : Collector) :
  finished (getBackupEntries env cfg scan_fuel drain_fuel s) = true ->
  let s1 := final (getBackupEntries env cfg scan_fuel drain_fuel s) in
  let e := DBException LOGICAL_ERROR "Already making backup entries" in
  getBackupEntries_try env cfg scan_fuel' drain_fuel' s1 = Throw e s1
  /\ getBackupEntries env cfg scan_fuel' drain_fuel' s1
     = Throw e (error_stage cfg (getCurrentExceptionMessage env e) s1).
Proof.
  intros Hfinished s1 e.
  assert (Hstage : current_stage s1 <> kPreparing).
  { subst s1.
    destruct (getBackupEntries env cfg scan_fuel drain_fuel s) as [a s2 | e2 s2 | s2] eqn:Hrun;
      try discriminate; simpl.
    - apply getBackupEntries_Ok in Hrun. destruct Hrun as [_ ->]. discriminate.
    - apply getBackupEntries_Throw in Hrun. destruct Hrun as (s3 & _ & ->). discriminate. }
  assert (Htry : getBackupEntries_try env cfg scan_fuel' drain_fuel' s1 = Throw e s1).
  { unfold getBackupEntries_try, bind.
    destruct (decide (current_stage s1 = kPreparing)) as [Heq | _]; [contradiction |].
    reflexivity. }
  split; [exact Htry |].
  apply getBackupEntries_rethrows. exact Htry.
Qed.

Lemma second_getBackupEntries_rejected_witness :
  (let s1 := final (getBackupEntries shard_environment shard_config 2 0 new_collector) in
   current_stage s1 = kWritingBackup
   /\ getBackupEntries shard_environment shard_config 2 0 s1
      = Throw (DBException LOGICAL_ERROR "Already making backup entries")
          (error_stage shard_config "Already making backup entries" s1))
  /\ (let s1 := final (getBackupEntries shard_environment failing_config 2 0 new_collector) in
      current_stage s1 = kError
      /\ getBackupEntries shard_environment failing_config 2 0 s1
         = Throw (DBException LOGICAL_ERROR "Already making backup entries")
             (error_stage failing_config "Already making backup entries" s1)).
Proof.
  split; intros s1; (split; [vm_compute; reflexivity |]).
  - apply (second_getBackupEntries_rejected shard_environment shard_config 2 0 2 0
             new_collector).
    vm_compute. reflexivity.
  - apply (second_getBackupEntries_rejected shard_environment failing_config 2 0 2 0
             new_collector).
    vm_compute. reflexivity.
Defined.

(** ** The queue of post-collecting tasks *)

Lemma tasks_enqueued_app (t1 t2 : list Event) :
  tasks_enqueued (t1 ++ t2) = tasks_enqueued t1 ++ tasks_enqueued t2.
Proof. apply omap_app. Qed.

Lemma tasks_run_app (t1 t2 : list Event) :
  tasks_run (t1 ++ t2) = tasks_run t1 ++ tasks_run t2.
Proof. apply omap_app. Qed.

Lemma run_action_queue_in_order (a : Action) (s : Collector) :
  queue_in_order s -> queue_in_order (final (run_action a s)).
Proof.
  unfold queue_in_order. intros Hs.
  destruct a as [file_name backup_entry | backup_entries_ | task | e]; simpl;
    unfold addBackupEntry, addBackupEntries, addPostCollectingTask, throw;
    try (destruct (decide (current_stage s = kWritingBackup)); simpl); try exact Hs.
  rewrite tasks_enqueued_app, tasks_run_app, Hs. simpl.
  rewrite app_nil_r, app_assoc. reflexivity.
Qed.

Lemma run_actions_queue_in_order (acts : list Action) (s : Collector) :
  queue_in_order s -> queue_in_order (final (run_actions acts s)).
Proof.
  revert s. induction acts as [| a rest IH]; intros s Hs; simpl; [exact Hs |].
  unfold bind. pose proof (run_action_queue_in_order a s Hs) as Ha.
  destruct (run_action a s) as [[] s1 | e s1 | s1]; simpl in *; auto.
Qed.

Lemma runPostCollectingTasks_queue_in_order (env : Environment) (fuel : nat) (s : Collector) :
  queue_in_order s -> queue_in_order (final (runPostCollectingTasks env fuel s)).
Proof.
  revert s. induction fuel as [| fuel IH]; intros s Hs; simpl.
  - destruct (post_collecting_tasks s); exact Hs.
  - destruct (post_collecting_tasks s) as [| task rest] eqn:Hqueue; [exact Hs |].
    assert (Hpop : queue_in_order (emit (TaskRun task) (set_post_collecting_tasks rest s))).
    { unfold queue_in_order in *. simpl.
      rewrite tasks_enqueued_app, tasks_run_app, Hs, Hqueue. simpl.
      rewrite app_nil_r, <- app_assoc. reflexivity. }
    pose proof (run_actions_queue_in_order (task_body env task) _ Hpop) as Hbody.
    destruct (run_actions (task_body env task) _) as [[] s2 | e s2 | s2]; simpl in *; auto.
Qed.

Lemma runPostCollectingTasks_Ok_empty (env : Environment) (fuel : nat) (s s' : Collector) :
  runPostCollectingTasks env fuel s = Ok tt s' -> post_collecting_tasks s' = [].
Proof.
  revert s. induction fuel as [| fuel IH]; intros s; simpl.
  - destruct (post_collecting_tasks s) eqn:Hqueue; [| discriminate].
    intros [= <-]. exact Hqueue.
  - destruct (post_collecting_tasks s) as [| task rest] eqn:Hqueue.
    + intros [= <-]. exact Hqueue.
    + destruct (run_actions (task_body env task) _) as [[] s2 | e s2 | s2]; try discriminate.
      apply IH.
Qed.

(** The actions of a collaborator always come to an end. *)
Lemma run_actions_finished (acts : list Action) (s : Collector) :
  finished (run_actions acts s) = true.
Proof.
  revert s. induction acts as [| a acts IH]; intros s; [reflexivity |].
  cbn [run_actions]. unfold bind.
  destruct (run_action a s) as [[] s1 | e s1 | s1] eqn:Hact; [apply IH | reflexivity |].
  destruct a; simpl in Hact;
    unfold addBackupEntry, addBackupEntries, addPostCollectingTask, throw in Hact;
    try destruct (decide _); discriminate.
Qed.

(** What the actions of a collaborator do to the queue: they run no task,
    and the tasks they queue, the first of those they ask for, go to the
    back of the queue. *)
Lemma run_actions_queue (acts : list Action) (s : Collector) :
  exists added refused,
    tasks_added acts = added ++ refused
    /\ tasks_run (trace (final (run_actions acts s))) = tasks_run (trace s)
    /\ tasks_enqueued (trace (final (run_actions acts s))) = tasks_enqueued (trace s) ++ added
    /\ post_collecting_tasks (final (run_actions acts s)) = post_collecting_tasks s ++ added.
Proof.
  revert s. induction acts as [| a acts IH]; intros s.
  - exists [], []. simpl. rewrite !app_nil_r. auto.
  - cbn [run_actions]. unfold bind.
    assert (Hquiet : forall s1 : Collector,
               tasks_run (trace s1) = tasks_run (trace s) ->
               tasks_enqueued (trace s1) = tasks_enqueued (trace s) ->
               post_collecting_tasks s1 = post_collecting_tasks s ->
               exists added refused,
                 tasks_added (a :: acts) = added ++ refused
                 /\ tasks_run (trace s1) = tasks_run (trace s)
                 /\ tasks_enqueued (trace s1) = tasks_enqueued (trace s) ++ added
                 /\ post_collecting_tasks s1 = post_collecting_tasks s ++ added).
    { intros s1 Hrun Henqueued Hqueue. exists [], (tasks_added (a :: acts)).
      rewrite !app_nil_r. auto. }
    assert (Hnext : forall s1 : Collector,
               tasks_added (a :: acts) = tasks_added acts ->
               tasks_run (trace s1) = tasks_run (trace s) ->
               tasks_enqueued (trace s1) = tasks_enqueued (trace s) ->
               post_collecting_tasks s1 = post_collecting_tasks s ->
               exists added refused,
                 tasks_added (a :: acts) = added ++ refused
                 /\ tasks_run (trace (final (run_actions acts s1))) = tasks_run (trace s)
                 /\ tasks_enqueued (trace (final (run_actions acts s1)))
                    = tasks_enqueued (trace s) ++ added
                 /\ post_collecting_tasks (final (run_actions acts s1))
                    = post_collecting_tasks s ++ added).
    { intros s1 Hsame Hrun Henqueued Hqueue.
      destruct (IH s1) as (added & refused & Hadded & Hrun1 & Henqueued1 & Hqueue1).
      exists added, refused. rewrite Hsame, Hrun1, Henqueued1, Hqueue1.
      repeat split; congruence. }
    destruct a as [file_name backup_entry | entries | task | e]; simpl run_action.
    + unfold addBackupEntry. destruct (decide (current_stage s = kWritingBackup)).
      * apply Hquiet; reflexivity.
      * apply Hnext; reflexivity.
    + unfold addBackupEntries. destruct (decide (current_stage s = kWritingBackup)).
      * apply Hquiet; reflexivity.
      * apply Hnext; reflexivity.
    + unfold addPostCollectingTask. destruct (decide (current_stage s = kWritingBackup)).
      * apply Hquiet; reflexivity.
      * destruct (IH (emit (TaskEnqueued task)
                        (set_post_collecting_tasks (post_collecting_tasks s ++ [task]) s)))
          as (added & refused & Hadded & Hrun1 & Henqueued1 & Hqueue1).
        exists (task :: added), refused.
        rewrite Hrun1, Henqueued1, Hqueue1. simpl.
        rewrite tasks_run_app, tasks_enqueued_app. simpl.
        rewrite app_nil_r, <- !app_assoc. simpl.
        split; [| auto]. change (tasks_added (ActAddPostCollectingTask task :: acts))
          with (task :: tasks_added acts). rewrite Hadded. reflexivity.
    + apply Hquiet; reflexivity.
Qed.

(** The drain, whatever the tasks do: it runs the tasks from the front of
    the queue, one for each step it makes, and what is queued meanwhile
    goes to the back. *)
Lemma runPostCollectingTasks_fifo (env : Environment) (fuel : nat) (s : Collector) :
  exists ran added,
    tasks_run (trace (final (runPostCollectingTasks env fuel s))) = tasks_run (trace s) ++ ran
    /\ tasks_enqueued (trace (final (runPostCollectingTasks env fuel s)))
       = tasks_enqueued (trace s) ++ added
    /\ post_collecting_tasks s ++ added
       = ran ++ post_collecting_tasks (final (runPostCollectingTasks env fuel s))
    /\ match runPostCollectingTasks env fuel s with
       | Ok _ s' => post_collecting_tasks s' = []
       | Throw _ _ => ran <> []
       | OutOfFuel s' => length ran = fuel /\ post_collecting_tasks s' <> []
       end.
Proof.
  revert s. induction fuel as [| fuel IH]; intros s; simpl.
  - destruct (post_collecting_tasks s) as [| task rest] eqn:Hqueue; simpl;
      exists [], []; rewrite ?app_nil_r, Hqueue; repeat split; auto; discriminate.
  - destruct (post_collecting_tasks s) as [| task rest] eqn:Hqueue; simpl.
    { exists [], []. rewrite !app_nil_r, Hqueue. auto. }
    set (s1 := emit (TaskRun task) (set_post_collecting_tasks rest s)).
    destruct (run_actions_queue (task_body env task) s1)
      as (added1 & refused & _ & Hrun1 & Henqueued1 & Hqueue1).
    assert (Hpopped : tasks_run (trace s1) = tasks_run (trace s) ++ [task]
                      /\ tasks_enqueued (trace s1) = tasks_enqueued (trace s)
                      /\ post_collecting_tasks s1 = rest).
    { subst s1. simpl. rewrite tasks_run_app, tasks_enqueued_app. simpl.
      rewrite app_nil_r. auto. }
    destruct Hpopped as (Hrun0 & Henqueued0 & Hqueue0).
    rewrite Hrun0 in Hrun1. rewrite Henqueued0 in Henqueued1. rewrite Hqueue0 in Hqueue1.
    pose proof (run_actions_finished (task_body env task) s1) as Hfinished.
    destruct (run_actions (task_body env task) s1) as [[] s2 | e s2 | s2];
      simpl in Hrun1, Henqueued1, Hqueue1; [| | discriminate Hfinished].
    + destruct (IH s2) as (ran2 & added2 & Hrun2 & Henqueued2 & Hqueue2 & Houtcome).
      exists (task :: ran2), (added1 ++ added2).
      rewrite Hrun2, Henqueued2, Hrun1, Henqueued1, <- !app_assoc.
      split; [reflexivity |]. split; [reflexivity |]. split.
      * simpl. rewrite <- Hqueue2, Hqueue1, <- app_assoc. reflexivity.
      * destruct (runPostCollectingTasks env fuel s2); simpl in *; auto.
        destruct Houtcome as [Hlength Hleft]. auto.
    + exists [task], added1. simpl. rewrite Hrun1, Henqueued1, Hqueue1.
      repeat split; auto; discriminate.
Qed.

Lemma queue_weight_app (weight : Task -> nat) (l1 l2 : list Task) :
  queue_weight weight (l1 ++ l2) = queue_weight weight l1 + queue_weight weight l2.
Proof. unfold queue_weight. rewrite map_app, list_sum_app. reflexivity. Qed.

(** The drain comes to an end when the tasks have weights under which each
    is heavier than all it queues: the weight of the queue bounds the
    number of steps. *)
Lemma runPostCollectingTasks_ends (env : Environment) (weight : Task -> nat) :
  queues_lighter env weight ->
  forall fuel s,
    queue_weight weight (post_collecting_tasks s) <= fuel ->
    finished (runPostCollectingTasks env fuel s) = true.
Proof.
  intros Hlighter. induction fuel as [| fuel IH]; intros s Hfuel; simpl.
  - destruct (post_collecting_tasks s) as [| task rest]; [reflexivity |].
    pose proof (Hlighter task) as Hpositive.
    change (queue_weight weight (task :: rest))
      with (weight task + queue_weight weight rest) in Hfuel. lia.
  - destruct (post_collecting_tasks s) as [| task rest] eqn:Hqueue; [reflexivity |].
    set (s1 := emit (TaskRun task) (set_post_collecting_tasks rest s)).
    destruct (run_actions_queue (task_body env task) s1)
      as (added & refused & Hasked & _ & _ & Hqueue1).
    pose proof (run_actions_finished (task_body env task) s1) as Hfinished.
    destruct (run_actions (task_body env task) s1) as [[] s2 | e s2 | s2];
      [| reflexivity | discriminate Hfinished].
    apply IH. simpl in Hqueue1. rewrite Hqueue1. subst s1. simpl.
    pose proof (Hlighter task) as Hlight. rewrite Hasked in Hlight.
    rewrite queue_weight_app in *.
    change (queue_weight weight (task :: rest))
      with (weight task + queue_weight weight rest) in Hfuel. lia.
Qed.


(** ** The scan: what a pass touches and what it reads *)

(** A pass changes [database_infos], [table_infos] and [consistent] and
    nothing else: two collectors that differ in these fields at most are
    the same once a pass has begun. *)
Section Frame.

Context (env : Environment) (c : Catalog).

Lemma collectTableInfo_frame table_name is_temporary_table partitions throw_if_not_found s :
  begin_pass
    (final (collectTableInfo env c table_name is_temporary_table partitions
              throw_if_not_found s))
  = begin_pass s.
Proof.
  unfold collectTableInfo.
  destruct (gather_table c table_name is_temporary_table throw_if_not_found)
    as [e | [[[database storage] table_lock] [create |]]]; simpl; try reflexivity.
  repeat match goal with
         | |- context [if ?b then _ else _] => destruct b; simpl; try reflexivity
         end.
Qed.

Lemma collectTablesOf_frame database_name except_table_names names s :
  begin_pass (final (collectTablesOf env c database_name except_table_names names s))
  = begin_pass s.
Proof.
  revert s. induction names as [| table rest IH]; intros s; simpl; [reflexivity |].
  destruct (bool_decide _); [apply IH |].
  pose proof (collectTableInfo_frame (mkQualifiedTableName database_name table)
                false None false s) as Hstep.
  destruct (collectTableInfo env c _ false None false s) as [[] s1 | e s1 | s1];
    simpl in *; try exact Hstep.
  destruct (consistent s1); simpl; [rewrite IH |]; exact Hstep.
Qed.

Lemma collectDatabaseInfo_frame database_name except_table_names throw_if_not_found s :
  begin_pass
    (final (collectDatabaseInfo env c database_name except_table_names throw_if_not_found s))
  = begin_pass s.
Proof.
  unfold collectDatabaseInfo.
  destruct (gather_database c database_name throw_if_not_found)
    as [e | [[database create] |]]; simpl; try reflexivity.
  destruct (negb (String.eqb _ _)); simpl; [reflexivity |].
  match goal with
  | |- context [if ?b then _ else _] => destruct b; simpl; [reflexivity |]
  end.
  destruct (getTablesIteratorForBackup c database) as [e | names]; simpl; [reflexivity |].
  rewrite collectTablesOf_frame. reflexivity.
Qed.

Lemma collectAllDatabasesInfo_loop_frame except_database_names except_table_names dbs s :
  begin_pass
    (final (collectAllDatabasesInfo_loop env c except_database_names except_table_names dbs s))
  = begin_pass s.
Proof.
  revert s. induction dbs as [| [database_name database] rest IH]; intros s; simpl;
    [reflexivity |].
  destruct (bool_decide _); [apply IH |].
  pose proof (collectDatabaseInfo_frame database_name except_table_names false s) as Hstep.
  destruct (collectDatabaseInfo env c database_name except_table_names false s)
    as [[] s1 | e s1 | s1]; simpl in *; try exact Hstep.
  destruct (consistent s1); simpl; [rewrite IH |]; exact Hstep.
Qed.

Lemma collectElement_frame element s :
  begin_pass (final (collectElement env c element s)) = begin_pass s.
Proof.
  unfold collectElement, collectAllDatabasesInfo.
  destruct (type element).
  - apply collectTableInfo_frame.
  - apply collectTableInfo_frame.
  - apply collectDatabaseInfo_frame.
  - apply collectAllDatabasesInfo_loop_frame.
Qed.

Lemma collectElements_frame elements s :
  begin_pass (final (collectElements env c elements s)) = begin_pass s.
Proof.
  revert s. induction elements as [| element rest IH]; intros s; simpl; [reflexivity |].
  unfold bind. pose proof (collectElement_frame element s) as Hstep.
  destruct (collectElement env c element s) as [[] s1 | e s1 | s1]; simpl in *;
    try exact Hstep.
  rewrite IH. exact Hstep.
Qed.






End Frame.

(** ** The queue during a whole run *)

Lemma queue_in_order_view (s s' : Collector) :
  task_view s' = task_view s -> queue_in_order s -> queue_in_order s'.
Proof.
  unfold task_view, queue_in_order. intros [= Henqueued Hrun Hqueue].
  rewrite Henqueued, Hrun, Hqueue. auto.
Qed.

Lemma task_view_emit (ev : Event) (s : Collector) :
  match ev with
  | TaskEnqueued _ | TaskRun _ => False
  | _ => True
  end ->
  task_view (emit ev s) = task_view s.
Proof.
  unfold task_view. simpl. rewrite tasks_enqueued_app, tasks_run_app.
  destruct ev; simpl; try contradiction; rewrite !app_nil_r; reflexivity.
Qed.

Ltac solve_task_view :=
  unfold task_view; simpl; rewrite ?tasks_enqueued_app, ?tasks_run_app; simpl;
  rewrite ?app_nil_r; reflexivity.

Lemma setStage_task_view (env : Environment) (cfg : Config) (new_stage : Stage)
    (message : string) (s : Collector) :
  task_view (final (setStage env cfg new_stage message s)) = task_view s.
Proof.
  unfold setStage.
  destruct (decide (new_stage = kError)); destruct (coordination env _ _); solve_task_view.
Qed.

Lemma calculateRootPathInBackup_task_view (env : Environment) (cfg : Config) (s : Collector) :
  task_view (final (calculateRootPathInBackup env cfg s)) = task_view s.
Proof.
  unfold calculateRootPathInBackup.
  destruct (String.eqb _ _); [solve_task_view |].
  destruct (findShardNumAndReplicaNum env _ _) as [e | [shard replica]]; solve_task_view.
Qed.

Lemma scan_loop_task_view (env : Environment) (cfg : Config) (fuel pass : nat) (s : Collector) :
  task_view (final (scan_loop env cfg fuel pass s)) = task_view s.
Proof.
  revert pass s. induction fuel as [| fuel IH]; intros pass s; cbn [scan_loop];
    [reflexivity |].
  assert (Hpass : task_view (final (scan_pass env cfg pass s)) = task_view s).
  { unfold scan_pass.
    pose proof (collectElements_frame env (catalog_at env pass) (backup_query_elements cfg)
                  (begin_pass s)) as Hframe.
    apply (f_equal task_view) in Hframe.
    change (task_view (begin_pass (begin_pass s))) with (task_view s) in Hframe.
    destruct (collectElements env _ _ (begin_pass s)) as [[] s1 | e s1 | s1];
      simpl in *; try exact Hframe.
    rewrite <- Hframe. unfold checkConsistency.
    repeat match goal with
           | |- context [if ?b then _ else _] => destruct b; try reflexivity
           end. }
  destruct (scan_pass env cfg pass s) as [[] s1 | e s1 | s1]; simpl in Hpass;
    try exact Hpass.
  match goal with
  | |- context [if ?b then Throw _ _ else _] => destruct b; [exact Hpass |]
  end.
  assert (Hlogged : forall b : bool,
             task_view (if b then emit (LogCouldntCollect pass (elapsed_at env pass)) s1
                        else s1) = task_view s).
  { intros [|]; [rewrite task_view_emit by exact I |]; exact Hpass. }
  match goal with
  | |- context [consistent ?s2] => destruct (consistent s2); [apply Hlogged |]
  end.
  rewrite IH. apply Hlogged.
Qed.

Lemma collectDatabasesAndTablesInfo_task_view (env : Environment) (cfg : Config)
    (fuel : nat) (s : Collector) :
  task_view (final (collectDatabasesAndTablesInfo env cfg fuel s)) = task_view s.
Proof.
  unfold collectDatabasesAndTablesInfo, bind.
  pose proof (scan_loop_task_view env cfg fuel 0 s) as Hloop.
  destruct (scan_loop env cfg fuel 0 s) as [n s1 | e s1 | s1]; simpl in *; try exact Hloop.
  rewrite task_view_emit by exact I. exact Hloop.
Qed.

Lemma makeBackupEntriesForDatabasesDefs_task_view (env : Environment) dbs (s : Collector) :
  task_view (makeBackupEntriesForDatabasesDefs_loop env dbs s) = task_view s.
Proof.
  revert s. induction dbs as [| [database_name database_info] rest IH]; intros s; simpl;
    [reflexivity |].
  rewrite IH. apply (task_view_emit (LogAddingDatabase _)). exact I.
Qed.

Lemma makeBackupEntriesForTablesDefs_task_view (env : Environment) tables (s : Collector) :
  task_view (makeBackupEntriesForTablesDefs_loop env tables s) = task_view s.
Proof.
  revert s. induction tables as [| [key table_info] rest IH]; intros s; simpl;
    [reflexivity |].
  rewrite IH. apply (task_view_emit (LogAddingTable _)). exact I.
Qed.

Lemma makeBackupEntriesForTablesData_queue_in_order (env : Environment) (cfg : Config)
    (s : Collector) :
  queue_in_order s ->
  queue_in_order (final (makeBackupEntriesForTablesData env cfg s)).
Proof.
  unfold makeBackupEntriesForTablesData.
  destruct (structure_only _); [auto |].
  generalize (in_key_order (table_infos s)). intros tables. revert s.
  induction tables as [| [key table_info] rest IH]; intros s Hs; simpl; [exact Hs |].
  unfold bind, modify.
  assert (Hlogged : queue_in_order (emit (LogAddingData key) s)).
  { apply (queue_in_order_view s); [apply task_view_emit; exact I | exact Hs]. }
  pose proof (run_actions_queue_in_order
                (backupData env (ti_storage table_info) (ti_data_path_in_backup table_info)
                   (ti_partitions table_info)) _ Hlogged) as Hdata.
  destruct (run_actions _ (emit (LogAddingData key) s)) as [[] s1 | e s1 | s1];
    simpl in *; auto.
Qed.

Lemma queue_in_order_step {A} (m : M A) (s s' : Collector) (a : A) :
  (forall s0, task_view (final (m s0)) = task_view s0) ->
  m s = Ok a s' ->
  queue_in_order s ->
  queue_in_order s'.
Proof.
  intros Hview Hrun Hs. apply (queue_in_order_view s); [| exact Hs].
  rewrite <- (Hview s), Hrun. reflexivity.
Qed.

(** A run that returns its entries has, before it enters the last stage,
    run every task that was queued, in the order of queuing. *)
Lemma getBackupEntries_drains (env : Environment) (cfg : Config)
    (scan_fuel drain_fuel : nat) (s s' : Collector) (entries : BackupEntries) :
  queue_in_order s ->
  getBackupEntries env cfg scan_fuel drain_fuel s = Ok entries s' ->
  exists before,
    trace s'
    = before ++ [LogStage kWritingBackup;
                 SyncStage (host_id (backup_settings cfg)) kWritingBackup
                   (filterHostIDs env (cluster_host_ids (backup_settings cfg))
                      (shard_num (backup_settings cfg)) (replica_num (backup_settings cfg)))
                   (timeout cfg)]
    /\ tasks_run before = tasks_enqueued before
    /\ post_collecting_tasks s' = [].
Proof.
  intros Hs Hrun. apply getBackupEntries_Ok in Hrun. destruct Hrun as [Htry _].
  unfold getBackupEntries_try in Htry.
  apply bind_Ok in Htry. destruct Htry as ([] & s1 & Hcheck & Htry).
  assert (H1 : queue_in_order s1).
  { destruct (decide (current_stage s = kPreparing)); [| discriminate].
    injection Hcheck as <-. exact Hs. }
  apply bind_Ok in Htry. destruct Htry as ([] & s2 & Hroot & Htry).
  apply (queue_in_order_step _ _ _ _ (calculateRootPathInBackup_task_view env cfg) Hroot)
    in H1.
  apply bind_Ok in Htry. destruct Htry as (renamings & s3 & Hrename & Htry).
  assert (H3 : queue_in_order s3).
  { unfold call in Hrename. destruct (makeRenamingMapFromBackupQuery env _); [discriminate |].
    injection Hrename as _ <-. exact H1. }
  apply bind_Ok in Htry. destruct Htry as ([] & s4 & Hmodify & Htry).
  injection Hmodify as <-.
  apply bind_Ok in Htry. destruct Htry as ([] & s5 & Hstage1 & Htry).
  apply (queue_in_order_step _ _ _ _ (setStage_task_view env cfg kFindingTables "") Hstage1)
    in H3.
  apply bind_Ok in Htry. destruct Htry as (passes & s6 & Hscan & Htry).
  apply (queue_in_order_step _ _ _ _
           (collectDatabasesAndTablesInfo_task_view env cfg scan_fuel) Hscan) in H3.
  apply bind_Ok in Htry. destruct Htry as ([] & s7 & Hdatabases & Htry).
  injection Hdatabases as <-.
  apply bind_Ok in Htry. destruct Htry as ([] & s8 & Htables & Htry).
  injection Htables as <-.
  apply bind_Ok in Htry. destruct Htry as ([] & s9 & Hstage2 & Htry).
  assert (H8 : queue_in_order
                 (makeBackupEntriesForTablesDefs_loop env
                    (in_key_order
                       (table_infos
                          (makeBackupEntriesForDatabasesDefs_loop env
                             (unordered_iteration env (database_infos s6)) s6)))
                    (makeBackupEntriesForDatabasesDefs_loop env
                       (unordered_iteration env (database_infos s6)) s6))).
  { apply (queue_in_order_view s6); [| exact H3].
    rewrite makeBackupEntriesForTablesDefs_task_view.
    apply makeBackupEntriesForDatabasesDefs_task_view. }
  apply (queue_in_order_step _ _ _ _
           (setStage_task_view env cfg kExtractingDataFromTables "") Hstage2) in H8.
  apply bind_Ok in Htry. destruct Htry as ([] & s10 & Hdata & Htry).
  assert (H10 : queue_in_order s10).
  { pose proof (makeBackupEntriesForTablesData_queue_in_order env cfg s9 H8) as Hkept.
    rewrite Hdata in Hkept. exact Hkept. }
  apply bind_Ok in Htry. destruct Htry as ([] & s11 & Hstage3 & Htry).
  apply (queue_in_order_step _ _ _ _ (setStage_task_view env cfg kRunningPostTasks "") Hstage3)
    in H10.
  apply bind_Ok in Htry. destruct Htry as ([] & s12 & Hdrain & Htry).
  pose proof (runPostCollectingTasks_queue_in_order env drain_fuel s11 H10) as H12.
  rewrite Hdrain in H12. simpl in H12.
  pose proof (runPostCollectingTasks_Ok_empty env drain_fuel s11 s12 Hdrain) as Hempty.
  apply bind_Ok in Htry. destruct Htry as ([] & s13 & Hstage4 & Hmove).
  injection Hmove as _ <-.
  unfold setStage in Hstage4.
  destruct (decide (kWritingBackup = kError)) as [Hbad | _]; [discriminate |].
  destruct (coordination env _ _); [discriminate |].
  injection Hstage4 as <-.
  exists (trace s12). split; [simpl; rewrite <- app_assoc; reflexivity |].
  split; [| exact Hempty].
  unfold queue_in_order in H12. rewrite Hempty, app_nil_r in H12. auto.
Qed.

(** C9: the drain runs the tasks in the order in which they were queued.
    Whatever the tasks do and however long the drain runs, the tasks it
    has run are the first of the tasks that were in the queue followed by
    those queued meanwhile, in that order, and the queue holds the rest;
    it runs one task for every step it makes, it returns only with an
    empty queue, and it stops before that only when a task throws.  When
    every task is heavier than the tasks it queues taken together, the
    drain comes to an end within as many steps as the queue weighs.  A
    task that queues another while it runs has the other run after it
    within the same drain, which returns once both have run.  In a run of
    [getBackupEntries] that returns, all of this has happened before the
    stage [kWritingBackup] is entered. *)
Theorem tasks_run_in_enqueue_order (env : Environment) (cfg : Config) (fuel : nat)
    (s : Collector) :
  (exists ran added,
     tasks_run (trace (final (runPostCollectingTasks env fuel s))) = tasks_run (trace s) ++ ran
     /\ tasks_enqueued (trace (final (runPostCollectingTasks env fuel s)))
        = tasks_enqueued (trace s) ++ added
     /\ post_collecting_tasks s ++ added
        = ran ++ post_collecting_tasks (final (runPostCollectingTasks env fuel s))
     /\ match runPostCollectingTasks env fuel s with
        | Ok _ s' => post_collecting_tasks s' = []
        | Throw _ _ => ran <> []
        | OutOfFuel s' => length ran = fuel /\ post_collecting_tasks s' <> []
        end)
  /\ (forall weight,
        queues_lighter env weight ->
        queue_weight weight (post_collecting_tasks s) <= fuel ->
        finished (runPostCollectingTasks env fuel s) = true)
  /\ (queue_in_order s ->
      queue_in_order (final (runPostCollectingTasks env fuel s))
      /\ (forall s', runPostCollectingTasks env fuel s = Ok tt s' ->
            post_collecting_tasks s' = []
            /\ tasks_run (trace s') = tasks_enqueued (trace s')))
  /\ (forall first second,
        post_collecting_tasks s = [first] ->
        current_stage s <> kWritingBackup ->
        task_body env first = [ActAddPostCollectingTask second] ->
        task_body env second = [] ->
        exists s',
          runPostCollectingTasks env (S (S fuel)) s = Ok tt s'
          /\ post_collecting_tasks s' = []
          /\ tasks_run (trace s') = tasks_run (trace s) ++ [first; second]
          /\ tasks_enqueued (trace s') = tasks_enqueued (trace s) ++ [second])
  /\ (queue_in_order s ->
      forall scan_fuel entries s',
        getBackupEntries env cfg scan_fuel fuel s = Ok entries s' ->
        exists before,
          trace s'
          = before ++ [LogStage kWritingBackup;
                       SyncStage (host_id (backup_settings cfg)) kWritingBackup
                         (filterHostIDs env (cluster_host_ids (backup_settings cfg))
                            (shard_num (backup_settings cfg))
                            (replica_num (backup_settings cfg)))
                         (timeout cfg)]
          /\ tasks_run before = tasks_enqueued before
          /\ post_collecting_tasks s' = []).
Proof.
  split; [apply runPostCollectingTasks_fifo |].
  split; [intros weight Hlighter; apply runPostCollectingTasks_ends; exact Hlighter |].
  split; [| split].
  - intros Hs.
    pose proof (runPostCollectingTasks_queue_in_order env fuel s Hs) as Hfinal.
    split; [exact Hfinal |].
    intros s' Hrun. rewrite Hrun in Hfinal. simpl in Hfinal.
    pose proof (runPostCollectingTasks_Ok_empty env fuel s s' Hrun) as Hempty.
    split; [exact Hempty |].
    unfold queue_in_order in Hfinal. rewrite Hempty, app_nil_r in Hfinal. auto.
  - intros first second Hqueue Hstage Hfirst Hsecond.
    eexists. split.
    + simpl. rewrite Hqueue, Hfirst. simpl.
      unfold bind, addPostCollectingTask. simpl.
      destruct (decide (current_stage s = kWritingBackup)) as [Heq | _]; [contradiction |].
      simpl. rewrite Hsecond. simpl.
      destruct fuel; reflexivity.
    + simpl. repeat split.
      * rewrite !tasks_run_app. simpl. rewrite !app_nil_r, <- app_assoc. reflexivity.
      * rewrite !tasks_enqueued_app. simpl. rewrite !app_nil_r. reflexivity.
  - intros Hs scan_fuel entries s' Hrun.
    apply (getBackupEntries_drains env cfg scan_fuel fuel s s' entries Hs Hrun).
Qed.

Lemma tasks_run_in_enqueue_order_witness :
  (let s := final (run_actions [ActAddPostCollectingTask 1; ActAddPostCollectingTask 3]
                     new_collector) in
   finished (runPostCollectingTasks nesting_environment 4 s) = true
   /\ tasks_run (trace (final (runPostCollectingTasks nesting_environment 4 s)))
      = [1; 3; 2; 4])
  /\ (let s := final (addPostCollectingTask 3 new_collector) in
      exists s',
        runPostCollectingTasks task_environment 2 s = Ok tt s'
        /\ post_collecting_tasks s' = []
        /\ tasks_run (trace s') = tasks_run (trace s) ++ [3; 4]
        /\ tasks_enqueued (trace s') = tasks_enqueued (trace s) ++ [4])
  /\ (exists before,
        tasks_run
          (trace (final (getBackupEntries task_environment local_config 2 2 new_collector)))
        = [1; 2]
        /\ tasks_run before = tasks_enqueued before
        /\ trace (final (getBackupEntries task_environment local_config 2 2 new_collector))
           = before ++ [LogStage kWritingBackup; SyncStage "" kWritingBackup [] (-1)]).
Proof.
  split; [| split].
  - intros s.
    destruct (tasks_run_in_enqueue_order nesting_environment local_config 4 s)
      as (Hfifo & Hends & _).
    assert (Hfinished : finished (runPostCollectingTasks nesting_environment 4 s) = true).
    { apply (Hends nesting_weight).
      - intros task. do 8 (destruct task as [| task]; [vm_compute; lia |]).
        vm_compute. lia.
      - vm_compute. lia. }
    split; [exact Hfinished |].
    destruct Hfifo as (ran & added & Hran & Hadded & Hqueue & _).
    assert (Hbefore : tasks_run (trace s) = [] /\ tasks_enqueued (trace s) = [1; 3]
                      /\ post_collecting_tasks s = [1; 3]) by (vm_compute; auto).
    destruct Hbefore as (Hrun0 & Henqueued0 & Hqueue0).
    rewrite Hrun0 in Hran. rewrite Henqueued0 in Hadded. rewrite Hqueue0 in Hqueue.
    assert (Hafter : tasks_enqueued
                       (trace (final (runPostCollectingTasks nesting_environment 4 s)))
                     = [1; 3; 2; 4]
                     /\ post_collecting_tasks
                          (final (runPostCollectingTasks nesting_environment 4 s)) = [])
      by (vm_compute; auto).
    destruct Hafter as (Henqueued1 & Hqueue1).
    rewrite Henqueued1 in Hadded. rewrite Hqueue1, app_nil_r in Hqueue.
    injection Hadded as <-. rewrite Hran, <- Hqueue. reflexivity.
  - intros s.
    destruct (tasks_run_in_enqueue_order task_environment local_config 0 s)
      as (_ & _ & _ & Hboth & _).
    apply (Hboth 3 4); [reflexivity | discriminate | reflexivity | reflexivity].
  - destruct (tasks_run_in_enqueue_order task_environment local_config 2 new_collector)
      as (_ & _ & _ & _ & Hwhole).
    destruct (Hwhole eq_refl 2
                (returned_entries
                   (getBackupEntries task_environment local_config 2 2 new_collector))
                (final (getBackupEntries task_environment local_config 2 2 new_collector)))
      as (before & Htrace & Horder & _).
    { vm_compute. reflexivity. }
    exists before. split; [vm_compute; reflexivity |]. split; [exact Horder | exact Htrace].
Defined.

(** ** Convergence on a catalog that stands still *)

(** With no previous pass to compare with, a pass is never accepted,
    whatever the catalog. *)
Lemma first_pass_not_accepted (env : Environment) (cfg : Config) (pass : nat)
    (s s' : Collector) :
  previous_database_names s = None ->
  scan_pass env cfg pass s = Ok tt s' ->
  consistent s' = false.
Proof.
  intros Hprevious. unfold scan_pass.
  pose proof (collectElements_frame env (catalog_at env pass) (backup_query_elements cfg)
                (begin_pass s)) as Hframe.
  destruct (collectElements env _ _ (begin_pass s)) as [[] s1 | e s1 | s1]; try discriminate.
  simpl in Hframe. intros [= <-].
  assert (Hsame : previous_database_names s1 = None).
  { apply (f_equal previous_database_names) in Hframe. simpl in Hframe. congruence. }
  unfold checkConsistency.
  destruct (consistent s1) eqn:Hconsistent; cbn [negb]; [| exact Hconsistent].
  destruct (databases_agree s1); cbn [negb]; [| reflexivity].
  rewrite Hsame.
  rewrite (bool_decide_eq_false_2 (None = Some _)) by discriminate.
  reflexivity.
Qed.






(** ** The deadline of the scan *)

Lemma scan_pass_trace (env : Environment) (cfg : Config) (pass : nat) (s : Collector) :
  trace (final (scan_pass env cfg pass s)) = trace s.
Proof.
  unfold scan_pass.
  pose proof (collectElements_frame env (catalog_at env pass) (backup_query_elements cfg)
                (begin_pass s)) as Hframe.
  apply (f_equal trace) in Hframe. simpl in Hframe.
  destruct (collectElements env _ _ (begin_pass s)) as [[] s1 | e s1 | s1];
    simpl in *; try exact Hframe.
  rewrite <- Hframe. unfold checkConsistency.
  repeat match goal with
         | |- context [if ?b then _ else _] => destruct b; simpl; try reflexivity
         end.
Qed.

Lemma warnings_app (t1 t2 : list Event) : warnings (t1 ++ t2) = warnings t1 ++ warnings t2.
Proof. apply omap_app. Qed.

(** Wrap-around leaves a number that fits as it is, and never makes a
    number that is not negative larger. *)
Lemma wrap_int64_fits (x : Z) : (- 2 ^ 63 <= x < 2 ^ 63)%Z -> wrap_int64 x = x.
Proof. intros Hx. unfold wrap_int64. rewrite Z.mod_small by lia. lia. Qed.

Lemma wrap_int64_le (x : Z) : (0 <= x)%Z -> (wrap_int64 x <= x)%Z.
Proof.
  intros Hx. unfold wrap_int64.
  pose proof (Z.mod_le (x + 2 ^ 63) (2 ^ 64)) as Hle. lia.
Qed.

(** A pass that ends after the deadline is late for the code too. *)
Lemma exceeds_timeout_late (cfg : Config) (elapsed : Z) :
  (0 <= timeout cfg)%Z ->
  (timeout cfg * 1000000000 < elapsed)%Z ->
  exceeds_timeout cfg elapsed = true.
Proof.
  intros Htimeout Hlate. unfold exceeds_timeout. apply Z.ltb_lt.
  pose proof (wrap_int64_le (timeout cfg * 1000000000)) as Hwrap. lia.
Qed.

(** One turn of the loop after a pass that was not accepted. *)
Lemma scan_loop_step (env : Environment) (cfg : Config) (fuel pass : nat) (s s1 : Collector) :
  scan_pass env cfg pass s = Ok tt s1 ->
  consistent s1 = false ->
  scan_loop env cfg (S fuel) pass s
  = if (2 <=? pass)%nat && (0 <=? timeout cfg)%Z && exceeds_timeout cfg (elapsed_at env pass)
    then Throw (convergence_error env pass (elapsed_at env pass)) s1
    else scan_loop env cfg fuel (S pass)
           (if (2 <=? pass)%nat then emit (LogCouldntCollect pass (elapsed_at env pass)) s1
            else s1).
Proof.
  intros Hpass Hconsistent. cbn [scan_loop]. rewrite Hpass, Hconsistent. cbn [negb andb].
  destruct ((2 <=? pass)%nat && (0 <=? timeout cfg)%Z
            && exceeds_timeout cfg (elapsed_at env pass)); [reflexivity |].
  destruct (2 <=? pass)%nat; simpl; rewrite Hconsistent; reflexivity.
Qed.

(** Without a deadline the loop throws only what a pass threw. *)
Lemma scan_loop_no_deadline_throw (env : Environment) (cfg : Config) :
  (timeout cfg < 0)%Z ->
  forall fuel pass s e s',
    scan_loop env cfg fuel pass s = Throw e s' ->
    exists pass' s0, pass <= pass' /\ scan_pass env cfg pass' s0 = Throw e s'.
Proof.
  intros Htimeout.
  assert (Huse : (0 <=? timeout cfg)%Z = false) by (apply Z.leb_gt; exact Htimeout).
  induction fuel as [| fuel IH]; intros pass s e s'; cbn [scan_loop]; [discriminate |].
  destruct (scan_pass env cfg pass s) as [[] s1 | e1 s1 | s1] eqn:Hpass; try discriminate.
  - rewrite Huse, andb_false_r. cbn [andb].
    match goal with
    | |- context [consistent ?s2] => destruct (consistent s2); [discriminate |]
    end.
    intros Hrest. apply IH in Hrest. destruct Hrest as (pass' & s0 & Hle & Hthrow).
    exists pass', s0. split; [lia | exact Hthrow].
  - intros [= <- <-]. exists pass, s. split; [lia | exact Hpass].
Qed.

(** Without a deadline, and with passes that are never accepted, the loop
    is still running after any number of passes, and has logged one warning
    for each pass from the third on. *)
Lemma scan_loop_no_deadline_retries (env : Environment) (cfg : Config) :
  (timeout cfg < 0)%Z ->
  (forall pass s, exists s1, scan_pass env cfg pass s = Ok tt s1 /\ consistent s1 = false) ->
  forall fuel pass s,
    exists s',
      scan_loop env cfg fuel pass s = OutOfFuel s'
      /\ warnings (trace s')
         = warnings (trace s)
           ++ map (fun p => (p, elapsed_at env p))
                (List.filter (fun p => (2 <=? p)%nat) (seq pass fuel)).
Proof.
  intros Htimeout Hnever.
  assert (Huse : (0 <=? timeout cfg)%Z = false) by (apply Z.leb_gt; exact Htimeout).
  induction fuel as [| fuel IH]; intros pass s.
  - exists s. simpl. rewrite app_nil_r. auto.
  - destruct (Hnever pass s) as (s1 & Hpass & Hconsistent).
    pose proof (scan_pass_trace env cfg pass s) as Htrace.
    rewrite Hpass in Htrace. simpl in Htrace.
    rewrite (scan_loop_step env cfg fuel pass s s1 Hpass Hconsistent).
    rewrite Huse, andb_false_r. cbn [andb].
    destruct (IH (S pass)
                (if (2 <=? pass)%nat
                 then emit (LogCouldntCollect pass (elapsed_at env pass)) s1 else s1))
      as (s' & Hloop & Hwarnings).
    exists s'. split; [exact Hloop |].
    rewrite Hwarnings. cbn [seq List.filter].
    destruct (2 <=? pass)%nat; simpl.
    + rewrite warnings_app, Htrace. simpl. rewrite <- app_assoc. reflexivity.
    + rewrite Htrace. reflexivity.
Qed.

(** C4: a scan with a deadline (a timeout that is not negative) throws
    the exception with the code [CANNOT_COLLECT_OBJECTS_FOR_BACKUP] at the
    first pass numbered 2 or more that is not accepted and ends after the
    deadline; its message gives the number of that pass and the time
    elapsed.  A scan without a deadline (a negative timeout) goes on to
    the next pass after every pass that is not accepted, throws nothing
    but what a pass threw, never stops while no pass is accepted, and logs
    one warning at each pass from the third on. *)
Theorem scan_deadline_and_retries (env : Environment) (cfg : Config) :
  (forall fuel pass s s1,
     (0 <= timeout cfg)%Z ->
     2 <= pass ->
     scan_pass env cfg pass s = Ok tt s1 ->
     consistent s1 = false ->
     (timeout cfg * 1000000000 < elapsed_at env pass)%Z ->
     scan_loop env cfg (S fuel) pass s
     = Throw
         (DBException CANNOT_COLLECT_OBJECTS_FOR_BACKUP
            ("Couldn't collect tables and databases to make a backup (pass #"
               +:+ pretty pass +:+ ", elapsed "
               +:+ elapsed_to_string env (elapsed_at env pass) +:+ ")"))
         s1)
  /\ (forall fuel pass s s1,
        (timeout cfg < 0)%Z ->
        scan_pass env cfg pass s = Ok tt s1 ->
        consistent s1 = false ->
        scan_loop env cfg (S fuel) pass s
        = scan_loop env cfg fuel (S pass)
            (if (2 <=? pass)%nat then emit (LogCouldntCollect pass (elapsed_at env pass)) s1
             else s1))
  /\ (forall fuel pass s e s',
        (timeout cfg < 0)%Z ->
        scan_loop env cfg fuel pass s = Throw e s' ->
        exists pass' s0, pass <= pass' /\ scan_pass env cfg pass' s0 = Throw e s')
  /\ (forall fuel s,
        (timeout cfg < 0)%Z ->
        (forall pass s0,
           exists s1, scan_pass env cfg pass s0 = Ok tt s1 /\ consistent s1 = false) ->
        exists s',
          scan_loop env cfg fuel 0 s = OutOfFuel s'
          /\ warnings (trace s')
             = warnings (trace s)
               ++ map (fun p => (p, elapsed_at env p))
                    (List.filter (fun p => (2 <=? p)%nat) (seq 0 fuel))).
Proof.
  split; [| split; [| split]].
  - intros fuel pass s s1 Htimeout Hpass_number Hpass Hconsistent Hlate.
    rewrite (scan_loop_step env cfg fuel pass s s1 Hpass Hconsistent).
    rewrite (proj2 (Nat.leb_le 2 pass) Hpass_number).
    rewrite (proj2 (Z.leb_le 0 (timeout cfg)) Htimeout).
    rewrite (exceeds_timeout_late cfg _ Htimeout Hlate).
    reflexivity.
  - intros fuel pass s s1 Htimeout Hpass Hconsistent.
    rewrite (scan_loop_step env cfg fuel pass s s1 Hpass Hconsistent).
    rewrite (proj2 (Z.leb_gt 0 (timeout cfg)) Htimeout), andb_false_r.
    reflexivity.
  - intros fuel pass s e s' Htimeout. apply scan_loop_no_deadline_throw. exact Htimeout.
  - intros fuel s Htimeout Hnever.
    apply scan_loop_no_deadline_retries; assumption.
Qed.

(** On [renamed_catalog] no pass over [db1.t1] is accepted. *)
Lemma restless_pass (cfg : Config) (pass : nat) (s : Collector) :
  backup_query_elements cfg = t1_query ->
  scan_pass restless_environment cfg pass s = Ok tt (set_consistent false (begin_pass s)).
Proof.
  intros Hquery. unfold scan_pass. rewrite Hquery. reflexivity.
Qed.

Lemma scan_deadline_and_retries_witness :
  scan_loop restless_environment hurried_config 1 4 new_collector
  = Throw
      (DBException CANNOT_COLLECT_OBJECTS_FOR_BACKUP
         "Couldn't collect tables and databases to make a backup (pass #4, elapsed 4000000000ns)")
      (set_consistent false new_collector)
  /\ exists s',
       scan_loop restless_environment patient_config 5 0 new_collector = OutOfFuel s'
       /\ warnings (trace s') = [(2, 2000000000%Z); (3, 3000000000%Z); (4, 4000000000%Z)].
Proof.
  destruct (scan_deadline_and_retries restless_environment hurried_config) as (Hdeadline & _).
  destruct (scan_deadline_and_retries restless_environment patient_config)
    as (_ & _ & _ & Hretries).
  split.
  - apply (Hdeadline 0 4 new_collector (set_consistent false new_collector)).
    + vm_compute. discriminate.
    + lia.
    + reflexivity.
    + reflexivity.
    + vm_compute. reflexivity.
  - destruct (Hretries 5 new_collector) as (s' & Hloop & Hwarnings).
    + vm_compute. reflexivity.
    + intros pass s0. exists (set_consistent false (begin_pass s0)).
      split; [apply restless_pass; reflexivity | reflexivity].
    + exists s'. split; [exact Hloop | exact Hwarnings].
Defined.


(** ** Partition selectors *)

(** A lookup that must find its table comes back with a definition. *)
Lemma gather_table_required (c : Catalog) (table_name : QualifiedTableName)
    (is_temporary_table : bool) database storage table_lock create :
  gather_table c table_name is_temporary_table true
    = inr (database, storage, table_lock, create) ->
  is_Some create.
Proof.
  unfold gather_table.
  destruct (resolveStorageID c _ _) as [e | resolved_id]; [discriminate |].
  destruct (getDatabaseAndTable c resolved_id) as [e | [database' storage']]; [discriminate |].
  destruct (lockForShare c storage') as [e | table_lock']; [discriminate |].
  destruct (getCreateQueryForBackup c storage') as [e | create']; [discriminate |].
  intros [= _ _ _ <-]. eauto.
Qed.

(** What an accepted call of [collectTableInfo] did to [table_infos]. *)
Lemma collectTableInfo_consistent (env : Environment) (c : Catalog)
    (table_name : QualifiedTableName) (is_temporary_table : bool)
    (partitions : option (list AST)) (throw_if_not_found : bool) (s s' : Collector) :
  collectTableInfo env c table_name is_temporary_table partitions throw_if_not_found s
    = Ok tt s' ->
  consistent s' = true ->
  consistent s = true
  /\ ((throw_if_not_found = false /\ table_infos s' = table_infos s)
      \/ exists table_info,
           table_infos s'
           = <[mkTableKey table_name is_temporary_table := table_info]> (table_infos s)
           /\ ti_partitions table_info
              = add_partitions (partitions_of s (mkTableKey table_name is_temporary_table))
                  partitions).
Proof.
  unfold collectTableInfo.
  destruct (gather_table c table_name is_temporary_table throw_if_not_found)
    as [e | [[[database storage] table_lock] [create |]]] eqn:Hgather; [discriminate | |].
  - match goal with
    | |- context [if ?b then _ else _] => destruct b; [intros [= <-]; discriminate |]
    end.
    match goal with
    | |- context [if ?b then _ else _] => destruct b; [intros [= <-]; discriminate |]
    end.
    intros [= <-] Hconsistent. simpl in *. split; [exact Hconsistent |].
    right. eexists. split; reflexivity.
  - intros [= <-]. simpl. intros Hconsistent.
    apply andb_true_iff in Hconsistent. destruct Hconsistent as [Hconsistent _].
    split; [exact Hconsistent |]. left. split; [| reflexivity].
    destruct throw_if_not_found; [| reflexivity].
    apply gather_table_required in Hgather. destruct Hgather as [? ?]. discriminate.
Qed.

Lemma keeps_partitions_refl (s : Collector) : keeps_partitions s s.
Proof. intros Hconsistent. auto. Qed.

Lemma keeps_partitions_trans (s1 s2 s3 : Collector) :
  keeps_partitions s1 s2 -> keeps_partitions s2 s3 -> keeps_partitions s1 s3.
Proof.
  intros H12 H23 Hconsistent.
  destruct (H23 Hconsistent) as (Hconsistent2 & Hdom23 & Hparts23).
  destruct (H12 Hconsistent2) as (Hconsistent1 & Hdom12 & Hparts12).
  split; [exact Hconsistent1 |]. split.
  - intros k Hk. auto.
  - intros k. rewrite Hparts23. apply Hparts12.
Qed.

Lemma collectTableInfo_keeps (env : Environment) (c : Catalog)
    (table_name : QualifiedTableName) (is_temporary_table throw_if_not_found : bool)
    (s s' : Collector) :
  collectTableInfo env c table_name is_temporary_table None throw_if_not_found s = Ok tt s' ->
  keeps_partitions s s'.
Proof.
  intros Hrun Hconsistent.
  destruct (collectTableInfo_consistent env c _ _ _ _ s s' Hrun Hconsistent)
    as (Hbefore & [[_ Hsame] | (table_info & Hinsert & Hparts)]).
  - split; [exact Hbefore |]. unfold partitions_of. rewrite Hsame. auto.
  - split; [exact Hbefore |]. unfold partitions_of in *. rewrite Hinsert. split.
    + intros k Hk.
      destruct (decide (mkTableKey table_name is_temporary_table = k)) as [<- | Hne].
      * rewrite lookup_insert_eq. eauto.
      * rewrite lookup_insert_ne by exact Hne. exact Hk.
    + intros k.
      destruct (decide (mkTableKey table_name is_temporary_table = k)) as [<- | Hne].
      * rewrite lookup_insert_eq. simpl. rewrite Hparts. reflexivity.
      * rewrite lookup_insert_ne by exact Hne. reflexivity.
Qed.

Lemma collectTablesOf_keeps (env : Environment) (c : Catalog) (database_name : string)
    (except_table_names : gset (string * string)) (names : list string) (s s' : Collector) :
  collectTablesOf env c database_name except_table_names names s = Ok tt s' ->
  keeps_partitions s s'.
Proof.
  revert s. induction names as [| table rest IH]; intros s; simpl.
  - intros [= <-]. apply keeps_partitions_refl.
  - destruct (bool_decide _); [apply IH |].
    destruct (collectTableInfo env c _ false None false s) as [[] s1 | e s1 | s1] eqn:Hstep;
      try discriminate.
    apply collectTableInfo_keeps in Hstep.
    destruct (consistent s1) eqn:Hconsistent.
    + intros Hrest. apply (keeps_partitions_trans s s1 s'); [exact Hstep | eauto].
    + intros [= <-]. exact Hstep.
Qed.

Lemma collectDatabaseInfo_keeps (env : Environment) (c : Catalog) (database_name : string)
    (except_table_names : gset (string * string)) (throw_if_not_found : bool)
    (s s' : Collector) :
  collectDatabaseInfo env c database_name except_table_names throw_if_not_found s = Ok tt s' ->
  keeps_partitions s s'.
Proof.
  unfold collectDatabaseInfo.
  destruct (gather_database c database_name throw_if_not_found)
    as [e | [[database create] |]]; [discriminate | |].
  - destruct (negb (String.eqb _ _)); [intros [= <-] Hconsistent; discriminate |].
    match goal with
    | |- context [if ?b then _ else _] =>
        destruct b; [intros [= <-] Hconsistent; discriminate |]
    end.
    destruct (getTablesIteratorForBackup c database) as [e | names]; [discriminate |].
    intros Hloop. apply collectTablesOf_keeps in Hloop. exact Hloop.
  - intros [= <-] Hconsistent. simpl in *.
    apply andb_true_iff in Hconsistent. destruct Hconsistent as [Hconsistent _]. auto.
Qed.

Lemma collectAllDatabasesInfo_loop_keeps (env : Environment) (c : Catalog)
    (except_database_names : gset string) (except_table_names : gset (string * string))
    (dbs : list (string * DatabasePtr)) (s s' : Collector) :
  collectAllDatabasesInfo_loop env c except_database_names except_table_names dbs s
    = Ok tt s' ->
  keeps_partitions s s'.
Proof.
  revert s. induction dbs as [| [database_name database] rest IH]; intros s; simpl.
  - intros [= <-]. apply keeps_partitions_refl.
  - destruct (bool_decide _); [apply IH |].
    destruct (collectDatabaseInfo env c database_name except_table_names false s)
      as [[] s1 | e s1 | s1] eqn:Hstep; try discriminate.
    apply collectDatabaseInfo_keeps in Hstep.
    destruct (consistent s1) eqn:Hconsistent.
    + intros Hrest. apply (keeps_partitions_trans s s1 s'); [exact Hstep | eauto].
    + intros [= <-]. exact Hstep.
Qed.

(** What an accepted element did: the key it names is collected and has
    the selectors of the element added; every other key is as before. *)
Lemma collectElement_partitions (env : Environment) (c : Catalog) (element : Element)
    (s s' : Collector) :
  collectElement env c element s = Ok tt s' ->
  consistent s' = true ->
  consistent s = true
  /\ (forall k, is_Some (table_infos s !! k) -> is_Some (table_infos s' !! k))
  /\ (forall k, named_key element = Some k -> is_Some (table_infos s' !! k))
  /\ (forall k,
        partitions_of s' k
        = if decide (named_key element = Some k)
          then add_partitions (partitions_of s k) (partitions element)
          else partitions_of s k).
Proof.
  assert (Hrequired : forall table_name is_temporary_table,
             named_key element = Some (mkTableKey table_name is_temporary_table) ->
             collectTableInfo env c table_name is_temporary_table (partitions element) true s
               = Ok tt s' ->
             consistent s' = true ->
             consistent s = true
             /\ (forall k, is_Some (table_infos s !! k) -> is_Some (table_infos s' !! k))
             /\ (forall k, named_key element = Some k -> is_Some (table_infos s' !! k))
             /\ (forall k,
                   partitions_of s' k
                   = if decide (named_key element = Some k)
                     then add_partitions (partitions_of s k) (partitions element)
                     else partitions_of s k)).
  { intros table_name is_temporary_table Hnamed Hrun Hconsistent.
    destruct (collectTableInfo_consistent env c _ _ _ _ s s' Hrun Hconsistent)
      as (Hbefore & [[Hbad _] | (table_info & Hinsert & Hparts)]); [discriminate |].
    split; [exact Hbefore |]. unfold partitions_of in *. rewrite Hinsert, Hnamed.
    split; [| split].
    - intros k Hk.
      destruct (decide (mkTableKey table_name is_temporary_table = k)) as [<- | Hne].
      + rewrite lookup_insert_eq. eauto.
      + rewrite lookup_insert_ne by exact Hne. exact Hk.
    - intros k [= <-]. rewrite lookup_insert_eq. eauto.
    - intros k.
      destruct (decide (Some (mkTableKey table_name is_temporary_table) = Some k))
        as [[= <-] | Hne].
      + rewrite lookup_insert_eq. simpl. exact Hparts.
      + rewrite lookup_insert_ne by congruence. reflexivity. }
  assert (Hwildcard : named_key element = None ->
                      keeps_partitions s s' ->
                      consistent s' = true ->
                      consistent s = true
                      /\ (forall k, is_Some (table_infos s !! k) -> is_Some (table_infos s' !! k))
                      /\ (forall k, named_key element = Some k -> is_Some (table_infos s' !! k))
                      /\ (forall k,
                            partitions_of s' k
                            = if decide (named_key element = Some k)
                              then add_partitions (partitions_of s k) (partitions element)
                              else partitions_of s k)).
  { intros Hnamed Hkeeps Hconsistent.
    destruct (Hkeeps Hconsistent) as (Hbefore & Hdom & Hparts).
    rewrite Hnamed. split; [exact Hbefore |]. split; [exact Hdom |].
    split; [intros k; discriminate |].
    intros k. destruct (decide (None = Some k)); [discriminate | apply Hparts]. }
  unfold collectElement, collectAllDatabasesInfo. unfold named_key in *.
  destruct (type element).
  - apply Hrequired. reflexivity.
  - apply Hrequired. reflexivity.
  - intros Hrun. apply Hwildcard; [reflexivity |].
    apply collectDatabaseInfo_keeps in Hrun. exact Hrun.
  - intros Hrun. apply Hwildcard; [reflexivity |].
    apply collectAllDatabasesInfo_loop_keeps in Hrun. exact Hrun.
Qed.

(** Nothing raises [consistent] within a pass. *)
Lemma collectElements_consistent_before (env : Environment) (c : Catalog)
    (rest : list Element) (s s' : Collector) :
  collectElements env c rest s = Ok tt s' ->
  consistent s' = true ->
  consistent s = true.
Proof.
  revert s. induction rest as [| element rest IH]; intros s; simpl.
  - intros [= <-]. auto.
  - unfold bind.
    destruct (collectElement env c element s) as [[] s1 | e s1 | s1] eqn:Hstep;
      try discriminate.
    intros Hrest Hconsistent.
    apply (collectElement_partitions env c element s s1 Hstep).
    apply (IH s1 Hrest Hconsistent).
Qed.



(** ** A lookup that need not find its table *)

(** What [gather_table] returns for a missing table. *)
Lemma gather_table_missing (c : Catalog) (table_name : QualifiedTableName)
    (is_temporary_table : bool) :
  table_missing c table_name is_temporary_table ->
  exists database storage table_lock,
    gather_table c table_name is_temporary_table false
      = inr (database, storage, table_lock, None).
Proof.
  intros Hmissing. unfold gather_table.
  destruct Hmissing as [Hres | id db Hres Hget | id db a msg Hres Hget Hlock
                        | id db a lock msg Hres Hget Hlock Hcreate];
    rewrite Hres; try rewrite Hget; simpl.
  - eauto.
  - eauto.
  - rewrite Hlock. eauto.
  - rewrite Hlock, Hcreate. eauto.
Qed.

(** C2, as the code has it: a lookup that need not find its table and does
    not find it leaves [consistent] as it was exactly when the key is not
    among the tables collected so far in the running pass, and lowers it
    otherwise; nothing else of the collector changes, and the names of the
    previous pass are not looked at.  Once lowered the flag stays lowered:
    whatever the pass still collects, it is not accepted. *)
Theorem missing_table_tolerated_iff_not_collected (env : Environment) (c : Catalog)
    (s : Collector) (table_name : QualifiedTableName) (is_temporary_table : bool)
    (partitions : option (list AST)) :
  table_missing c table_name is_temporary_table ->
  collectTableInfo env c table_name is_temporary_table partitions false s
    = Ok tt (set_consistent
               (consistent s
                && negb (contains (table_infos s) (mkTableKey table_name is_temporary_table)))
               s)
  /\ (consistent (final (collectTableInfo env c table_name is_temporary_table partitions false s))
      = true
      <-> consistent s = true
          /\ table_infos s !! mkTableKey table_name is_temporary_table = None)
  /\ (forall c' elements s',
        is_Some (table_infos s !! mkTableKey table_name is_temporary_table) ->
        collectElements env c' elements
          (final (collectTableInfo env c table_name is_temporary_table partitions false s))
        = Ok tt s' ->
        consistent (checkConsistency s') = false).
Proof.
  intros Hmissing.
  destruct (gather_table_missing c table_name is_temporary_table Hmissing)
    as (database & storage & table_lock & Hgather).
  assert (Hrun : collectTableInfo env c table_name is_temporary_table partitions false s
                 = Ok tt (set_consistent
                            (consistent s
                             && negb (contains (table_infos s)
                                        (mkTableKey table_name is_temporary_table))) s)).
  { unfold collectTableInfo. rewrite Hgather. reflexivity. }
  split; [exact Hrun |].
  rewrite Hrun. cbn [final]. split.
  - simpl. unfold contains.
    rewrite andb_true_iff, negb_true_iff, bool_decide_eq_false, <- eq_None_not_Some.
    reflexivity.
  - intros c' elements s' Hcollected Hrest.
    destruct (consistent s') eqn:Hconsistent.
    + apply (collectElements_consistent_before env c' elements _ s' Hrest) in Hconsistent.
      simpl in Hconsistent. unfold contains in Hconsistent.
      rewrite (bool_decide_eq_true_2 _ Hcollected), andb_false_r in Hconsistent.
      discriminate.
    + unfold checkConsistency. rewrite Hconsistent. exact Hconsistent.
Qed.

Lemma missing_table_tolerated_iff_not_collected_witness :
  consistent
    (final (collectTableInfo shard_environment empty_catalog (mkQualifiedTableName "db1" "t1")
              false None false after_pass_with_t1)) = true
  /\ consistent
       (final (collectTableInfo shard_environment empty_catalog
                 (mkQualifiedTableName "db1" "t1") false None false during_pass_with_t1))
     = false.
Proof.
  assert (Hmissing : table_missing empty_catalog (mkQualifiedTableName "db1" "t1") false).
  { apply missing_unresolved. reflexivity. }
  split.
  - apply (proj1 (proj2 (missing_table_tolerated_iff_not_collected shard_environment
                             empty_catalog after_pass_with_t1 _ false None Hmissing))).
    split; vm_compute; reflexivity.
  - rewrite (proj1 (missing_table_tolerated_iff_not_collected shard_environment empty_catalog
                      during_pass_with_t1 _ false None Hmissing)).
    vm_compute. reflexivity.
Defined.

(** C2, as the specification has it, fails both ways.  A table the previous
    pass found and that cannot be resolved now is tolerated by the lookup;
    a table the previous pass did not find, that the running pass has
    collected and that cannot be resolved now, is not. *)
Lemma missing_table_not_compared_with_previous_pass :
  table_missing empty_catalog (mkQualifiedTableName "db1" "t1") false
  /\ ~ (consistent
          (final (collectTableInfo shard_environment empty_catalog
                    (mkQualifiedTableName "db1" "t1") false None false after_pass_with_t1))
        = true
        <-> ~ in_previous_pass after_pass_with_t1 db1_t1)
  /\ ~ (consistent
          (final (collectTableInfo shard_environment empty_catalog
                    (mkQualifiedTableName "db1" "t1") false None false during_pass_with_t1))
        = true
        <-> ~ in_previous_pass during_pass_with_t1 db1_t1).
Proof.
  split; [apply missing_unresolved; reflexivity |].
  split.
  - intros [Htolerated _]. apply Htolerated; [vm_compute; reflexivity |].
    exists {[db1_t1]}. split; [reflexivity | set_solver].
  - intros [_ Habsent].
    assert (Hfalse : consistent
                       (final (collectTableInfo shard_environment empty_catalog
                                 (mkQualifiedTableName "db1" "t1") false None false
                                 during_pass_with_t1)) = true).
    { apply Habsent. intros (names & Hnames & Hin).
      injection Hnames as <-. set_solver. }
    vm_compute in Hfalse. discriminate.
Qed.


Lemma checkConsistency_accepted (s : Collector) :
  consistent (checkConsistency s) = true -> consistent s = true /\ checkConsistency s = s.
Proof.
  unfold checkConsistency.
  destruct (consistent s) eqn:Hconsistent; cbn [negb]; [| congruence].
  destruct (databases_agree s); cbn [negb]; [| discriminate].
  destruct (bool_decide _ && bool_decide _); [auto | discriminate].
Qed.













(** * Further properties of the code *)

(** ** Table keys *)

Lemma String_ltb_lt (a b : string) :
  String.ltb a b = true <-> OrderedTypeEx.String_as_OT.lt a b.
Proof.
  rewrite <- OrderedTypeEx.String_as_OT.cmp_lt.
  unfold String.ltb, OrderedTypeEx.String_as_OT.cmp.
  destruct (String.compare a b); split; congruence.
Qed.

Lemma String_ltb_order : strict_total_order String.ltb.
Proof.
  split; [| split].
  - intros x. unfold String.ltb.
    pose proof (proj2 (OrderedTypeEx.String_as_OT.cmp_eq x x) eq_refl) as Hsame.
    unfold OrderedTypeEx.String_as_OT.cmp in Hsame. rewrite Hsame. reflexivity.
  - intros x y z Hxy Hyz. apply String_ltb_lt.
    apply (OrderedTypeEx.String_as_OT.lt_trans x y z); apply String_ltb_lt; assumption.
  - intros x y. unfold String.ltb.
    rewrite (String.compare_antisym y x).
    destruct (String.compare x y) eqn:Hcompare; simpl; auto.
    apply OrderedTypeEx.String_as_OT.cmp_eq in Hcompare. auto.
Qed.

(** The order of pairs that compares the first components and, when they
    agree, the second. *)
Lemma lexicographic_order {A B} (ltA eqA : A -> A -> bool) (ltB : B -> B -> bool) :
  strict_total_order ltA ->
  (forall x y, eqA x y = true <-> x = y) ->
  strict_total_order ltB ->
  strict_total_order
    (fun p q : A * B => ltA p.1 q.1 || (eqA p.1 q.1 && ltB p.2 q.2)).
Proof.
  intros (HirrA & HtransA & HtotalA) Heq (HirrB & HtransB & HtotalB).
  assert (Hrefl : forall x, eqA x x = true) by (intros x; apply Heq; reflexivity).
  split; [| split].
  - intros [a b]. simpl. rewrite HirrA, HirrB, andb_false_r. reflexivity.
  - intros [a1 b1] [a2 b2] [a3 b3]. simpl.
    rewrite !orb_true_iff, !andb_true_iff, !Heq.
    intros [H12 | [-> H12]] [H23 | [-> H23]]; eauto.
  - intros [a1 b1] [a2 b2]. simpl.
    rewrite !orb_true_iff, !andb_true_iff, !Heq.
    destruct (HtotalA a1 a2) as [Ha | [-> | Ha]]; auto.
    destruct (HtotalB b1 b2) as [Hb | [-> | Hb]]; auto.
Qed.

Lemma strict_total_order_inj {A B} (f : A -> B) (ltb : B -> B -> bool) :
  (forall x y, f x = f y -> x = y) ->
  strict_total_order ltb ->
  strict_total_order (fun x y => ltb (f x) (f y)).
Proof.
  intros Hinj (Hirr & Htrans & Htotal). split; [| split]; eauto.
  intros x y. destruct (Htotal (f x) (f y)) as [H | [H | H]]; auto.
Qed.

Lemma QualifiedTableName_eqb_eq (l r : QualifiedTableName) :
  QualifiedTableName_eqb l r = true <-> l = r.
Proof.
  unfold QualifiedTableName_eqb. rewrite andb_true_iff, !String.eqb_eq.
  destruct l, r; simpl. split; [intros [-> ->]; reflexivity | intros [= -> ->]; auto].
Qed.

Lemma QualifiedTableName_ltb_order : strict_total_order QualifiedTableName_ltb.
Proof.
  apply (strict_total_order_inj (fun n => (qtn_database n, qtn_table n))
           (fun p q : string * string =>
              String.ltb p.1 q.1 || (String.eqb p.1 q.1 && String.ltb p.2 q.2))).
  - intros [d1 t1] [d2 t2] [= -> ->]. reflexivity.
  - apply lexicographic_order; [apply String_ltb_order | apply String.eqb_eq
                               | apply String_ltb_order].
Qed.

(** X1: [TableKey::operator==] holds of two keys exactly when they are the
    same key: the same database name, table name and temporary flag. *)
Theorem TableKey_eqb_eq (l r : TableKey) : TableKey_eqb l r = true <-> l = r.
Proof.
  unfold TableKey_eqb. rewrite andb_true_iff, QualifiedTableName_eqb_eq, Bool.eqb_true_iff.
  destruct l, r; simpl. split; [intros [-> ->]; reflexivity | intros [= -> ->]; auto].
Qed.

Lemma TableKey_ltb_strict_total : strict_total_order TableKey_ltb.
Proof.
  apply (strict_total_order_inj (fun k => (key_name k, key_is_temporary k))
           (fun p q : QualifiedTableName * bool =>
              QualifiedTableName_ltb p.1 q.1
              || (QualifiedTableName_eqb p.1 q.1 && bool_ltb p.2 q.2))).
  - intros [n1 t1] [n2 t2] [= -> ->]. reflexivity.
  - apply lexicographic_order.
    + apply QualifiedTableName_ltb_order.
    + apply QualifiedTableName_eqb_eq.
    + split; [| split].
      * intros []; reflexivity.
      * intros [] [] []; cbv; intros; congruence.
      * intros [] []; cbv; auto.
Qed.

(** X2: [TableKey::operator<] is a strict total order on keys: no key is
    below itself, the comparison is transitive, and of two different keys
    one is below the other.  It orders by name first, and puts a table
    before the temporary table of the same name. *)
Theorem TableKey_ltb_order :
  strict_total_order TableKey_ltb
  /\ (forall name, TableKey_ltb (mkTableKey name false) (mkTableKey name true) = true)
  /\ (forall l r,
        QualifiedTableName_ltb (key_name l) (key_name r) = true -> TableKey_ltb l r = true).
Proof.
  split; [| split].
  - apply TableKey_ltb_strict_total.
  - intros name. unfold TableKey_ltb. simpl.
    rewrite (proj2 (QualifiedTableName_eqb_eq name name) eq_refl).
    apply orb_true_r.
  - intros l r Hlt. unfold TableKey_ltb. rewrite Hlt. reflexivity.
Qed.

Lemma TableKey_ltb_order_witness :
  TableKey_ltb (mkTableKey (mkQualifiedTableName "db1" "t1") true)
    (mkTableKey (mkQualifiedTableName "db1" "t2") false) = true.
Proof.
  apply (proj2 (proj2 TableKey_ltb_order)). reflexivity.
Defined.

Lemma TableKey_eqb_eq_witness : TableKey_eqb db1_t1 db1_t1 = true.
Proof. apply TableKey_eqb_eq. reflexivity. Defined.

(** ** Stages and the verdict on a pass *)

(** X3: [toString] gives different stages different names, so a name in a
    log line or in an error message tells the stage. *)
Theorem toString_inj (a b : Stage) : toString a = toString b <-> a = b.
Proof.
  split; [| intros ->; reflexivity].
  destruct a, b; simpl; intros H; try reflexivity; discriminate H.
Qed.

Lemma toString_inj_witness : toString kFindingTables <> toString kWritingBackup.
Proof.
  intros Hsame. apply toString_inj in Hsame. discriminate Hsame.
Defined.

(** X4: the verdict of [checkConsistency].  A pass is accepted exactly when
    it was consistent so far, its tables lie in the databases it collected
    them with, and the names it collected are those recorded before.  A
    pass that fails its own checks leaves the recorded names as they were,
    so the next pass is compared with the last pass that passed them; a
    pass that passes them has its names recorded whether it is accepted or
    not.  The containers are never changed, and a second verdict on the
    same pass changes nothing. *)
Theorem checkConsistency_verdict (s : Collector) :
  (consistent (checkConsistency s) = true
   <-> consistent s = true
       /\ databases_agree s = true
       /\ previous_database_names s = Some (dom (database_infos s))
       /\ previous_table_names s = Some (dom (table_infos s)))
  /\ (consistent s = false \/ databases_agree s = false ->
      consistent (checkConsistency s) = false
      /\ previous_database_names (checkConsistency s) = previous_database_names s
      /\ previous_table_names (checkConsistency s) = previous_table_names s)
  /\ (consistent s = true -> databases_agree s = true ->
      previous_database_names (checkConsistency s) = Some (dom (database_infos s))
      /\ previous_table_names (checkConsistency s) = Some (dom (table_infos s)))
  /\ database_infos (checkConsistency s) = database_infos s
  /\ table_infos (checkConsistency s) = table_infos s
  /\ checkConsistency (checkConsistency s) = checkConsistency s.
Proof.
  assert (Hcases :
            (consistent s = false /\ checkConsistency s = s)
            \/ (consistent s = true /\ databases_agree s = false
                /\ checkConsistency s = set_consistent false s)
            \/ (consistent s = true /\ databases_agree s = true
                /\ previous_database_names s = Some (dom (database_infos s))
                /\ previous_table_names s = Some (dom (table_infos s))
                /\ checkConsistency s = s)
            \/ (consistent s = true /\ databases_agree s = true
                /\ ~ (previous_database_names s = Some (dom (database_infos s))
                      /\ previous_table_names s = Some (dom (table_infos s)))
                /\ checkConsistency s
                   = set_consistent false
                       (set_previous_names (Some (dom (database_infos s)))
                          (Some (dom (table_infos s))) s))).
  { unfold checkConsistency.
    destruct (consistent s); cbn [negb]; [| auto].
    destruct (databases_agree s); cbn [negb]; [| auto].
    destruct (bool_decide_reflect
                (previous_database_names s = Some (dom (database_infos s))));
      destruct (bool_decide_reflect
                  (previous_table_names s = Some (dom (table_infos s))));
      cbn [andb]; [right; right; left | right; right; right ..]; intuition. }
  destruct Hcases as [(Hc & Heq) | [(Hc & Ha & Heq) | [(Hc & Ha & Hd & Ht & Heq)
                                                     | (Hc & Ha & Hn & Heq)]]].
  - rewrite !Heq. intuition congruence.
  - rewrite !Heq. simpl.
    assert (checkConsistency (set_consistent false s) = set_consistent false s)
      by reflexivity.
    intuition congruence.
  - rewrite !Heq. intuition congruence.
  - rewrite !Heq. simpl.
    assert (checkConsistency
              (set_consistent false
                 (set_previous_names (Some (dom (database_infos s)))
                    (Some (dom (table_infos s))) s))
            = set_consistent false
                (set_previous_names (Some (dom (database_infos s)))
                   (Some (dom (table_infos s))) s)) by reflexivity.
    intuition congruence.
Qed.

Lemma checkConsistency_verdict_witness :
  consistent (checkConsistency after_pass_with_t1) = false
  /\ previous_table_names (checkConsistency after_pass_with_t1) = Some ∅.
Proof.
  destruct (checkConsistency_verdict after_pass_with_t1) as (Haccepted & _ & Hrecorded & _).
  split.
  - apply not_true_is_false. intros Hverdict.
    apply (proj1 Haccepted) in Hverdict. destruct Hverdict as (_ & _ & _ & Hnames).
    apply (bool_decide_eq_true_2 _) in Hnames. vm_compute in Hnames. discriminate Hnames.
  - apply Hrecorded; reflexivity.
Defined.

(** ** Paths *)

Lemma pretty_N_go_no_separator (x : N) (s : string) :
  no_separator s = true -> no_separator (pretty_N_go x s) = true.
Proof.
  revert s. induction (N.lt_wf_0 x) as [x _ IH]; intros s Hs.
  assert (x = 0 \/ 0 < x)%N as [-> | Hpos] by lia.
  - rewrite pretty_N_go_0. exact Hs.
  - rewrite pretty_N_go_step by exact Hpos. apply IH.
    + apply N.div_lt; [exact Hpos | reflexivity].
    + simpl. rewrite Hs, andb_true_r. unfold pretty_N_char.
      repeat case_match; reflexivity.
Qed.

Lemma pretty_N_go_not_empty (x : N) (s : string) : s <> "" -> pretty_N_go x s <> "".
Proof.
  revert s. induction (N.lt_wf_0 x) as [x _ IH]; intros s Hs.
  assert (x = 0 \/ 0 < x)%N as [-> | Hpos] by lia.
  - rewrite pretty_N_go_0. exact Hs.
  - rewrite pretty_N_go_step by exact Hpos. apply IH.
    + apply N.div_lt; [exact Hpos | reflexivity].
    + discriminate.
Qed.

(** A number in decimal is not empty and has no separator in it. *)
Lemma to_string_decimal (n : N) : to_string n <> "" /\ no_separator (to_string n) = true.
Proof.
  unfold to_string, pretty, pretty_N.
  destruct (decide (n = 0%N)) as [-> | Hne]; [split; [discriminate | reflexivity] |].
  split.
  - rewrite pretty_N_go_step by lia. apply pretty_N_go_not_empty. discriminate.
  - apply pretty_N_go_no_separator. reflexivity.
Qed.

Lemma no_separator_relative (q : string) : no_separator q = true -> is_absolute q = false.
Proof.
  destruct q as [| c rest]; simpl; [reflexivity |].
  intros H. apply andb_true_iff in H. destruct H as [H _].
  apply negb_true_iff in H. exact H.
Qed.

Lemma has_filename_append (p q : string) :
  q <> "" -> has_filename (p +:+ q) = has_filename q.
Proof.
  intros Hq. induction p as [| c p IH]; [reflexivity |].
  simpl. rewrite IH.
  destruct (p +:+ q) eqn:Happend; [| reflexivity].
  destruct p; simpl in Happend; [contradiction | discriminate].
Qed.

Lemma no_separator_has_filename (q : string) :
  q <> "" -> no_separator q = true -> has_filename q = true.
Proof.
  induction q as [| c q IH]; [contradiction |].
  intros _ H. simpl in H. apply andb_true_iff in H. destruct H as [Hc Hq].
  destruct q as [| c' q']; [exact Hc |].
  change (has_filename (String c (String c' q'))) with (has_filename (String c' q')).
  apply IH; [discriminate | exact Hq].
Qed.

(** Appending a name without separators to a path that ends in a name. *)
Lemma path_append_name (p q : string) :
  has_filename p = true -> q <> "" -> no_separator q = true ->
  p // q = p +:+ "/" +:+ q /\ has_filename (p // q) = true.
Proof.
  intros Hp Hq Hsep. unfold path_append.
  rewrite (no_separator_relative q Hsep), Hp. split; [reflexivity |].
  rewrite has_filename_append by (destruct q; [contradiction | discriminate]).
  change ("/" +:+ q) with (String "/" q).
  destruct q as [| c q']; [contradiction |].
  change (has_filename (String "/" (String c q'))) with (has_filename (String c q')).
  apply no_separator_has_filename; [discriminate | exact Hsep].
Qed.

Lemma append_assoc (a b c : string) : (a +:+ b) +:+ c = a +:+ (b +:+ c).
Proof.
  induction a as [| x a IH]; [reflexivity |].
  change (String x ((a +:+ b) +:+ c) = String x (a +:+ (b +:+ c))).
  rewrite IH. reflexivity.
Qed.

(** The root path of a host in a cluster, for any numbers. *)
Lemma shard_root_format (shard replica : N) :
  "/" // "shards" // to_string shard // "replicas" // to_string replica
  = "/shards/" +:+ to_string shard +:+ "/replicas/" +:+ to_string replica.
Proof.
  destruct (to_string_decimal shard) as [Hshard_ne Hshard].
  destruct (to_string_decimal replica) as [Hreplica_ne Hreplica].
  change ("/" // "shards") with "/shards".
  destruct (path_append_name "/shards" (to_string shard) eq_refl Hshard_ne Hshard)
    as [-> Hname1].
  destruct (path_append_name ("/shards" +:+ "/" +:+ to_string shard) "replicas" Hname1
              ltac:(discriminate) eq_refl) as [-> Hname2].
  destruct (path_append_name
              (("/shards" +:+ "/" +:+ to_string shard) +:+ "/" +:+ "replicas")
              (to_string replica) Hname2 Hreplica_ne Hreplica) as [-> _].
  rewrite !append_assoc. reflexivity.
Qed.

(** A name without separators in front of a separator can be read back. *)
Lemma append_separator_inj (a a' r r' : string) :
  no_separator a = true -> no_separator a' = true ->
  a +:+ String "/" r = a' +:+ String "/" r' -> a = a' /\ r = r'.
Proof.
  revert a'. induction a as [| c a IH]; intros [| c' a'] Ha Ha'; simpl.
  - intros [= ->]. auto.
  - intros [= <- _]. simpl in Ha'. discriminate Ha'.
  - intros [= -> _]. simpl in Ha. discriminate Ha.
  - intros [= -> Hrest]. simpl in Ha, Ha'.
    apply andb_true_iff in Ha, Ha'.
    destruct (IH a' (proj2 Ha) (proj2 Ha') Hrest) as [-> ->]. auto.
Qed.

(** X5: the root path [calculateRootPathInBackup] stores.  Without a host
    identifier it is ["/"].  With one it is ["/shards/S/replicas/R"] for
    the numbers [S] and [R] the settings' helper finds, in decimal; and when
    the helper throws, the function throws the same and the root path is
    left at ["/"].  Two hosts have the same root path only if they have the
    same shard number and the same replica number. *)
Theorem calculateRootPathInBackup_format (env : Environment) (cfg : Config) (s : Collector) :
  (host_id (backup_settings cfg) = "" ->
   calculateRootPathInBackup env cfg s
   = Ok tt (emit (LogRootPath "/") (set_root_path_in_backup "/" s)))
  /\ (forall shard replica,
        host_id (backup_settings cfg) <> "" ->
        findShardNumAndReplicaNum env (cluster_host_ids (backup_settings cfg))
          (host_id (backup_settings cfg)) = inr (shard, replica) ->
        exists s',
          calculateRootPathInBackup env cfg s = Ok tt s'
          /\ root_path_in_backup s'
             = "/shards/" +:+ to_string shard +:+ "/replicas/" +:+ to_string replica)
  /\ (forall e,
        host_id (backup_settings cfg) <> "" ->
        findShardNumAndReplicaNum env (cluster_host_ids (backup_settings cfg))
          (host_id (backup_settings cfg)) = inl e ->
        calculateRootPathInBackup env cfg s = Throw e (set_root_path_in_backup "/" s))
  /\ (forall shard replica shard' replica',
        "/" // "shards" // to_string shard // "replicas" // to_string replica
        = "/" // "shards" // to_string shard' // "replicas" // to_string replica' ->
        shard = shard' /\ replica = replica').
Proof.
  split; [| split; [| split]].
  - intros Hhost. unfold calculateRootPathInBackup. rewrite Hhost. reflexivity.
  - intros shard replica Hhost Hfind. unfold calculateRootPathInBackup.
    destruct (String.eqb_spec (host_id (backup_settings cfg)) "") as [Heq | _];
      [contradiction |].
    rewrite Hfind. eexists. split; [reflexivity |].
    cbn [root_path_in_backup emit set_root_path_in_backup].
    apply shard_root_format.
  - intros e Hhost Hfind. unfold calculateRootPathInBackup.
    destruct (String.eqb_spec (host_id (backup_settings cfg)) "") as [Heq | _];
      [contradiction |].
    rewrite Hfind. reflexivity.
  - intros shard replica shard' replica'. rewrite !shard_root_format.
    change ("/shards/" +:+ ?a) with (String "/" (String "s" (String "h" (String "a"
              (String "r" (String "d" (String "s" (String "/" a)))))))).
    intros [= Hsame].
    change ("/replicas/" +:+ ?b) with (String "/" ("replicas/" +:+ b)) in Hsame.
    apply append_separator_inj in Hsame; try apply to_string_decimal.
    destruct Hsame as [Hshard Hreplica].
    simpl in Hreplica. injection Hreplica as Hreplica.
    split; [apply (inj pretty); exact Hshard | apply (inj pretty); exact Hreplica].
Qed.

Lemma calculateRootPathInBackup_format_witness :
  exists s',
    calculateRootPathInBackup shard_environment shard_config new_collector = Ok tt s'
    /\ root_path_in_backup s' = "/shards/1/replicas/0".
Proof.
  destruct (calculateRootPathInBackup_format shard_environment shard_config new_collector)
    as (_ & Hcluster & _).
  destruct (Hcluster 1%N 0%N) as (s' & Hrun & Hroot).
  - discriminate.
  - reflexivity.
  - exists s'. split; [exact Hrun | exact Hroot].
Defined.

(** ** The scan: lookups *)

(** To collect never runs out of fuel: only the two loops of the
    collector can. *)
Lemma collectTableInfo_finished env c table_name is_temporary_table partitions
    throw_if_not_found s :
  finished (collectTableInfo env c table_name is_temporary_table partitions
              throw_if_not_found s) = true.
Proof.
  unfold collectTableInfo.
  destruct (gather_table c table_name is_temporary_table throw_if_not_found)
    as [e | [[[database storage] table_lock] [create |]]]; try reflexivity.
  repeat match goal with
         | |- context [if ?b then _ else _] => destruct b; try reflexivity
         end.
Qed.

Lemma collectTablesOf_finished env c database_name except_table_names names s :
  finished (collectTablesOf env c database_name except_table_names names s) = true.
Proof.
  revert s. induction names as [| table rest IH]; intros s; simpl; [reflexivity |].
  destruct (bool_decide _); [apply IH |].
  pose proof (collectTableInfo_finished env c (mkQualifiedTableName database_name table)
                false None false s) as Hstep.
  destruct (collectTableInfo env c _ false None false s) as [[] s1 | e s1 | s1];
    try exact Hstep.
  destruct (consistent s1); [apply IH | reflexivity].
Qed.

Lemma collectDatabaseInfo_finished env c database_name except_table_names
    throw_if_not_found s :
  finished (collectDatabaseInfo env c database_name except_table_names
              throw_if_not_found s) = true.
Proof.
  unfold collectDatabaseInfo.
  destruct (gather_database c database_name throw_if_not_found)
    as [e | [[database create] |]]; try reflexivity.
  destruct (negb (String.eqb _ _)); [reflexivity |].
  match goal with
  | |- context [if ?b then _ else _] => destruct b; [reflexivity |]
  end.
  destruct (getTablesIteratorForBackup c database) as [e | names]; [reflexivity |].
  apply collectTablesOf_finished.
Qed.

Lemma collectAllDatabasesInfo_loop_finished env c except_database_names except_table_names
    dbs s :
  finished (collectAllDatabasesInfo_loop env c except_database_names except_table_names
              dbs s) = true.
Proof.
  revert s. induction dbs as [| [database_name database] rest IH]; intros s; simpl;
    [reflexivity |].
  destruct (bool_decide _); [apply IH |].
  pose proof (collectDatabaseInfo_finished env c database_name except_table_names false s)
    as Hstep.
  destruct (collectDatabaseInfo env c database_name except_table_names false s)
    as [[] s1 | e s1 | s1]; try exact Hstep.
  destruct (consistent s1); [apply IH | reflexivity].
Qed.

Lemma collectElement_finished env c element s :
  finished (collectElement env c element s) = true.
Proof.
  unfold collectElement, collectAllDatabasesInfo. destruct (type element).
  - apply collectTableInfo_finished.
  - apply collectTableInfo_finished.
  - apply collectDatabaseInfo_finished.
  - apply collectAllDatabasesInfo_loop_finished.
Qed.

Lemma collectElements_finished env c elements s :
  finished (collectElements env c elements s) = true.
Proof.
  revert s. induction elements as [| element rest IH]; intros s; simpl; [reflexivity |].
  unfold bind. pose proof (collectElement_finished env c element s) as Hstep.
  destruct (collectElement env c element s) as [[] s1 | e s1 | s1]; try exact Hstep.
  apply IH.
Qed.

(** An element whose name the catalog does not know throws. *)
Lemma collectElement_unknown env c element s :
  names_unknown c element -> exists e, collectElement env c element s = Throw e s.
Proof.
  unfold names_unknown, collectElement.
  destruct (type element); try contradiction; intros [e Hunknown]; exists e.
  - unfold collectTableInfo, gather_table, asked_storage. simpl. rewrite Hunknown.
    reflexivity.
  - unfold collectTableInfo, gather_table, asked_storage. simpl. rewrite Hunknown.
    reflexivity.
  - unfold collectDatabaseInfo, gather_database. rewrite Hunknown. reflexivity.
Qed.

Lemma collectElements_unknown env c elements element s :
  element ∈ elements ->
  names_unknown c element ->
  exists e s', collectElements env c elements s = Throw e s'.
Proof.
  intros Hin Hunknown. revert s.
  induction elements as [| first rest IH]; intros s; [apply elem_of_nil in Hin; contradiction |].
  simpl. unfold bind.
  pose proof (collectElement_finished env c first s) as Hfinished.
  destruct (collectElement env c first s) as [[] s1 | e s1 | s1] eqn:Hfirst;
    [| eauto | discriminate].
  apply elem_of_cons in Hin. destruct Hin as [-> | Hin].
  - destruct (collectElement_unknown env c first s Hunknown) as [e Hthrow].
    congruence.
  - apply IH. exact Hin.
Qed.

(** X6: a pass over a query that requires a name the catalog does not know
    throws: a table that does not resolve, a database that is not there.
    It throws in whichever pass meets the catalog in that state, with or
    without a deadline; the scan does not go on to another pass and
    returns no result. *)
Theorem unknown_name_throws (env : Environment) (cfg : Config) (pass : nat)
    (element : Element) :
  element ∈ backup_query_elements cfg ->
  names_unknown (catalog_at env pass) element ->
  forall fuel s,
    exists e s',
      scan_pass env cfg pass s = Throw e s'
      /\ scan_loop env cfg (S fuel) pass s = Throw e s'.
Proof.
  intros Hin Hunknown fuel s.
  destruct (collectElements_unknown env (catalog_at env pass) (backup_query_elements cfg)
              element (begin_pass s) Hin Hunknown) as (e & s' & Hthrow).
  exists e, s'.
  assert (Hpass : scan_pass env cfg pass s = Throw e s').
  { unfold scan_pass. rewrite Hthrow. reflexivity. }
  split; [exact Hpass |].
  cbn [scan_loop]. rewrite Hpass. reflexivity.
Qed.

Lemma unknown_name_throws_witness :
  exists e s', scan_loop shard_environment failing_config 1 5 after_pass_with_t1 = Throw e s'.
Proof.
  destruct (unknown_name_throws shard_environment failing_config 5
              (table_element "db1" "t9" None)) with (fuel := 0) (s := after_pass_with_t1)
    as (e & s' & _ & Hloop).
  - left.
  - exists unknown_table. reflexivity.
  - exists e, s'. exact Hloop.
Defined.

Lemma set_consistent_same (s : Collector) (b : bool) :
  consistent s = b -> set_consistent b s = s.
Proof. destruct s. simpl. intros <-. reflexivity. Qed.

(** X7: a table that a database still lists and that cannot be found any
    more is left out without a word: when its key has not been collected
    in the running pass, the loop over the tables of the database goes on
    with the remaining names as if the table had not been listed. *)
Theorem dropped_table_omitted (env : Environment) (c : Catalog) (database_name table : string)
    (except_table_names : gset (string * string)) (rest : list string) (s : Collector) :
  table_missing c (mkQualifiedTableName database_name table) false ->
  table_infos s !! mkTableKey (mkQualifiedTableName database_name table) false = None ->
  consistent s = true ->
  collectTablesOf env c database_name except_table_names (table :: rest) s
  = collectTablesOf env c database_name except_table_names rest s.
Proof.
  intros Hmissing Hnew Hconsistent.
  destruct (gather_table_missing c _ false Hmissing)
    as (database & storage & table_lock & Hgather).
  cbn [collectTablesOf].
  destruct (bool_decide _); [reflexivity |].
  unfold collectTableInfo. rewrite Hgather. unfold contains.
  rewrite Hnew, Hconsistent.
  rewrite (bool_decide_eq_false_2 (is_Some None)) by (intros [? ?]; discriminate).
  cbn [negb andb]. rewrite (set_consistent_same s true Hconsistent), Hconsistent.
  reflexivity.
Qed.

Lemma dropped_table_omitted_witness :
  collectTablesOf shard_environment dropping_catalog "db1" ∅ ["t4"; "t1"] new_collector
  = collectTablesOf shard_environment dropping_catalog "db1" ∅ ["t1"] new_collector
  /\ exists s',
       collectDatabasesAndTablesInfo dropping_environment local_config 2 new_collector
       = Ok 2 s'
       /\ table_infos s' !! mkTableKey (mkQualifiedTableName "db1" "t4") false = None.
Proof.
  split.
  - apply dropped_table_omitted; [| reflexivity | reflexivity].
    apply missing_unresolved. reflexivity.
  - eexists. split; vm_compute; reflexivity.
Defined.

(** What one call of [collectTableInfo] may add. *)
Lemma collectTableInfo_adds env c table_name is_temporary_table partitions
    throw_if_not_found s s' :
  collectTableInfo env c table_name is_temporary_table partitions throw_if_not_found s
    = Ok tt s' ->
  database_infos s' = database_infos s
  /\ (table_infos s' = table_infos s
      \/ exists table_info,
           table_infos s'
           = <[mkTableKey table_name is_temporary_table := table_info]> (table_infos s)).
Proof.
  unfold collectTableInfo.
  destruct (gather_table c table_name is_temporary_table throw_if_not_found)
    as [e | [[[database storage] table_lock] [create |]]]; [discriminate | |].
  - match goal with
    | |- context [if ?b then _ else _] => destruct b; [intros [= <-]; auto |]
    end.
    match goal with
    | |- context [if ?b then _ else _] => destruct b; [intros [= <-]; auto |]
    end.
    intros [= <-]. split; [reflexivity |]. right. eexists. reflexivity.
  - intros [= <-]. auto.
Qed.

Lemma collectTablesOf_adds env c database_name except_table_names names s s' :
  collectTablesOf env c database_name except_table_names names s = Ok tt s' ->
  database_infos s' = database_infos s
  /\ forall k,
       is_Some (table_infos s' !! k) ->
       is_Some (table_infos s !! k)
       \/ exists table,
            k = mkTableKey (mkQualifiedTableName database_name table) false
            /\ table ∈ names
            /\ (database_name, table) ∉ except_table_names.
Proof.
  revert s. induction names as [| table rest IH]; intros s; simpl.
  - intros [= <-]. auto.
  - destruct (bool_decide_reflect ((database_name, table) ∈ except_table_names))
      as [Hexcept | Hallowed].
    + intros Hrest. destruct (IH s Hrest) as [Hdatabases Htables].
      split; [exact Hdatabases |]. intros k Hk.
      destruct (Htables k Hk) as [Hold | (t & -> & Hin & Hnot)]; [auto |].
      right. exists t. split; [reflexivity |]. split; [right; exact Hin | exact Hnot].
    + destruct (collectTableInfo env c _ false None false s) as [[] s1 | e s1 | s1] eqn:Hstep;
        try discriminate.
      apply collectTableInfo_adds in Hstep. destruct Hstep as [Hdatabases1 Hstep].
      assert (Hfirst : forall k,
                 is_Some (table_infos s1 !! k) ->
                 is_Some (table_infos s !! k)
                 \/ k = mkTableKey (mkQualifiedTableName database_name table) false).
      { intros k Hk. destruct Hstep as [Hsame | (table_info & Hinsert)].
        - left. rewrite <- Hsame. exact Hk.
        - rewrite Hinsert in Hk.
          destruct (decide (mkTableKey (mkQualifiedTableName database_name table) false = k))
            as [<- | Hne]; [auto |].
          rewrite lookup_insert_ne in Hk by exact Hne. auto. }
      assert (Hhere : forall k,
                 is_Some (table_infos s1 !! k) ->
                 is_Some (table_infos s !! k)
                 \/ exists t,
                      k = mkTableKey (mkQualifiedTableName database_name t) false
                      /\ t ∈ table :: rest
                      /\ (database_name, t) ∉ except_table_names).
      { intros k Hk. destruct (Hfirst k Hk) as [Hold | ->]; [auto |].
        right. exists table. split; [reflexivity |]. split; [left | exact Hallowed]. }
      destruct (consistent s1).
      * intros Hrest. destruct (IH s1 Hrest) as [Hdatabases Htables].
        split; [congruence |]. intros k Hk.
        destruct (Htables k Hk) as [Hold | (t & -> & Hin & Hnot)]; [auto |].
        right. exists t. split; [reflexivity |]. split; [right; exact Hin | exact Hnot].
      * intros [= <-]. auto.
Qed.

(** What a database element may add. *)
Lemma collectDatabaseInfo_adds (env : Environment) (c : Catalog)
    (database_name : string) (except_table_names : gset (string * string))
    (throw_if_not_found : bool) (s s' : Collector) :
  collectDatabaseInfo env c database_name except_table_names throw_if_not_found s = Ok tt s' ->
  (forall name,
     is_Some (database_infos s' !! name) ->
     is_Some (database_infos s !! name) \/ name = database_name)
  /\ (forall k,
        is_Some (table_infos s' !! k) ->
        is_Some (table_infos s !! k)
        \/ exists database create names table,
             gather_database c database_name throw_if_not_found
             = inr (Some (database, create))
             /\ getTablesIteratorForBackup c database = inr names
             /\ k = mkTableKey (mkQualifiedTableName database_name table) false
             /\ table ∈ names
             /\ (database_name, table) ∉ except_table_names).
Proof.
  unfold collectDatabaseInfo.
  destruct (gather_database c database_name throw_if_not_found)
    as [e | [[database create] |]] eqn:Hgather; [discriminate | |].
  - destruct (negb (String.eqb _ _)); [intros [= <-]; auto |].
    match goal with
    | |- context [if ?b then _ else _] => destruct b; [intros [= <-]; auto |]
    end.
    destruct (getTablesIteratorForBackup c database) as [e | names] eqn:Hnames;
      [discriminate |].
    intros Hloop. apply collectTablesOf_adds in Hloop. destruct Hloop as [Hdatabases Htables].
    split.
    + intros name Hname. rewrite Hdatabases in Hname. simpl in Hname.
      destruct (decide (database_name = name)) as [<- | Hne]; [auto |].
      rewrite lookup_insert_ne in Hname by exact Hne. auto.
    + intros k Hk. destruct (Htables k Hk) as [Hold | (t & -> & Hin & Hnot)]; [auto |].
      right. exists database, create, names, t. auto.
  - intros [= <-]. auto.
Qed.

(** X8: a database element collects no database but the one it names and,
    of tables, only tables that the database found under that name lists
    itself and the query does not except; it collects no temporary table,
    and no table of the exception list that had not been collected by an
    earlier element. *)
Theorem database_element_collects_listed (env : Environment) (c : Catalog)
    (database_name : string) (except_table_names : gset (string * string))
    (throw_if_not_found : bool) (s s' : Collector) :
  collectDatabaseInfo env c database_name except_table_names throw_if_not_found s = Ok tt s' ->
  (forall name,
     is_Some (database_infos s' !! name) ->
     is_Some (database_infos s !! name) \/ name = database_name)
  /\ (forall k,
        is_Some (table_infos s' !! k) ->
        is_Some (table_infos s !! k)
        \/ exists database create names table,
             gather_database c database_name throw_if_not_found
             = inr (Some (database, create))
             /\ getTablesIteratorForBackup c database = inr names
             /\ k = mkTableKey (mkQualifiedTableName database_name table) false
             /\ table ∈ names
             /\ (database_name, table) ∉ except_table_names).
Proof. apply collectDatabaseInfo_adds. Qed.

Lemma database_element_collects_listed_witness :
  exists s',
    collectDatabaseInfo shard_environment db1_catalog "db1" {[("db1", "t2")]} true
      new_collector = Ok tt s'
    /\ table_infos s' !! mkTableKey (mkQualifiedTableName "db1" "t2") false = None.
Proof.
  pose (s' := final (collectDatabaseInfo shard_environment db1_catalog "db1"
                       {[("db1", "t2")]} true new_collector)).
  assert (Hrun : collectDatabaseInfo shard_environment db1_catalog "db1" {[("db1", "t2")]}
                   true new_collector = Ok tt s').
  { vm_compute. reflexivity. }
  exists s'. split; [exact Hrun |].
  destruct (database_element_collects_listed _ _ _ _ _ _ _ Hrun) as [_ Htables].
  apply eq_None_not_Some. intros Hcollected.
  destruct (Htables _ Hcollected)
    as [Hold | (database & create & names & table & _ & _ & Hkey & _ & Hnot)].
  - destruct Hold as [? Hold]. discriminate Hold.
  - injection Hkey as <-. apply Hnot. set_solver.
Defined.

(** X9: an element for all databases collects only databases that the
    catalog lists and the query does not except, and of tables only tables
    of such databases that the query does not except, none of them
    temporary. *)
Theorem all_databases_collects_listed (env : Environment) (c : Catalog)
    (except_database_names : gset string) (except_table_names : gset (string * string))
    (s s' : Collector) :
  collectAllDatabasesInfo env c except_database_names except_table_names s = Ok tt s' ->
  (forall name,
     is_Some (database_infos s' !! name) ->
     is_Some (database_infos s !! name)
     \/ (name ∈ (getDatabases c).*1 /\ name ∉ except_database_names))
  /\ (forall k,
        is_Some (table_infos s' !! k) ->
        is_Some (table_infos s !! k)
        \/ (key_is_temporary k = false
            /\ qtn_database (key_name k) ∈ (getDatabases c).*1
            /\ (qtn_database (key_name k) ∉ except_database_names)
            /\ (qtn_database (key_name k), qtn_table (key_name k)) ∉ except_table_names)).
Proof.
  unfold collectAllDatabasesInfo. generalize (getDatabases c). intros dbs. revert s.
  induction dbs as [| [database_name database] rest IH]; intros s; simpl.
  - intros [= <-]. auto.
  - destruct (bool_decide_reflect (database_name ∈ except_database_names))
      as [Hexcept | Hallowed].
    + intros Hrest. destruct (IH s Hrest) as [Hdatabases Htables]. split.
      * intros name Hname. destruct (Hdatabases name Hname) as [Hold | [Hin Hnot]]; [auto |].
        right. split; [right; exact Hin | exact Hnot].
      * intros k Hk. destruct (Htables k Hk) as [Hold | (Ht & Hin & Hnot & Hnot')]; [auto |].
        right. repeat split; try assumption. right. exact Hin.
    + destruct (collectDatabaseInfo env c database_name except_table_names false s)
        as [[] s1 | e s1 | s1] eqn:Hstep; try discriminate.
      apply collectDatabaseInfo_adds in Hstep.
      destruct Hstep as [Hdatabases1 Htables1].
      assert (Hdatabases_here : forall name,
                 is_Some (database_infos s1 !! name) ->
                 is_Some (database_infos s !! name)
                 \/ (name ∈ (database_name :: rest.*1) /\ name ∉ except_database_names)).
      { intros name Hname. destruct (Hdatabases1 name Hname) as [Hold | ->]; [auto |].
        right. split; [left | exact Hallowed]. }
      assert (Htables_here : forall k,
                 is_Some (table_infos s1 !! k) ->
                 is_Some (table_infos s !! k)
                 \/ (key_is_temporary k = false
                     /\ qtn_database (key_name k) ∈ (database_name :: rest.*1)
                     /\ (qtn_database (key_name k) ∉ except_database_names)
                     /\ (qtn_database (key_name k), qtn_table (key_name k))
                        ∉ except_table_names)).
      { intros k Hk.
        destruct (Htables1 k Hk) as [Hold | (_ & _ & _ & table & _ & _ & -> & _ & Hnot)];
          [auto |].
        right. simpl. repeat split; try assumption. left. }
      destruct (consistent s1).
      * intros Hrest. destruct (IH s1 Hrest) as [Hdatabases Htables]. split.
        -- intros name Hname.
           destruct (Hdatabases name Hname) as [Hold | [Hin Hnot]]; [auto |].
           right. split; [right; exact Hin | exact Hnot].
        -- intros k Hk.
           destruct (Htables k Hk) as [Hold | (Ht & Hin & Hnot & Hnot')]; [auto |].
           right. repeat split; try assumption. right. exact Hin.
      * intros [= <-]. auto.
Qed.

Lemma all_databases_collects_listed_witness :
  exists s',
    collectAllDatabasesInfo shard_environment db1_catalog {["db1"]} ∅ new_collector = Ok tt s'
    /\ database_infos s' !! "db1" = None.
Proof.
  pose (s' := final (collectAllDatabasesInfo shard_environment db1_catalog {["db1"]} ∅
                       new_collector)).
  assert (Hrun : collectAllDatabasesInfo shard_environment db1_catalog {["db1"]} ∅
                   new_collector = Ok tt s').
  { vm_compute. reflexivity. }
  exists s'. split; [exact Hrun |].
  destruct (all_databases_collects_listed _ _ _ _ _ _ Hrun) as [Hdatabases _].
  apply eq_None_not_Some. intros Hcollected.
  destruct (Hdatabases _ Hcollected) as [[? Hold] | [_ Hnot]].
  - discriminate Hold.
  - apply Hnot. set_solver.
Defined.

(** ** The scan: what it returns *)

Lemma scan_pass_outside (env : Environment) (cfg : Config) (pass : nat) (s : Collector) :
  outside_scan (final (scan_pass env cfg pass s)) = outside_scan s.
Proof.
  unfold scan_pass.
  pose proof (collectElements_frame env (catalog_at env pass) (backup_query_elements cfg)
                (begin_pass s)) as Hframe.
  apply (f_equal outside_scan) in Hframe.
  change (outside_scan (begin_pass (begin_pass s))) with (outside_scan s) in Hframe.
  destruct (collectElements env _ _ (begin_pass s)) as [[] s1 | e s1 | s1];
    simpl in *; try exact Hframe.
  rewrite <- Hframe. unfold checkConsistency.
  repeat match goal with
         | |- context [if ?b then _ else _] => destruct b; try reflexivity
         end.
Qed.

Lemma scan_loop_outside (env : Environment) (cfg : Config) (fuel pass : nat) (s : Collector) :
  outside_scan (final (scan_loop env cfg fuel pass s)) = outside_scan s
  /\ exists added,
       trace (final (scan_loop env cfg fuel pass s)) = trace s ++ added
       /\ Forall scan_log added.
Proof.
  revert pass s. induction fuel as [| fuel IH]; intros pass s; cbn [scan_loop].
  - split; [reflexivity |]. exists []. rewrite app_nil_r. auto.
  - pose proof (scan_pass_outside env cfg pass s) as Hpass.
    pose proof (scan_pass_trace env cfg pass s) as Htrace.
    assert (Hhere : forall o : Outcome nat,
               outside_scan (final o) = outside_scan (final (scan_pass env cfg pass s)) ->
               trace (final o) = trace (final (scan_pass env cfg pass s)) ->
               outside_scan (final o) = outside_scan s
               /\ exists added, trace (final o) = trace s ++ added /\ Forall scan_log added).
    { intros o Ho Ht. split; [congruence |]. exists []. rewrite app_nil_r.
      split; [congruence | constructor]. }
    destruct (scan_pass env cfg pass s) as [[] s1 | e s1 | s1]; simpl in Hpass, Htrace;
      try (apply Hhere; reflexivity).
    match goal with
    | |- context [if ?b then Throw _ _ else _] =>
        destruct b; [apply Hhere; reflexivity |]
    end.
    set (s2 := if (2 <=? pass)%nat then emit (LogCouldntCollect pass (elapsed_at env pass)) s1
               else s1).
    assert (Hlogged : outside_scan s2 = outside_scan s
                      /\ exists added, trace s2 = trace s ++ added /\ Forall scan_log added).
    { subst s2. destruct (2 <=? pass)%nat.
      - split; [exact Hpass |]. exists [LogCouldntCollect pass (elapsed_at env pass)].
        simpl. rewrite Htrace. split; [reflexivity | repeat constructor].
      - split; [exact Hpass |]. exists []. rewrite app_nil_r, Htrace. auto. }
    destruct (consistent s2); [exact Hlogged |].
    destruct (IH (S pass) s2) as (Houtside & added & Hadded & Hlogs).
    destruct Hlogged as (Houtside2 & added2 & Hadded2 & Hlogs2).
    split; [congruence |]. exists (added2 ++ added).
    rewrite Hadded, Hadded2, app_assoc. split; [reflexivity |].
    apply Forall_app. auto.
Qed.

Lemma collectDatabasesAndTablesInfo_outside (env : Environment) (cfg : Config) (fuel : nat) (s : Collector) :
  outside_scan (final (collectDatabasesAndTablesInfo env cfg fuel s)) = outside_scan s
  /\ exists added,
       trace (final (collectDatabasesAndTablesInfo env cfg fuel s)) = trace s ++ added
       /\ Forall scan_log added.
Proof.
  unfold collectDatabasesAndTablesInfo, bind.
  destruct (scan_loop_outside env cfg fuel 0 s) as (Houtside & added & Hadded & Hlogs).
  destruct (scan_loop env cfg fuel 0 s) as [n s1 | e s1 | s1]; simpl in *;
    try (split; [exact Houtside | exists added; split; assumption]).
  split; [exact Houtside |].
  exists (added ++ [LogWillBackup (size (database_infos s1)) (size (table_infos s1))]).
  rewrite Hadded, app_assoc. split; [reflexivity |].
  apply Forall_app. split; [exact Hlogs | repeat constructor].
Qed.

(** X10: a scan, however it ends, changes neither the stage nor the root
    path, the renaming map, the backup entries or the queue of tasks, and
    it logs warnings and its closing line only: it sends nothing to the
    coordination service and runs no task. *)
Theorem scan_leaves_rest (env : Environment) (cfg : Config) (fuel : nat) (s : Collector) :
  outside_scan (final (collectDatabasesAndTablesInfo env cfg fuel s)) = outside_scan s
  /\ exists added,
       trace (final (collectDatabasesAndTablesInfo env cfg fuel s)) = trace s ++ added
       /\ Forall scan_log added.
Proof. apply collectDatabasesAndTablesInfo_outside. Qed.

(** The pass a returned scan ended with. *)
Lemma scan_loop_Ok_inv (env : Environment) (cfg : Config) (fuel pass : nat)
    (s s' : Collector) (passes : nat) :
  scan_loop env cfg fuel pass s = Ok passes s' ->
  exists last s0 s1,
    pass <= last
    /\ passes = S last
    /\ (previous_database_names s = None -> pass < last)
    /\ collectElements env (catalog_at env last) (backup_query_elements cfg) (begin_pass s0)
       = Ok tt s1
    /\ consistent s1 = true
    /\ checkConsistency s1 = s1
    /\ outside_scan s0 = outside_scan s
    /\ (s' = s1 \/ s' = emit (LogCouldntCollect last (elapsed_at env last)) s1).
Proof.
  revert pass s. induction fuel as [| fuel IH]; intros pass s; cbn [scan_loop];
    [discriminate |].
  pose proof (scan_pass_outside env cfg pass s) as Houtside.
  pose proof (first_pass_not_accepted env cfg pass s) as Hfirst.
  destruct (scan_pass env cfg pass s) as [[] s1 | e s1 | s1] eqn:Hpass; try discriminate.
  simpl in Houtside.
  match goal with
  | |- context [if ?b then Throw _ _ else _] => destruct b; [discriminate |]
  end.
  set (s2 := if (2 <=? pass)%nat then emit (LogCouldntCollect pass (elapsed_at env pass)) s1
             else s1).
  assert (Hs2 : consistent s2 = consistent s1 /\ outside_scan s2 = outside_scan s1
                /\ (s2 = s1 \/ s2 = emit (LogCouldntCollect pass (elapsed_at env pass)) s1)).
  { subst s2. destruct (2 <=? pass)%nat; auto. }
  destruct Hs2 as (Hsame & Houtside2 & Hlogged).
  destruct (consistent s2) eqn:Hconsistent.
  - intros [= <- <-].
    unfold scan_pass in Hpass.
    destruct (collectElements env _ _ (begin_pass s)) as [[] s3 | e s3 | s3] eqn:Hcollect;
      try discriminate.
    injection Hpass as <-.
    symmetry in Hsame.
    destruct (checkConsistency_accepted s3 Hsame) as [Hconsistent3 Hchecked].
    rewrite Hchecked in *.
    exists pass, s, s3. repeat split; auto.
    intros Hprevious. specialize (Hfirst s3 Hprevious eq_refl). congruence.
  - intros Hrest. destruct (IH (S pass) s2 Hrest)
      as (last & s0 & s3 & Hle & Hpasses & _ & Hcollect & Hconsistent3 & Hchecked
          & Houtside0 & Hresult).
    exists last, s0, s3. repeat split; auto; try lia. congruence.
Qed.

(** ** The scan: what it collects is what it was looking for *)

Section DefinitionsMatch.

Context (env : Environment) (c : Catalog).

Lemma collectTableInfo_matches table_name is_temporary_table partitions throw_if_not_found s :
  definitions_match env s ->
  definitions_match env
    (final (collectTableInfo env c table_name is_temporary_table partitions
              throw_if_not_found s)).
Proof.
  intros Hmatch. unfold collectTableInfo.
  destruct (gather_table c table_name is_temporary_table throw_if_not_found)
    as [e | [[[database storage] table_lock] [create |]]]; simpl; try exact Hmatch.
  destruct (negb (String.eqb (getTable_of create) (qtn_table table_name))
            || negb (Bool.eqb is_temporary_table (temporary create))
            || negb (String.eqb (getDatabase_of create) (qtn_database table_name)))
    eqn:Hnames; simpl; [exact Hmatch |].
  match goal with
  | |- context [if ?b then _ else _] => destruct b; simpl; [exact Hmatch |]
  end.
  apply orb_false_iff in Hnames as [Hnames Hdatabase].
  apply orb_false_iff in Hnames as [Htable Htemporary].
  apply negb_false_iff in Htable, Htemporary, Hdatabase.
  apply String.eqb_eq in Htable, Hdatabase. apply Bool.eqb_prop in Htemporary.
  destruct Hmatch as [Htables Hdatabases]. split; [| exact Hdatabases].
  intros k table_info. cbn. rewrite lookup_insert_Some.
  intros [[<- <-] | [_ Hold]]; [| exact (Htables _ _ Hold)].
  cbn. repeat split; auto.
Qed.

Lemma collectTablesOf_matches database_name except_table_names names s :
  definitions_match env s ->
  definitions_match env
    (final (collectTablesOf env c database_name except_table_names names s)).
Proof.
  revert s. induction names as [| table rest IH]; intros s Hmatch; simpl; [exact Hmatch |].
  destruct (bool_decide _); [apply IH, Hmatch |].
  pose proof (collectTableInfo_matches (mkQualifiedTableName database_name table)
                false None false s Hmatch) as Hstep.
  destruct (collectTableInfo env c _ false None false s) as [[] s1 | e s1 | s1];
    simpl in *; try exact Hstep.
  destruct (consistent s1); simpl; [apply IH |]; exact Hstep.
Qed.

Lemma collectDatabaseInfo_matches database_name except_table_names throw_if_not_found s :
  definitions_match env s ->
  definitions_match env
    (final (collectDatabaseInfo env c database_name except_table_names throw_if_not_found s)).
Proof.
  intros Hmatch. unfold collectDatabaseInfo.
  destruct (gather_database c database_name throw_if_not_found)
    as [e | [[database create] |]]; simpl; try exact Hmatch.
  destruct (negb (String.eqb (getDatabase_of create) database_name)) eqn:Hname; simpl;
    [exact Hmatch |].
  match goal with
  | |- context [if ?b then _ else _] => destruct b; simpl; [exact Hmatch |]
  end.
  apply negb_false_iff, String.eqb_eq in Hname.
  assert (Hinserted : definitions_match env
            (set_database_infos
               (<[database_name := mkDatabaseInfo database create]> (database_infos s)) s)).
  { destruct Hmatch as [Htables Hdatabases]. split; [exact Htables |].
    intros name database_info. cbn. rewrite lookup_insert_Some.
    intros [[<- <-] | [_ Hold]]; [exact Hname | exact (Hdatabases _ _ Hold)]. }
  destruct (getTablesIteratorForBackup c database) as [e | names]; simpl;
    [exact Hinserted |].
  apply collectTablesOf_matches, Hinserted.
Qed.

Lemma collectAllDatabasesInfo_loop_matches except_database_names except_table_names dbs s :
  definitions_match env s ->
  definitions_match env
    (final (collectAllDatabasesInfo_loop env c except_database_names except_table_names dbs s)).
Proof.
  revert s. induction dbs as [| [database_name database] rest IH]; intros s Hmatch; simpl;
    [exact Hmatch |].
  destruct (bool_decide _); [apply IH, Hmatch |].
  pose proof (collectDatabaseInfo_matches database_name except_table_names false s Hmatch)
    as Hstep.
  destruct (collectDatabaseInfo env c database_name except_table_names false s)
    as [[] s1 | e s1 | s1]; simpl in *; try exact Hstep.
  destruct (consistent s1); simpl; [apply IH |]; exact Hstep.
Qed.

Lemma collectElement_matches element s :
  definitions_match env s ->
  definitions_match env (final (collectElement env c element s)).
Proof.
  unfold collectElement, collectAllDatabasesInfo. destruct (type element).
  - apply collectTableInfo_matches.
  - apply collectTableInfo_matches.
  - apply collectDatabaseInfo_matches.
  - apply collectAllDatabasesInfo_loop_matches.
Qed.

Lemma collectElements_matches elements s :
  definitions_match env s ->
  definitions_match env (final (collectElements env c elements s)).
Proof.
  revert s. induction elements as [| element rest IH]; intros s Hmatch; [exact Hmatch |].
  cbn [collectElements]. unfold bind.
  pose proof (collectElement_matches element s Hmatch) as Hstep.
  destruct (collectElement env c element s) as [[] s1 | e s1 | s1]; simpl in *;
    try exact Hstep.
  apply IH, Hstep.
Qed.

End DefinitionsMatch.

Lemma begin_pass_matches (env : Environment) (s : Collector) :
  definitions_match env (begin_pass s).
Proof.
  split.
  - intros k table_info. cbn. rewrite lookup_empty. discriminate.
  - intros name database_info. cbn. rewrite lookup_empty. discriminate.
Qed.

Lemma definitions_match_frame (env : Environment) (s s' : Collector) :
  root_path_in_backup s' = root_path_in_backup s ->
  renaming_map s' = renaming_map s ->
  table_infos s' = table_infos s ->
  database_infos s' = database_infos s ->
  definitions_match env s -> definitions_match env s'.
Proof.
  intros Hroot Hrenaming Htables Hdatabases. unfold definitions_match, data_path_of.
  rewrite Hroot, Hrenaming, Htables, Hdatabases. auto.
Qed.

Lemma in_key_order_lookup (m : gmap TableKey TableInfo) (k : TableKey) (v : TableInfo) :
  In (k, v) (in_key_order m) <-> m !! k = Some v.
Proof.
  unfold in_key_order.
  assert (Hinsert : forall (kv x : TableKey * TableInfo) sorted,
             In kv (insert_by_key x sorted) <-> kv = x \/ In kv sorted).
  { intros kv x sorted. induction sorted as [| y sorted IH]; simpl; [intuition congruence |].
    destruct (TableKey_ltb x.1 y.1); simpl; [intuition congruence |].
    rewrite IH. intuition congruence. }
  assert (Hsort : forall kv (l : list (TableKey * TableInfo)),
             In kv (foldr insert_by_key [] l) <-> In kv l).
  { intros kv l. induction l as [| x l IH]; simpl; [tauto |].
    rewrite Hinsert, IH. intuition congruence. }
  rewrite Hsort, <- list_elem_of_In, elem_of_map_to_list. reflexivity.
Qed.

(** X11: what a scan that returns has collected.  The pass it ended with
    was accepted: the flag is up, the names recorded for the comparison
    with the previous pass are the names collected, and every collected
    table whose database was collected too was found in that very
    database.  Every definition is filed under the name it defines, every
    table has the data path made from its key, the root path and the
    renaming map, and a scan started without names from an earlier scan
    has made two passes at least. *)
Theorem scan_result_accepted (env : Environment) (cfg : Config) (fuel : nat)
    (s s' : Collector) (passes : nat) :
  collectDatabasesAndTablesInfo env cfg fuel s = Ok passes s' ->
  consistent s' = true
  /\ previous_database_names s' = Some (dom (database_infos s'))
  /\ previous_table_names s' = Some (dom (table_infos s'))
  /\ (forall k table_info database_info,
        table_infos s' !! k = Some table_info ->
        database_infos s' !! qtn_database (key_name k) = Some database_info ->
        di_database database_info = ti_database table_info)
  /\ definitions_match env s'
  /\ (previous_database_names s = None -> 2 <= passes).
Proof.
  unfold collectDatabasesAndTablesInfo, bind. intros Hscan.
  destruct (scan_loop env cfg fuel 0 s) as [n s1 | e s1 | s1] eqn:Hloop; try discriminate.
  injection Hscan as <- <-.
  destruct (scan_loop_Ok_inv _ _ _ _ _ _ _ Hloop)
    as (last & s0 & s2 & _ & -> & Hfirst & Hcollect & Hconsistent & Hchecked & Houtside
        & Hresult).
  assert (Hsame : consistent s1 = consistent s2
                  /\ previous_database_names s1 = previous_database_names s2
                  /\ previous_table_names s1 = previous_table_names s2
                  /\ table_infos s1 = table_infos s2
                  /\ database_infos s1 = database_infos s2
                  /\ root_path_in_backup s1 = root_path_in_backup s2
                  /\ renaming_map s1 = renaming_map s2).
  { destruct Hresult as [-> | ->]; repeat split; reflexivity. }
  destruct Hsame as (Hc & Hpd & Hpt & Ht & Hd & Hroot & Hrenaming).
  cbn. rewrite Hc, Hpd, Hpt, Ht, Hd.
  unfold checkConsistency in Hchecked. rewrite Hconsistent in Hchecked. simpl in Hchecked.
  destruct (databases_agree s2) eqn:Hagree; simpl in Hchecked;
    [| rewrite <- Hchecked in Hconsistent; discriminate].
  destruct (bool_decide (previous_database_names s2 = Some (dom (database_infos s2))))
    eqn:Hdatabases; simpl in Hchecked;
    [| rewrite <- Hchecked in Hconsistent; discriminate].
  destruct (bool_decide (previous_table_names s2 = Some (dom (table_infos s2))))
    eqn:Htables; simpl in Hchecked;
    [| rewrite <- Hchecked in Hconsistent; discriminate].
  apply bool_decide_eq_true_1 in Hdatabases, Htables.
  assert (Hmatch : definitions_match env s2).
  { pose proof (collectElements_matches env (catalog_at env last)
                  (backup_query_elements cfg) (begin_pass s0) (begin_pass_matches env s0))
      as Hmatch.
    rewrite Hcollect in Hmatch. exact Hmatch. }
  split; [exact Hconsistent |]. split; [exact Hdatabases |]. split; [exact Htables |].
  split; [| split].
  - intros k table_info database_info Htable Hdatabase.
    unfold databases_agree in Hagree. rewrite forallb_forall in Hagree.
    apply in_key_order_lookup, Hagree in Htable. cbn in Htable.
    rewrite Hdatabase in Htable. apply bool_decide_eq_true_1 in Htable. exact Htable.
  - apply (definitions_match_frame env s2); auto.
  - intros Hprevious. specialize (Hfirst Hprevious). lia.
Qed.

Lemma scan_result_accepted_witness :
  consistent (final (collectDatabasesAndTablesInfo shard_environment local_config 2
                       new_collector)) = true
  /\ 2 <= 2.
Proof.
  destruct (scan_result_accepted shard_environment local_config 2 new_collector
              (final (collectDatabasesAndTablesInfo shard_environment local_config 2
                        new_collector)) 2)
    as (Hconsistent & _ & _ & _ & _ & Hpasses).
  - vm_compute. reflexivity.
  - split; [exact Hconsistent | apply Hpasses; reflexivity].
Defined.

(** ** The scan: how it ends *)

Lemma scan_loop_ends (env : Environment) (cfg : Config) (bound : nat) :
  (0 <= timeout cfg)%Z ->
  (forall pass, bound <= pass -> (timeout cfg * 1000000000 < elapsed_at env pass)%Z) ->
  forall fuel pass s,
    1 <= fuel ->
    Nat.max 2 bound < pass + fuel ->
    match scan_loop env cfg fuel pass s with
    | Ok passes _ => passes <= S (Nat.max pass (Nat.max 2 bound))
    | Throw _ _ => True
    | OutOfFuel _ => False
    end.
Proof.
  intros Htimeout Hlate.
  assert (Huse : (0 <=? timeout cfg)%Z = true) by (apply Z.leb_le; exact Htimeout).
  induction fuel as [| fuel IH]; intros pass s Hfuel Hbound; [lia |].
  cbn [scan_loop].
  destruct (scan_pass env cfg pass s) as [[] s1 | e s1 | s1] eqn:Hpass.
  - destruct (consistent s1) eqn:Hconsistent; cbn [negb andb].
    + assert (Hsame : consistent (if (2 <=? pass)%nat
                                  then emit (LogCouldntCollect pass (elapsed_at env pass)) s1
                                  else s1) = true).
      { destruct (2 <=? pass)%nat; exact Hconsistent. }
      rewrite Hsame. lia.
    + rewrite Huse. cbn [andb].
      destruct (Nat.le_gt_cases (Nat.max 2 bound) pass) as [Hreached | Hbefore].
      * assert (Htwo : (2 <=? pass)%nat = true) by (apply Nat.leb_le; lia).
        assert (Hover : exceeds_timeout cfg (elapsed_at env pass) = true).
        { apply exceeds_timeout_late; [exact Htimeout | apply Hlate; lia]. }
        rewrite Htwo, Hover. exact I.
      * match goal with
        | |- context [if ?b then Throw _ _ else _] => destruct b; [exact I |]
        end.
        assert (Hsame : consistent (if (2 <=? pass)%nat
                                    then emit (LogCouldntCollect pass (elapsed_at env pass)) s1
                                    else s1) = false).
        { destruct (2 <=? pass)%nat; exact Hconsistent. }
        rewrite Hsame.
        specialize (IH (S pass)
                      (if (2 <=? pass)%nat
                       then emit (LogCouldntCollect pass (elapsed_at env pass)) s1
                       else s1)).
        destruct (scan_loop env cfg fuel (S pass) _) as [passes s2 | e s2 | s2];
          try exact I; [assert (passes <= S (Nat.max (S pass) (Nat.max 2 bound))) by
                          (apply IH; lia); lia | apply IH; lia].
  - exact I.
  - (* a pass is never out of fuel *)
    unfold scan_pass in Hpass.
    pose proof (collectElements_finished env (catalog_at env pass)
                  (backup_query_elements cfg) (begin_pass s)) as Hfinished.
    destruct (collectElements env _ _ (begin_pass s)); try discriminate.
Qed.

(** X12: a scan with a deadline ends.  With a timeout that is not negative
    and a clock that is past the deadline from pass number [bound] on, the
    scan returns or throws within [max 2 bound + 1] passes, whatever the
    catalog does: it never asks for more, and when it returns it has made
    no more passes than that. *)
Theorem scan_with_deadline_ends (env : Environment) (cfg : Config) (bound fuel : nat)
    (s : Collector) :
  (0 <= timeout cfg)%Z ->
  (forall pass, bound <= pass -> (timeout cfg * 1000000000 < elapsed_at env pass)%Z) ->
  Nat.max 2 bound < fuel ->
  finished (collectDatabasesAndTablesInfo env cfg fuel s) = true
  /\ forall passes s',
       collectDatabasesAndTablesInfo env cfg fuel s = Ok passes s' ->
       passes <= S (Nat.max 2 bound).
Proof.
  intros Htimeout Hlate Hfuel.
  pose proof (scan_loop_ends env cfg bound Htimeout Hlate fuel 0 s) as Hends.
  unfold collectDatabasesAndTablesInfo, bind.
  destruct (scan_loop env cfg fuel 0 s) as [n s1 | e s1 | s1]; simpl.
  - split; [reflexivity |]. intros passes s' [= <- _]. apply Hends; lia.
  - split; [reflexivity | discriminate].
  - exfalso. apply Hends; lia.
Qed.

Lemma scan_with_deadline_ends_witness :
  finished (collectDatabasesAndTablesInfo restless_environment hurried_config 5
              new_collector) = true.
Proof.
  apply (scan_with_deadline_ends restless_environment hurried_config 4 5 new_collector).
  - vm_compute. discriminate.
  - intros pass Hpass. change (3 * 1000000000 < Z.of_nat pass * 1000000000)%Z. lia.
  - vm_compute. lia.
Defined.

Lemma scan_loop_throws (env : Environment) (cfg : Config) (fuel pass : nat)
    (s s' : Collector) (e : Exception) :
  scan_loop env cfg fuel pass s = Throw e s' ->
  (exists last s0,
     pass <= last
     /\ collectElements env (catalog_at env last) (backup_query_elements cfg) (begin_pass s0)
        = Throw e s')
  \/ (exists last,
        pass <= last /\ 2 <= last
        /\ (0 <= timeout cfg)%Z
        /\ (wrap_int64 (timeout cfg * 1000000000) < elapsed_at env last)%Z
        /\ e = DBException CANNOT_COLLECT_OBJECTS_FOR_BACKUP
                 ("Couldn't collect tables and databases to make a backup (pass #"
                    +:+ pretty last +:+ ", elapsed "
                    +:+ elapsed_to_string env (elapsed_at env last) +:+ ")")
        /\ consistent s' = false).
Proof.
  revert pass s. induction fuel as [| fuel IH]; intros pass s; cbn [scan_loop];
    [discriminate |].
  destruct (scan_pass env cfg pass s) as [[] s1 | e1 s1 | s1] eqn:Hpass; try discriminate.
  - destruct (negb (consistent s1) && (2 <=? pass)%nat && (0 <=? timeout cfg)%Z
              && exceeds_timeout cfg (elapsed_at env pass)) eqn:Hdeadline.
    + intros [= <- <-]. right. exists pass.
      apply andb_true_iff in Hdeadline as [Hdeadline Hover].
      apply andb_true_iff in Hdeadline as [Hdeadline Huse].
      apply andb_true_iff in Hdeadline as [Hrejected Htwo].
      apply negb_true_iff in Hrejected. apply Nat.leb_le in Htwo. apply Z.leb_le in Huse.
      unfold exceeds_timeout in Hover. apply Z.ltb_lt in Hover.
      split; [lia |]. split; [exact Htwo |]. split; [exact Huse |].
      split; [exact Hover |]. split; [reflexivity | exact Hrejected].
    + match goal with
      | |- context [consistent ?s2] => destruct (consistent s2); [discriminate |]
      end.
      intros Hrest. apply IH in Hrest.
      destruct Hrest as [(last & s0 & Hle & Hthrow) | (last & Hle & Hrest)].
      * left. exists last, s0. split; [lia | exact Hthrow].
      * right. exists last. split; [lia | exact Hrest].
  - intros [= <- <-]. left. exists pass, s. split; [lia |].
    unfold scan_pass in Hpass.
    destruct (collectElements env _ _ (begin_pass s)) as [[] s2 | e2 s2 | s2];
      congruence.
Qed.

(** X13: what a scan throws.  An exception leaves the scan either out of
    collecting one of the query's elements, as the catalog threw it and
    with the collector as that pass left it, or it is the exception with
    the code [CANNOT_COLLECT_OBJECTS_FOR_BACKUP] and the number and the
    elapsed time of a pass that was not accepted.  Then the timeout is not
    negative, the pass is numbered 2 or more, and it ended after the
    deadline as the code computes it: the timeout in nanoseconds, in 64
    bits.  For a timeout that fits there this is the deadline; for a
    larger one the product wraps around and the scan may be cut off
    before the timeout has passed.  The first two passes are never cut
    off. *)
Theorem scan_throws (env : Environment) (cfg : Config) (fuel : nat)
    (s s' : Collector) (e : Exception) :
  collectDatabasesAndTablesInfo env cfg fuel s = Throw e s' ->
  (exists last s0,
     collectElements env (catalog_at env last) (backup_query_elements cfg) (begin_pass s0)
     = Throw e s')
  \/ (exists last,
        2 <= last
        /\ (0 <= timeout cfg)%Z
        /\ (wrap_int64 (timeout cfg * 1000000000) < elapsed_at env last)%Z
        /\ ((timeout cfg * 1000000000 < 2 ^ 63)%Z ->
            (timeout cfg * 1000000000 < elapsed_at env last)%Z)
        /\ e = DBException CANNOT_COLLECT_OBJECTS_FOR_BACKUP
                 ("Couldn't collect tables and databases to make a backup (pass #"
                    +:+ pretty last +:+ ", elapsed "
                    +:+ elapsed_to_string env (elapsed_at env last) +:+ ")")
        /\ consistent s' = false).
Proof.
  unfold collectDatabasesAndTablesInfo, bind. intros Hscan.
  destruct (scan_loop env cfg fuel 0 s) as [n s1 | e1 s1 | s1] eqn:Hloop; try discriminate.
  injection Hscan as -> ->.
  destruct (scan_loop_throws _ _ _ _ _ _ _ Hloop)
    as [(last & s0 & _ & Hthrow) | (last & _ & Htwo & Huse & Hlate & Herror & Hrejected)].
  - left. exists last, s0. exact Hthrow.
  - right. exists last.
    split; [exact Htwo |]. split; [exact Huse |]. split; [exact Hlate |].
    split; [| split; [exact Herror | exact Hrejected]].
    intros Hfits. rewrite wrap_int64_fits in Hlate by lia. exact Hlate.
Qed.

Lemma scan_throws_witness :
  (exists last,
     2 <= last
     /\ DBException CANNOT_COLLECT_OBJECTS_FOR_BACKUP
          "Couldn't collect tables and databases to make a backup (pass #4, elapsed 4000000000ns)"
        = DBException CANNOT_COLLECT_OBJECTS_FOR_BACKUP
            ("Couldn't collect tables and databases to make a backup (pass #"
               +:+ pretty last +:+ ", elapsed "
               +:+ elapsed_to_string restless_environment
                     (elapsed_at restless_environment last) +:+ ")"))
  /\ exists s',
       collectDatabasesAndTablesInfo restless_environment overflowing_config 5 new_collector
       = Throw
           (DBException CANNOT_COLLECT_OBJECTS_FOR_BACKUP
              "Couldn't collect tables and databases to make a backup (pass #2, elapsed 2000000000ns)")
           s'.
Proof.
  split.
  - destruct (scan_throws restless_environment hurried_config 5 new_collector
                (final (collectDatabasesAndTablesInfo restless_environment hurried_config 5
                          new_collector))
                (DBException CANNOT_COLLECT_OBJECTS_FOR_BACKUP
                   "Couldn't collect tables and databases to make a backup (pass #4, elapsed 4000000000ns)"))
      as [(last & s0 & Hthrow) | (last & Htwo & _ & _ & _ & Herror & _)].
    + vm_compute. reflexivity.
    + exfalso. pose proof (restless_pass hurried_config last s0 eq_refl) as Hpass.
      unfold scan_pass in Hpass. rewrite Hthrow in Hpass. discriminate Hpass.
    + exists last. auto.
  - eexists. vm_compute. reflexivity.
Defined.

Lemma scan_loop_warnings (env : Environment) (cfg : Config) (fuel pass : nat)
    (s s' : Collector) (passes : nat) :
  scan_loop env cfg fuel pass s = Ok passes s' ->
  pass < passes
  /\ warnings (trace s')
     = warnings (trace s)
       ++ map (fun p => (p, elapsed_at env p))
            (List.filter (fun p => (2 <=? p)%nat) (seq pass (passes - pass))).
Proof.
  revert pass s. induction fuel as [| fuel IH]; intros pass s; cbn [scan_loop];
    [discriminate |].
  pose proof (scan_pass_trace env cfg pass s) as Htrace.
  destruct (scan_pass env cfg pass s) as [[] s1 | e s1 | s1]; try discriminate.
  simpl in Htrace.
  match goal with
  | |- context [if ?b then Throw _ _ else _] => destruct b; [discriminate |]
  end.
  set (s2 := if (2 <=? pass)%nat then emit (LogCouldntCollect pass (elapsed_at env pass)) s1
             else s1).
  assert (Hlogged : warnings (trace s2)
                    = warnings (trace s)
                      ++ map (fun p => (p, elapsed_at env p))
                           (List.filter (fun p => (2 <=? p)%nat) [pass])).
  { subst s2. cbn [List.filter]. destruct (2 <=? pass)%nat; simpl.
    - rewrite warnings_app, Htrace. reflexivity.
    - rewrite Htrace, app_nil_r. reflexivity. }
  destruct (consistent s2).
  - intros [= <- <-]. split; [lia |].
    replace (S pass - pass) with 1 by lia. exact Hlogged.
  - intros Hrest. apply IH in Hrest. destruct Hrest as [Hlt Hwarnings].
    split; [lia |].
    replace (passes - pass) with (S (passes - S pass)) by lia.
    change (seq pass (S (passes - S pass))) with ([pass] ++ seq (S pass) (passes - S pass)).
    rewrite List.filter_app, map_app, app_assoc, <- Hlogged. exact Hwarnings.
Qed.

(** X14: the warnings of a scan that returns.  Every pass from the third
    on logs the warning that the objects could not be collected, the pass
    that was accepted too: a scan that returns after [passes] passes has
    logged one warning for each pass number from 2 to [passes - 1], in
    order and with the time elapsed at that pass, and no other. *)
Theorem scan_warnings (env : Environment) (cfg : Config) (fuel : nat)
    (s s' : Collector) (passes : nat) :
  collectDatabasesAndTablesInfo env cfg fuel s = Ok passes s' ->
  warnings (trace s')
  = warnings (trace s) ++ map (fun p => (p, elapsed_at env p)) (seq 2 (passes - 2)).
Proof.
  unfold collectDatabasesAndTablesInfo, bind. intros Hscan.
  destruct (scan_loop env cfg fuel 0 s) as [n s1 | e s1 | s1] eqn:Hloop; try discriminate.
  injection Hscan as <- <-.
  apply scan_loop_warnings in Hloop. destruct Hloop as [Hpositive Hwarnings].
  cbn [trace emit]. rewrite warnings_app, Hwarnings. cbn [warnings omap].
  rewrite app_nil_r, Nat.sub_0_r. f_equal. f_equal.
  clear. assert (Hfilter : forall count start,
                    2 <= start ->
                    List.filter (fun p => (2 <=? p)%nat) (seq start count) = seq start count).
  { induction count as [| count IH]; intros start Hstart; [reflexivity |].
    cbn [seq List.filter]. destruct (Nat.leb_spec 2 start); [| lia].
    rewrite IH by lia. reflexivity. }
  destruct n as [| [| n]]; [reflexivity | reflexivity |].
  change (seq 0 (S (S n))) with ([0; 1] ++ seq 2 n).
  rewrite List.filter_app. cbn [List.filter Nat.leb app].
  replace (S (S n) - 2) with n by lia. apply Hfilter. lia.
Qed.

Lemma scan_warnings_witness :
  warnings (trace (final (collectDatabasesAndTablesInfo settling_environment patient_config 3
                            new_collector)))
  = [(2, 2%Z)].
Proof.
  apply (scan_warnings settling_environment patient_config 3 new_collector
           (final (collectDatabasesAndTablesInfo settling_environment patient_config 3
                     new_collector)) 3).
  vm_compute. reflexivity.
Defined.

(** ** The stages of a run *)

Lemma stages_synced_app (t1 t2 : list Event) :
  stages_synced (t1 ++ t2) = stages_synced t1 ++ stages_synced t2.
Proof. apply omap_app. Qed.

Lemma syncs_silent {A} (m : M A) :
  (forall s, stages_synced (trace (final (m s))) = stages_synced (trace s)) ->
  syncs m [].
Proof.
  intros Hsilent s. exists 0. rewrite Hsilent. simpl. rewrite app_nil_r.
  split; [reflexivity | intros; simpl; lia].
Qed.

Lemma syncs_bind {A B} (m : M A) (k : A -> M B) (l1 l2 : list Stage) :
  syncs m l1 -> (forall a, syncs (k a) l2) -> syncs (bind m k) (l1 ++ l2).
Proof.
  intros Hm Hk s. destruct (Hm s) as (n1 & Hsynced1 & Hall1). unfold bind.
  destruct (m s) as [a s1 | e s1 | s1] eqn:Hrun; simpl in Hsynced1.
  - specialize (Hall1 a s1 eq_refl).
    destruct (Hk a s1) as (n2 & Hsynced2 & Hall2).
    exists (length l1 + n2). split.
    + rewrite Hsynced2, Hsynced1, firstn_app_2, firstn_all2 by exact Hall1.
      rewrite app_assoc. reflexivity.
    + intros b s' Hrest. specialize (Hall2 b s' Hrest). rewrite length_app. lia.
  - exists (Nat.min n1 (length l1)). split; [| discriminate].
    simpl. rewrite Hsynced1, firstn_app.
    replace (Nat.min n1 (length l1) - length l1) with 0 by lia.
    rewrite firstn_O, app_nil_r. f_equal.
    destruct (Nat.le_gt_cases n1 (length l1)).
    + rewrite Nat.min_l by lia. reflexivity.
    + rewrite Nat.min_r, !firstn_all2 by lia. reflexivity.
  - exists (Nat.min n1 (length l1)). split; [| discriminate].
    simpl. rewrite Hsynced1, firstn_app.
    replace (Nat.min n1 (length l1) - length l1) with 0 by lia.
    rewrite firstn_O, app_nil_r. f_equal.
    destruct (Nat.le_gt_cases n1 (length l1)).
    + rewrite Nat.min_l by lia. reflexivity.
    + rewrite Nat.min_r, !firstn_all2 by lia. reflexivity.
Qed.

Lemma syncs_setStage (env : Environment) (cfg : Config) (new_stage : Stage)
    (message : string) :
  syncs (setStage env cfg new_stage message) [new_stage].
Proof.
  intros s. exists 1. split; [| intros; simpl; lia].
  unfold setStage.
  destruct (decide (new_stage = kError)) as [-> | Hstage];
    destruct (coordination env _ _); simpl;
    rewrite !stages_synced_app; simpl; rewrite app_nil_r; reflexivity.
Qed.

Lemma run_actions_silent (acts : list Action) (s : Collector) :
  stages_synced (trace (final (run_actions acts s))) = stages_synced (trace s).
Proof.
  revert s. induction acts as [| a rest IH]; intros s; simpl; [reflexivity |].
  unfold bind.
  assert (Hstep : stages_synced (trace (final (run_action a s))) = stages_synced (trace s)).
  { destruct a; simpl; unfold addBackupEntry, addBackupEntries, addPostCollectingTask, throw;
      try destruct (decide _); simpl; rewrite ?stages_synced_app; simpl;
      rewrite ?app_nil_r; reflexivity. }
  destruct (run_action a s) as [[] s1 | e s1 | s1]; simpl in *; try exact Hstep.
  rewrite IH. exact Hstep.
Qed.

Lemma runPostCollectingTasks_silent (env : Environment) (fuel : nat) (s : Collector) :
  stages_synced (trace (final (runPostCollectingTasks env fuel s))) = stages_synced (trace s).
Proof.
  revert s. induction fuel as [| fuel IH]; intros s; simpl.
  - destruct (post_collecting_tasks s); reflexivity.
  - destruct (post_collecting_tasks s) as [| task rest]; [reflexivity |].
    pose proof (run_actions_silent (task_body env task)
                  (emit (TaskRun task) (set_post_collecting_tasks rest s))) as Hbody.
    simpl in Hbody. rewrite stages_synced_app in Hbody. simpl in Hbody.
    rewrite app_nil_r in Hbody.
    destruct (run_actions (task_body env task) _) as [[] s2 | e s2 | s2]; simpl in *;
      try exact Hbody.
    rewrite IH. exact Hbody.
Qed.

Lemma makeBackupEntriesForTablesData_silent (env : Environment) (cfg : Config)
    (s : Collector) :
  stages_synced (trace (final (makeBackupEntriesForTablesData env cfg s)))
  = stages_synced (trace s).
Proof.
  unfold makeBackupEntriesForTablesData.
  destruct (structure_only _); [reflexivity |].
  generalize (in_key_order (table_infos s)). intros tables. revert s.
  induction tables as [| [key table_info] rest IH]; intros s; simpl; [reflexivity |].
  unfold bind, modify.
  pose proof (run_actions_silent
                (backupData env (ti_storage table_info) (ti_data_path_in_backup table_info)
                   (ti_partitions table_info)) (emit (LogAddingData key) s)) as Hdata.
  simpl in Hdata. rewrite stages_synced_app in Hdata. simpl in Hdata.
  rewrite app_nil_r in Hdata.
  destruct (run_actions _ (emit (LogAddingData key) s)) as [[] s1 | e s1 | s1];
    simpl in *; try exact Hdata.
  rewrite IH. exact Hdata.
Qed.

Lemma makeBackupEntriesForDatabasesDefs_silent (env : Environment) dbs (s : Collector) :
  stages_synced (trace (makeBackupEntriesForDatabasesDefs_loop env dbs s))
  = stages_synced (trace s).
Proof.
  revert s. induction dbs as [| [database_name database_info] rest IH]; intros s; simpl;
    [reflexivity |].
  rewrite IH. simpl. rewrite stages_synced_app. simpl. apply app_nil_r.
Qed.

Lemma makeBackupEntriesForTablesDefs_silent (env : Environment) tables (s : Collector) :
  stages_synced (trace (makeBackupEntriesForTablesDefs_loop env tables s))
  = stages_synced (trace s).
Proof.
  revert s. induction tables as [| [key table_info] rest IH]; intros s; simpl;
    [reflexivity |].
  rewrite IH. simpl. rewrite stages_synced_app. simpl. apply app_nil_r.
Qed.

Lemma scan_silent (env : Environment) (cfg : Config) (fuel : nat) (s : Collector) :
  stages_synced (trace (final (collectDatabasesAndTablesInfo env cfg fuel s)))
  = stages_synced (trace s).
Proof.
  unfold collectDatabasesAndTablesInfo, bind.
  destruct (scan_loop_outside env cfg fuel 0 s) as (_ & added & Hadded & Hlogs).
  assert (Hnone : stages_synced added = []).
  { clear Hadded. induction Hlogs as [| ev added Hev _ IH]; [reflexivity |].
    change (ev :: added) with ([ev] ++ added). rewrite stages_synced_app, IH.
    destruct ev; try contradiction; reflexivity. }
  destruct (scan_loop env cfg fuel 0 s) as [n s1 | e s1 | s1]; simpl in *;
    rewrite Hadded, ?stages_synced_app, Hnone; simpl; rewrite ?app_nil_r; reflexivity.
Qed.

Lemma getBackupEntries_try_syncs (env : Environment) (cfg : Config)
    (scan_fuel drain_fuel : nat) :
  syncs (getBackupEntries_try env cfg scan_fuel drain_fuel) stages_of_run.
Proof.
  unfold getBackupEntries_try.
  change stages_of_run
    with ([] ++ [] ++ [] ++ [] ++ [kFindingTables] ++ [] ++ [] ++ []
          ++ [kExtractingDataFromTables] ++ [] ++ [kRunningPostTasks] ++ []
          ++ [kWritingBackup] ++ []).
  apply syncs_bind; [apply syncs_silent; intros s; destruct (decide _); reflexivity | intros _].
  apply syncs_bind.
  { apply syncs_silent. intros s. unfold calculateRootPathInBackup.
    destruct (String.eqb _ _); [simpl; rewrite stages_synced_app; apply app_nil_r |].
    destruct (findShardNumAndReplicaNum env _ _) as [e | [shard replica]]; simpl;
      [reflexivity |]. rewrite stages_synced_app. apply app_nil_r. }
  intros _.
  apply syncs_bind; [apply syncs_silent; intros s; unfold call;
     destruct (makeRenamingMapFromBackupQuery env _); reflexivity |].
  intros renamings.
  apply syncs_bind; [apply syncs_silent; reflexivity | intros _].
  apply syncs_bind; [apply syncs_setStage | intros _].
  apply syncs_bind; [apply syncs_silent, scan_silent | intros _].
  apply syncs_bind;
    [apply syncs_silent; intros s; apply makeBackupEntriesForDatabasesDefs_silent | intros _].
  apply syncs_bind;
    [apply syncs_silent; intros s; apply makeBackupEntriesForTablesDefs_silent | intros _].
  apply syncs_bind; [apply syncs_setStage | intros _].
  apply syncs_bind; [apply syncs_silent, makeBackupEntriesForTablesData_silent | intros _].
  apply syncs_bind; [apply syncs_setStage | intros _].
  apply syncs_bind; [apply syncs_silent, runPostCollectingTasks_silent | intros _].
  apply syncs_bind; [apply syncs_setStage | intros _].
  apply syncs_silent. reflexivity.
Qed.

(** X15: the stages of a run.  A run that returns has sent the stages
    [kFindingTables], [kExtractingDataFromTables], [kRunningPostTasks] and
    [kWritingBackup] to the coordination service, each once and in this
    order, and nothing else.  A run that throws has sent the first few of
    them, in this order, and then the error, once and last.  A run never
    sends a stage out of turn. *)
Theorem stages_in_order (env : Environment) (cfg : Config) (scan_fuel drain_fuel : nat)
    (s : Collector) :
  match getBackupEntries env cfg scan_fuel drain_fuel s with
  | Ok _ s' => stages_synced (trace s') = stages_synced (trace s) ++ stages_of_run
  | Throw _ s' =>
      exists n,
        stages_synced (trace s')
        = stages_synced (trace s) ++ firstn n stages_of_run ++ [kError]
  | OutOfFuel s' =>
      exists n, stages_synced (trace s') = stages_synced (trace s) ++ firstn n stages_of_run
  end.
Proof.
  destruct (getBackupEntries_try_syncs env cfg scan_fuel drain_fuel s)
    as (n & Hsynced & Hall).
  unfold getBackupEntries.
  destruct (getBackupEntries_try env cfg scan_fuel drain_fuel s) as [a s1 | e s1 | s1];
    simpl in Hsynced.
  - specialize (Hall a s1 eq_refl). rewrite firstn_all2 in Hsynced by exact Hall.
    exact Hsynced.
  - exists n. rewrite setStage_kError_final. unfold error_stage. simpl.
    rewrite !stages_synced_app, Hsynced. simpl. rewrite app_nil_r, app_assoc. reflexivity.
  - exists n. exact Hsynced.
Qed.

(** ** The queue of tasks *)

Lemma run_actions_no_task (acts : list Action) (s : Collector) :
  forallb adds_no_task acts = true ->
  task_view (final (run_actions acts s)) = task_view s.
Proof.
  revert s. induction acts as [| a rest IH]; intros s Hquiet; [reflexivity |].
  simpl in Hquiet. apply andb_true_iff in Hquiet as [Ha Hrest].
  cbn [run_actions]. unfold bind.
  assert (Hstep : task_view (final (run_action a s)) = task_view s).
  { destruct a; try discriminate Ha; simpl;
      unfold addBackupEntry, addBackupEntries, throw; try destruct (decide _); reflexivity. }
  destruct (run_action a s) as [[] s1 | e s1 | s1]; simpl in *; try exact Hstep.
  rewrite IH by exact Hrest. exact Hstep.
Qed.

(** X16: a queue of tasks that queue nothing is drained in as many steps
    as it is long.  The tasks run in the order of the queue; when all have
    returned the queue is empty and nothing was queued meanwhile; when one
    throws, those before it have run, it is off the queue, and those
    behind it are left in the queue and never run. *)
Theorem quiet_queue_drained (env : Environment) (fuel : nat) (s : Collector) :
  (forall task, In task (post_collecting_tasks s) -> quiet_task env task) ->
  length (post_collecting_tasks s) <= fuel ->
  match runPostCollectingTasks env fuel s with
  | Ok _ s' =>
      tasks_run (trace s') = tasks_run (trace s) ++ post_collecting_tasks s
      /\ tasks_enqueued (trace s') = tasks_enqueued (trace s)
      /\ post_collecting_tasks s' = []
  | Throw _ s' =>
      exists ran task left,
        post_collecting_tasks s = ran ++ task :: left
        /\ tasks_run (trace s') = tasks_run (trace s) ++ ran ++ [task]
        /\ post_collecting_tasks s' = left
  | OutOfFuel _ => False
  end.
Proof.
  revert s. induction fuel as [| fuel IH]; intros s Hquiet Hfuel.
  - destruct (post_collecting_tasks s) as [| task rest] eqn:Hqueue; [| simpl in Hfuel; lia].
    simpl. rewrite Hqueue, app_nil_r. auto.
  - simpl. destruct (post_collecting_tasks s) as [| task rest] eqn:Hqueue.
    + rewrite app_nil_r. auto.
    + set (s1 := emit (TaskRun task) (set_post_collecting_tasks rest s)).
      pose proof (run_actions_no_task (task_body env task) s1 (Hquiet task (or_introl eq_refl)))
        as Hbody.
      assert (Hpopped : task_view s1
                        = (tasks_enqueued (trace s), tasks_run (trace s) ++ [task], rest)).
      { subst s1. unfold task_view. simpl. rewrite tasks_enqueued_app, tasks_run_app. simpl.
        rewrite app_nil_r. reflexivity. }
      rewrite Hpopped in Hbody. unfold task_view in Hbody.
      destruct (run_actions (task_body env task) s1) as [[] s2 | e s2 | s2] eqn:Hrun;
        simpl in Hbody; injection Hbody as Henqueued Hran Hleft.
      * specialize (IH s2). rewrite Hleft in IH.
        assert (Hrest : forall t, In t rest -> quiet_task env t)
          by (intros t Ht; apply Hquiet; right; exact Ht).
        specialize (IH Hrest). simpl in Hfuel.
        assert (Hlen : length rest <= fuel) by lia. specialize (IH Hlen).
        destruct (runPostCollectingTasks env fuel s2) as [[] s3 | e s3 | s3].
        -- destruct IH as (Hrun3 & Henqueued3 & Hempty).
           rewrite Hrun3, Hran, Henqueued3, Henqueued, <- app_assoc. auto.
        -- destruct IH as (ran & thrower & left & Hsplit & Hrun3 & Hleft3).
           exists (task :: ran), thrower, left. rewrite Hsplit, Hrun3, Hran, <- app_assoc.
           auto.
        -- exact IH.
      * exists [], task, rest. auto.
      * pose proof (run_actions_finished (task_body env task) s1) as Hfinished.
        rewrite Hrun in Hfinished. discriminate Hfinished.
Qed.

Lemma quiet_queue_drained_witness :
  let s := final (run_actions [ActAddPostCollectingTask 2; ActAddPostCollectingTask 5]
                    new_collector) in
  tasks_run (trace (final (runPostCollectingTasks task_environment 2 s))) = [2; 5].
Proof.
  intros s.
  pose proof (quiet_queue_drained task_environment 2 s) as Hdrained.
  assert (Hquiet : forall task,
             In task (post_collecting_tasks s) -> quiet_task task_environment task).
  { intros task [<- | [<- | []]]; reflexivity. }
  assert (Hfuel : length (post_collecting_tasks s) <= 2) by (vm_compute; lia).
  specialize (Hdrained Hquiet Hfuel).
  assert (Hrun : runPostCollectingTasks task_environment 2 s
                 = Ok tt (final (runPostCollectingTasks task_environment 2 s))).
  { vm_compute. reflexivity. }
  rewrite Hrun in Hdrained. destruct Hdrained as (Hran & _). exact Hran.
Defined.

(** X17: tasks that queue themselves again keep the queue from ever
    becoming empty.  When every task in a queue that is not empty does
    nothing but queue itself, and the stage allows tasks to be queued,
    [runPostCollectingTasks] does not return and does not throw, however
    long it runs. *)
Theorem requeued_tasks_never_drained (env : Environment) (fuel : nat) (s : Collector) :
  post_collecting_tasks s <> [] ->
  (forall task, In task (post_collecting_tasks s) -> requeues_itself env task) ->
  current_stage s <> kWritingBackup ->
  finished (runPostCollectingTasks env fuel s) = false.
Proof.
  revert s. induction fuel as [| fuel IH]; intros s Hqueue Hrequeue Hstage; simpl.
  - destruct (post_collecting_tasks s); [contradiction | reflexivity].
  - destruct (post_collecting_tasks s) as [| task rest] eqn:Hhead; [contradiction |].
    rewrite (Hrequeue task (or_introl eq_refl)). cbn [run_actions]. unfold bind.
    simpl. unfold addPostCollectingTask. simpl.
    destruct (decide (current_stage s = kWritingBackup)); [contradiction |].
    apply IH; simpl.
    + destruct rest; discriminate.
    + intros t Ht. apply in_app_or in Ht. destruct Ht as [Ht | [<- | []]].
      * apply Hrequeue. right. exact Ht.
      * apply Hrequeue. left. reflexivity.
    + exact Hstage.
Qed.

Lemma requeued_tasks_never_drained_witness :
  finished (runPostCollectingTasks task_environment 50
              (final (addPostCollectingTask 7 new_collector))) = false.
Proof.
  apply requeued_tasks_never_drained.
  - vm_compute. discriminate.
  - intros task [<- | []]. reflexivity.
  - vm_compute. discriminate.
Defined.

(** ** The entries for the definitions *)

Lemma insert_by_key_sorted (x : TableKey * TableInfo) (l : list (TableKey * TableInfo)) :
  Forall (fun y => x.1 <> y.1) l ->
  Sorted.StronglySorted (fun a b => TableKey_ltb a.1 b.1 = true) l ->
  Sorted.StronglySorted (fun a b => TableKey_ltb a.1 b.1 = true) (insert_by_key x l).
Proof.
  destruct TableKey_ltb_strict_total as (_ & Htrans & Htotal).
  induction l as [| y l IH]; intros Hfresh Hsorted; simpl.
  - repeat constructor.
  - inversion Hfresh as [| ? ? Hxy Hfresh']; subst.
    inversion Hsorted as [| ? ? Hsorted' Hbelow]; subst.
    destruct (TableKey_ltb x.1 y.1) eqn:Hlt.
    + constructor; [exact Hsorted |]. constructor; [exact Hlt |].
      eapply List.Forall_impl; [| exact Hbelow]. intros z Hz. exact (Htrans _ _ _ Hlt Hz).
    + constructor; [apply IH; assumption |].
      assert (Hyx : TableKey_ltb y.1 x.1 = true).
      { destruct (Htotal x.1 y.1) as [Hc | [Hc | Hc]]; [congruence | contradiction | exact Hc]. }
      clear IH Hsorted Hfresh. induction l as [| z l IHl]; simpl.
      * repeat constructor. exact Hyx.
      * inversion Hbelow as [| ? ? Hyz Hbelow']; subst.
        inversion Hfresh' as [| ? ? Hxz Hfresh'']; subst.
        inversion Hsorted' as [| ? ? Hsorted'' Hbelowz]; subst.
        destruct (TableKey_ltb x.1 z.1); constructor; auto.
Qed.

Lemma in_key_order_sorted (m : gmap TableKey TableInfo) :
  Sorted.StronglySorted (fun a b => TableKey_ltb a.1 b.1 = true) (in_key_order m).
Proof.
  unfold in_key_order.
  pose proof (NoDup_fst_map_to_list m) as Hnodup.
  induction (map_to_list m) as [| x l IH]; simpl; [constructor |].
  simpl in Hnodup. apply NoDup_cons in Hnodup as [Hfresh Hnodup].
  apply insert_by_key_sorted; [| apply IH, Hnodup].
  apply List.Forall_forall. intros y Hy Hsame. apply Hfresh.
  rewrite Hsame. apply list_elem_of_fmap. exists y. split; [reflexivity |].
  apply list_elem_of_In.
  clear -Hy. revert Hy. induction l as [| z l IHl]; simpl; [tauto |].
  intros Hy.
  assert (Hinsert : forall (kv w : TableKey * TableInfo) sorted,
             In kv (insert_by_key w sorted) -> kv = w \/ In kv sorted).
  { intros kv w sorted. induction sorted as [| v sorted IHs]; simpl; [intuition congruence |].
    destruct (TableKey_ltb w.1 v.1); simpl; [intuition congruence |].
    intros [-> | Hin]; [auto | apply IHs in Hin; tauto]. }
  apply Hinsert in Hy. destruct Hy as [-> | Hy]; auto.
Qed.

Lemma makeBackupEntriesForTablesDefs_loop_entries (env : Environment)
    (tables : list (TableKey * TableInfo)) (s : Collector) :
  backup_entries (makeBackupEntriesForTablesDefs_loop env tables s)
  = backup_entries s ++ map (table_definition_entry env s) tables
  /\ collected (makeBackupEntriesForTablesDefs_loop env tables s) = collected s.
Proof.
  revert s. induction tables as [| [key table_info] rest IH]; intros s; simpl.
  - rewrite app_nil_r. auto.
  - match goal with
    | |- context [makeBackupEntriesForTablesDefs_loop env rest ?s1] =>
        destruct (IH s1) as [Hentries Hcollected]
    end.
    rewrite Hentries, Hcollected. simpl. rewrite <- app_assoc. split; reflexivity.
Qed.

Lemma makeBackupEntriesForDatabasesDefs_loop_entries (env : Environment)
    (dbs : list (string * DatabaseInfo)) (s : Collector) :
  backup_entries (makeBackupEntriesForDatabasesDefs_loop env dbs s)
  = backup_entries s ++ map (database_definition_entry env s) dbs
  /\ collected (makeBackupEntriesForDatabasesDefs_loop env dbs s) = collected s.
Proof.
  revert s. induction dbs as [| [database_name database_info] rest IH]; intros s; simpl.
  - rewrite app_nil_r. auto.
  - match goal with
    | |- context [makeBackupEntriesForDatabasesDefs_loop env rest ?s1] =>
        destruct (IH s1) as [Hentries Hcollected]
    end.
    rewrite Hentries, Hcollected. simpl. rewrite <- app_assoc. split; reflexivity.
Qed.

(** X18: the entries for the definitions.  [makeBackupEntriesForTablesDefs]
    appends, behind the entries there are, one entry for each collected
    table, in increasing order of the keys; [makeBackupEntriesForDatabasesDefs]
    appends one entry for each collected database, in the order in which
    the hash table of the databases hands them out, whichever that is.
    The file of an entry is made from the root path and the escaped new
    name, its content is the definition after renaming.  Neither function
    throws, in any stage, and neither changes what the scan collected. *)
Theorem definition_entries (env : Environment) (s : Collector) :
  (exists s',
     makeBackupEntriesForTablesDefs env s = Ok tt s'
     /\ backup_entries s'
        = backup_entries s ++ map (table_definition_entry env s) (in_key_order (table_infos s))
     /\ collected s' = collected s)
  /\ Sorted.StronglySorted (fun a b => TableKey_ltb a.1 b.1 = true)
       (in_key_order (table_infos s))
  /\ (forall k table_info,
        In (k, table_info) (in_key_order (table_infos s))
        <-> table_infos s !! k = Some table_info)
  /\ (iterates_all env ->
      exists s' dbs,
        makeBackupEntriesForDatabasesDefs env s = Ok tt s'
        /\ backup_entries s' = backup_entries s ++ map (database_definition_entry env s) dbs
        /\ collected s' = collected s
        /\ NoDup dbs.*1
        /\ (forall database_name database_info,
              (database_name, database_info) ∈ dbs
              <-> database_infos s !! database_name = Some database_info)).
Proof.
  split; [| split; [| split]].
  - eexists. split; [reflexivity |]. apply makeBackupEntriesForTablesDefs_loop_entries.
  - apply in_key_order_sorted.
  - apply in_key_order_lookup.
  - intros Hall. eexists. exists (unordered_iteration env (database_infos s)).
    split; [reflexivity |].
    destruct (makeBackupEntriesForDatabasesDefs_loop_entries env
                (unordered_iteration env (database_infos s)) s) as [Hentries Hcollected].
    split; [exact Hentries |]. split; [exact Hcollected |]. split.
    + rewrite (Hall (database_infos s)). apply NoDup_fst_map_to_list.
    + intros database_name database_info. rewrite (Hall (database_infos s)).
      apply elem_of_map_to_list.
Qed.

Lemma definition_entries_witness :
  In (db1_t1, db1_t1_info) (in_key_order (table_infos during_pass_with_t1)).
Proof.
  destruct (definition_entries shard_environment during_pass_with_t1)
    as (_ & _ & Hlisted & _).
  apply Hlisted. reflexivity.
Defined.

(** ** Where the entries go *)

Lemma prefix_append (p x : string) : String.prefix p (p +:+ x) = true.
Proof.
  induction p as [| c p IH]; simpl; [destruct x; reflexivity |].
  destruct (ascii_dec c c); [exact IH | contradiction].
Qed.

Lemma prefix_trans (a b c : string) :
  String.prefix a b = true -> String.prefix b c = true -> String.prefix a c = true.
Proof.
  revert b c. induction a as [| x a IH]; intros b c Hab Hbc.
  - destruct c; reflexivity.
  - destruct b as [| y b]; [discriminate |]. destruct c as [| z c]; [discriminate |].
    simpl in *. destruct (ascii_dec x y) as [-> |]; [| discriminate].
    destruct (ascii_dec y z) as [-> |]; [| discriminate]. exact (IH _ _ Hab Hbc).
Qed.

Lemma prefix_path_append (r p q : string) :
  String.prefix r p = true -> is_absolute q = false -> String.prefix r (p // q) = true.
Proof.
  intros Hrp Hq. apply (prefix_trans r p); [exact Hrp |].
  unfold path_append. rewrite Hq. destruct (has_filename p); apply prefix_append.
Qed.

Lemma prefix_refl (p : string) : String.prefix p p = true.
Proof.
  induction p as [| c p IH]; simpl; [reflexivity |].
  destruct (ascii_dec c c); [exact IH | contradiction].
Qed.

Lemma is_absolute_append (a b : string) :
  is_absolute a = false -> is_absolute b = false -> is_absolute (a +:+ b) = false.
Proof. destruct a; simpl; auto. Qed.

(** X19: where the files of a table go.  When the escaped new names of a
    table do not begin with a separator, the file of its definition and
    the directory of its data lie under the root path of the collector.
    When an escaped table name does begin with one, the data path of the
    table is that name alone: the root path is lost. *)
Theorem table_paths_under_root (env : Environment) (s : Collector) (k : TableKey) :
  let new_name := getNewTableName (renaming_map s) (key_name k) in
  let new_temporary_name :=
    getNewTemporaryTableName (renaming_map s) (qtn_table (key_name k)) in
  (is_absolute (escapeForFileName env (qtn_database new_name)) = false ->
   is_absolute (escapeForFileName env (qtn_table new_name)) = false ->
   is_absolute (escapeForFileName env new_temporary_name) = false ->
   String.prefix (root_path_in_backup s) (definition_path_of env s k) = true
   /\ String.prefix (root_path_in_backup s) (data_path_of env s k) = true)
  /\ (key_is_temporary k = false ->
      is_absolute (escapeForFileName env (qtn_table new_name)) = true ->
      data_path_of env s k = escapeForFileName env (qtn_table new_name)).
Proof.
  intros new_name new_temporary_name. split.
  - intros Hdatabase Htable Htemporary.
    unfold definition_path_of, data_path_of. fold new_name new_temporary_name.
    destruct (key_is_temporary k);
      split; repeat (apply prefix_path_append; [| auto using is_absolute_append]);
      apply prefix_refl.
  - intros Hordinary Habsolute. unfold data_path_of. rewrite Hordinary.
    fold new_name. unfold path_append at 1. rewrite Habsolute. reflexivity.
Qed.

Lemma table_paths_under_root_witness :
  String.prefix "/shards/1/replicas/0"
    (data_path_of shard_environment
       (set_root_path_in_backup "/shards/1/replicas/0" new_collector) db1_t1) = true.
Proof.
  apply (table_paths_under_root shard_environment
           (set_root_path_in_backup "/shards/1/replicas/0" new_collector) db1_t1);
    reflexivity.
Defined.

(** ** The entries of a run *)

Lemma setStage_kept (env : Environment) (cfg : Config) (new_stage : Stage)
    (message : string) (s : Collector) :
  collected (final (setStage env cfg new_stage message s)) = collected s
  /\ backup_entries (final (setStage env cfg new_stage message s)) = backup_entries s.
Proof.
  unfold setStage. destruct (coordination env _ _); split; reflexivity.
Qed.

Lemma run_actions_appends (acts : list Action) (s : Collector) :
  collected (final (run_actions acts s)) = collected s
  /\ exists added, backup_entries (final (run_actions acts s)) = backup_entries s ++ added.
Proof.
  revert s. induction acts as [| a rest IH]; intros s; simpl.
  - split; [reflexivity |]. exists []. rewrite app_nil_r. reflexivity.
  - unfold bind.
    assert (Hstep : collected (final (run_action a s)) = collected s
                    /\ exists added,
                         backup_entries (final (run_action a s)) = backup_entries s ++ added).
    { destruct a; simpl; unfold addBackupEntry, addBackupEntries, addPostCollectingTask, throw;
        try destruct (decide _); simpl; (split; [reflexivity |]);
        try (exists []; rewrite app_nil_r; reflexivity); eexists; reflexivity. }
    destruct (run_action a s) as [[] s1 | e s1 | s1]; cbn [final] in *; try exact Hstep.
    destruct Hstep as (Hcollected & added1 & Hadded1).
    destruct (IH s1) as (Hcollected2 & added2 & Hadded2).
    split; [congruence |]. exists (added1 ++ added2).
    rewrite Hadded2, Hadded1, app_assoc. reflexivity.
Qed.

Lemma makeBackupEntriesForTablesData_appends (env : Environment) (cfg : Config)
    (s : Collector) :
  collected (final (makeBackupEntriesForTablesData env cfg s)) = collected s
  /\ exists added,
       backup_entries (final (makeBackupEntriesForTablesData env cfg s))
       = backup_entries s ++ added.
Proof.
  unfold makeBackupEntriesForTablesData.
  destruct (structure_only _).
  { split; [reflexivity |]. exists []. rewrite app_nil_r. reflexivity. }
  generalize (in_key_order (table_infos s)). intros tables. revert s.
  induction tables as [| [key table_info] rest IH]; intros s; simpl.
  { split; [reflexivity |]. exists []. rewrite app_nil_r. reflexivity. }
  unfold bind, modify.
  destruct (run_actions_appends
              (backupData env (ti_storage table_info) (ti_data_path_in_backup table_info)
                 (ti_partitions table_info)) (emit (LogAddingData key) s))
    as (Hcollected & added1 & Hadded1).
  change (collected (emit (LogAddingData key) s)) with (collected s) in Hcollected.
  change (backup_entries (emit (LogAddingData key) s)) with (backup_entries s) in Hadded1.
  destruct (run_actions _ (emit (LogAddingData key) s)) as [[] s1 | e s1 | s1];
    cbn [final] in *; try (split; [exact Hcollected | exists added1; exact Hadded1]).
  destruct (IH s1) as (Hcollected2 & added2 & Hadded2).
  split; [congruence |]. exists (added1 ++ added2).
  rewrite Hadded2, Hadded1, app_assoc. reflexivity.
Qed.

Lemma runPostCollectingTasks_appends (env : Environment) (fuel : nat) (s : Collector) :
  collected (final (runPostCollectingTasks env fuel s)) = collected s
  /\ exists added,
       backup_entries (final (runPostCollectingTasks env fuel s)) = backup_entries s ++ added.
Proof.
  assert (Hnone : collected s = collected s
                  /\ exists added : BackupEntries, backup_entries s = backup_entries s ++ added).
  { split; [reflexivity |]. exists []. rewrite app_nil_r. reflexivity. }
  revert s Hnone. induction fuel as [| fuel IH]; intros s Hnone; simpl.
  - destruct (post_collecting_tasks s); exact Hnone.
  - destruct (post_collecting_tasks s) as [| task rest]; [exact Hnone |].
    destruct (run_actions_appends (task_body env task)
                (emit (TaskRun task) (set_post_collecting_tasks rest s)))
      as (Hcollected & added1 & Hadded1).
    change (collected (emit (TaskRun task) (set_post_collecting_tasks rest s)))
      with (collected s) in Hcollected.
    change (backup_entries (emit (TaskRun task) (set_post_collecting_tasks rest s)))
      with (backup_entries s) in Hadded1.
    destruct (run_actions (task_body env task) _) as [[] s2 | e s2 | s2]; cbn [final] in *;
      try (split; [exact Hcollected | exists added1; exact Hadded1]).
    destruct (IH s2) as (Hcollected2 & added2 & Hadded2).
    { split; [reflexivity |]. exists []. rewrite app_nil_r. reflexivity. }
    split; [congruence |]. exists (added1 ++ added2).
    rewrite Hadded2, Hadded1, app_assoc. reflexivity.
Qed.

Lemma definition_entries_collected (env : Environment) (s s' : Collector) :
  collected s' = collected s ->
  map (database_definition_entry env s') (unordered_iteration env (database_infos s'))
  = map (database_definition_entry env s) (unordered_iteration env (database_infos s))
  /\ map (table_definition_entry env s') (in_key_order (table_infos s'))
     = map (table_definition_entry env s) (in_key_order (table_infos s)).
Proof.
  unfold collected. intros [= Hroot Hrenaming Hdatabases Htables].
  unfold database_definition_entry, table_definition_entry, database_definition_path_of,
    definition_path_of.
  rewrite Hroot, Hrenaming, Hdatabases, Htables. split; reflexivity.
Qed.

Lemma step_Ok {A} (m : M A) (s s' : Collector) (a : A) :
  m s = Ok a s' -> final (m s) = s'.
Proof. intros ->. reflexivity. Qed.

(** X20: the entries a run returns.  They are the entries the collector
    held before, then one definition for each database collected, in the
    order in which the hash table of the databases hands them out,
    whichever that is, then one definition for each table collected, in
    key order, then whatever the storages and the tasks added; the
    collector is left without entries.  With [structure_only] and no task
    queued beforehand nothing comes after the definitions, and no task
    was run. *)
Theorem run_entries (env : Environment) (cfg : Config) (scan_fuel drain_fuel : nat)
    (s s' : Collector) (entries : BackupEntries) :
  iterates_all env ->
  getBackupEntries env cfg scan_fuel drain_fuel s = Ok entries s' ->
  exists (dbs : list (string * DatabaseInfo)) (data_entries : BackupEntries),
    dbs ≡ₚ map_to_list (database_infos s')
    /\ entries
       = backup_entries s
         ++ map (database_definition_entry env s') dbs
         ++ map (table_definition_entry env s') (in_key_order (table_infos s'))
         ++ data_entries
    /\ backup_entries s' = []
    /\ (structure_only (backup_settings cfg) = true ->
        post_collecting_tasks s = [] ->
        data_entries = [] /\ tasks_run (trace s') = tasks_run (trace s)).
Proof.
  intros Hall Hrun. apply getBackupEntries_Ok in Hrun. destruct Hrun as [Htry _].
  unfold getBackupEntries_try in Htry.
  apply bind_Ok in Htry. destruct Htry as ([] & s1 & Hcheck & Htry).
  destruct (decide (current_stage s = kPreparing)); [| discriminate].
  injection Hcheck as <-.
  apply bind_Ok in Htry. destruct Htry as ([] & s2 & Hroot & Htry).
  assert (H2 : backup_entries s2 = backup_entries s /\ task_view s2 = task_view s).
  { pose proof (calculateRootPathInBackup_task_view env cfg s) as Hview.
    rewrite Hroot in Hview. split; [| exact Hview].
    unfold calculateRootPathInBackup in Hroot.
    destruct (String.eqb _ _); [injection Hroot as <-; reflexivity |].
    destruct (findShardNumAndReplicaNum env _ _) as [failure | [shard replica]];
      [discriminate |].
    injection Hroot as <-. reflexivity. }
  apply bind_Ok in Htry. destruct Htry as (renamings & s3 & Hrename & Htry).
  unfold call in Hrename. destruct (makeRenamingMapFromBackupQuery env _); [discriminate |].
  injection Hrename as _ <-.
  apply bind_Ok in Htry. destruct Htry as ([] & s4 & Hmodify & Htry).
  injection Hmodify as <-.
  apply bind_Ok in Htry. destruct Htry as ([] & s5 & Hstage1 & Htry).
  pose proof (setStage_kept env cfg kFindingTables "" (set_renaming_map renamings s2)) as K5.
  pose proof (setStage_task_view env cfg kFindingTables "" (set_renaming_map renamings s2))
    as V5.
  rewrite Hstage1 in K5, V5. simpl in K5, V5. destruct K5 as [_ E5].
  apply bind_Ok in Htry. destruct Htry as (passes & s6 & Hscan & Htry).
  destruct (collectDatabasesAndTablesInfo_outside env cfg scan_fuel s5) as [O6 _].
  pose proof (collectDatabasesAndTablesInfo_task_view env cfg scan_fuel s5) as V6.
  rewrite Hscan in O6, V6. simpl in O6, V6.
  assert (E6 : backup_entries s6 = backup_entries s5).
  { unfold outside_scan in O6. congruence. }
  apply bind_Ok in Htry. destruct Htry as ([] & s7 & Hdatabases & Htry).
  injection Hdatabases as <-.
  destruct (makeBackupEntriesForDatabasesDefs_loop_entries env
              (unordered_iteration env (database_infos s6)) s6) as [E7 C7].
  pose proof (makeBackupEntriesForDatabasesDefs_task_view env
                (unordered_iteration env (database_infos s6)) s6) as V7.
  set (s7 := makeBackupEntriesForDatabasesDefs_loop env
               (unordered_iteration env (database_infos s6)) s6) in *.
  apply bind_Ok in Htry. destruct Htry as ([] & s8 & Htables & Htry).
  injection Htables as <-.
  destruct (makeBackupEntriesForTablesDefs_loop_entries env
              (in_key_order (table_infos s7)) s7) as [E8 C8].
  pose proof (makeBackupEntriesForTablesDefs_task_view env
                (in_key_order (table_infos s7)) s7) as V8.
  set (s8 := makeBackupEntriesForTablesDefs_loop env (in_key_order (table_infos s7)) s7) in *.
  apply bind_Ok in Htry. destruct Htry as ([] & s9 & Hstage2 & Htry).
  destruct (setStage_kept env cfg kExtractingDataFromTables "" s8) as [C9 E9].
  pose proof (setStage_task_view env cfg kExtractingDataFromTables "" s8) as V9.
  rewrite Hstage2 in C9, E9, V9. simpl in C9, E9, V9.
  apply bind_Ok in Htry. destruct Htry as ([] & s10 & Hdata & Htry).
  destruct (makeBackupEntriesForTablesData_appends env cfg s9) as (C10 & added1 & E10).
  rewrite Hdata in C10, E10. simpl in C10, E10.
  apply bind_Ok in Htry. destruct Htry as ([] & s11 & Hstage3 & Htry).
  destruct (setStage_kept env cfg kRunningPostTasks "" s10) as [C11 E11].
  pose proof (setStage_task_view env cfg kRunningPostTasks "" s10) as V11.
  rewrite Hstage3 in C11, E11, V11. simpl in C11, E11, V11.
  apply bind_Ok in Htry. destruct Htry as ([] & s12 & Hdrain & Htry).
  destruct (runPostCollectingTasks_appends env drain_fuel s11) as (C12 & added2 & E12).
  rewrite Hdrain in C12, E12. simpl in C12, E12.
  apply bind_Ok in Htry. destruct Htry as ([] & s13 & Hstage4 & Hmove).
  destruct (setStage_kept env cfg kWritingBackup "" s12) as [C13 E13].
  pose proof (setStage_task_view env cfg kWritingBackup "" s12) as V13.
  rewrite Hstage4 in C13, E13, V13. simpl in C13, E13, V13.
  injection Hmove as <- <-.
  assert (Hcollected : collected (set_backup_entries [] s13) = collected s6).
  { change (collected (set_backup_entries [] s13)) with (collected s13). congruence. }
  destruct (definition_entries_collected env s6 _ Hcollected) as [Hdbs Htbls].
  assert (Htables7 : in_key_order (table_infos s7) = in_key_order (table_infos s6)).
  { unfold collected in C7. injection C7 as _ _ _ ->. reflexivity. }
  assert (Hentry7 : map (table_definition_entry env s7) (in_key_order (table_infos s7))
                    = map (table_definition_entry env s6) (in_key_order (table_infos s6))).
  { apply definition_entries_collected. exact C7. }
  exists (unordered_iteration env (database_infos (set_backup_entries [] s13))),
    (added1 ++ added2).
  split; [apply Hall |]. split; [| split].
  - rewrite E13, E12, E11, E10, E9, E8, E7, E6, E5, Hentry7, Hdbs, Htbls.
    simpl. destruct H2 as [-> _]. rewrite <- !app_assoc. reflexivity.
  - reflexivity.
  - intros Honly Hqueue.
    unfold makeBackupEntriesForTablesData in Hdata. rewrite Honly in Hdata.
    injection Hdata as <-.
    assert (V : task_view s11 = task_view s).
    { rewrite V11, V9, V8, V7, V6, V5. destruct H2 as [_ <-]. reflexivity. }
    assert (Hempty : post_collecting_tasks s11 = []).
    { unfold task_view in V. injection V as _ _ ->. exact Hqueue. }
    assert (Hsame : s12 = s11).
    { destruct drain_fuel; simpl in Hdrain; rewrite Hempty in Hdrain; congruence. }
    subst s12. split.
    + assert (Hnil : forall l added : BackupEntries, l = l ++ added -> added = []).
      { intros l added Hadded. rewrite <- (app_nil_r l) in Hadded at 1.
        apply app_inv_head in Hadded. auto. }
      rewrite (Hnil _ _ E10), (Hnil _ _ E12). reflexivity.
    + change (trace (set_backup_entries [] s13)) with (trace s13).
      unfold task_view in V13, V. injection V13 as _ -> _. injection V as _ -> _.
      reflexivity.
Qed.

Lemma run_entries_witness :
  exists data_entries : BackupEntries,
    map fst (returned_entries (getBackupEntries task_environment local_config 2 2
                                 new_collector))
    = ["/metadata/db1.sql"; "/metadata/db1/t1.sql"; "/metadata/db1/t3.sql"]
      ++ map fst data_entries.
Proof.
  destruct (run_entries task_environment local_config 2 2 new_collector
              (final (getBackupEntries task_environment local_config 2 2 new_collector))
              (returned_entries (getBackupEntries task_environment local_config 2 2
                                   new_collector)))
    as (dbs & data_entries & Hdbs & Hentries & _).
  - intros m. apply reverse_Permutation.
  - vm_compute. reflexivity.
  - exists data_entries. rewrite Hentries, !map_app.
    assert (Hone : map_to_list
                     (database_infos
                        (final (getBackupEntries task_environment local_config 2 2
                                  new_collector)))
                   = [("db1", mkDatabaseInfo (Some 1)
                                (mkCreate "db1" "" false "CREATE DATABASE"))]).
    { vm_compute. reflexivity. }
    rewrite Hone in Hdbs. apply Permutation_singleton_r in Hdbs. rewrite Hdbs.
    reflexivity.
Defined.

(** X21: adding entries composes.  Adding a list of entries is adding its
    parts one after the other, adding one entry is adding the list of that
    entry, and adding no entry changes nothing, or throws when the
    collector is in the stage [kWritingBackup]. *)
Theorem adding_entries_composes (s : Collector) :
  (forall first second,
     addBackupEntries (first ++ second) s
     = (addBackupEntries first ;;; addBackupEntries second) s)
  /\ (forall file_name backup_entry,
        addBackupEntry file_name backup_entry s
        = addBackupEntries [(file_name, backup_entry)] s)
  /\ (current_stage s <> kWritingBackup -> addBackupEntries [] s = Ok tt s)
  /\ (forall entries, current_stage s = kWritingBackup ->
                      exists e, addBackupEntries entries s = Throw e s).
Proof.
  split; [| split; [| split]].
  - intros first second. unfold bind, addBackupEntries.
    destruct (decide (current_stage s = kWritingBackup)) as [Hsealed | Hopen];
      [reflexivity |].
    simpl. destruct (decide (current_stage s = kWritingBackup)); [contradiction |].
    unfold set_backup_entries. simpl. rewrite app_assoc. reflexivity.
  - intros file_name backup_entry. reflexivity.
  - intros Hopen. unfold addBackupEntries.
    destruct (decide (current_stage s = kWritingBackup)); [contradiction |].
    unfold set_backup_entries. rewrite app_nil_r. destruct s; reflexivity.
  - intros entries Hsealed. unfold addBackupEntries.
    destruct (decide (current_stage s = kWritingBackup)); [| contradiction].
    eexists. reflexivity.
Qed.

Lemma adding_entries_composes_witness : addBackupEntries [] new_collector = Ok tt new_collector.
Proof.
  destruct (adding_entries_composes new_collector) as (_ & _ & Hnothing & _).
  apply Hnothing. discriminate.
Defined.
